(** * ts-punycode: a shallow embedding of [src/punycode.ts]

    JavaScript strings are sequences of UTF-16 code units and are modelled
    as [list Z]; arrays of code points are [list Z] as well.  Every number
    the codec manipulates is an integer below [2^53], where the arithmetic
    of JavaScript numbers is exact, so numbers are modelled as [Z], with
    [Math.floor (a / b)] on non-negative operands as [a / b].  Thrown
    exceptions are modelled by the [Throw] outcome. *)

From Stdlib Require Import ZArith List Bool Lia String Ascii.
Import ListNotations.
Open Scope Z_scope.

(** ** Outcomes of a call *)

(** [PunycodeErrorType] of [types.ts]. *)
Inductive PunycodeErrorType : Type :=
| overflow
| not_basic
| invalid_input.

(** [PUNYCODE_ERRORS] of [types.ts]: the message of each error type. *)
Definition PUNYCODE_ERRORS (type : PunycodeErrorType) : string :=
  match type with
  | overflow => "Overflow: input needs wider integers to process"
  | not_basic => "Illegal input >= 0x80 (not a basic code point)"
  | invalid_input => "Invalid input"
  end%string.

(** What a call can throw: a [RangeError] built by [error] from one of the
    three error types, the [RangeError] that the runtime's
    [String.fromCodePoint] raises on a number that is not a code point, or
    the [RangeError] (maximum call stack size exceeded) that the runtime
    raises when an array spread into the arguments of a call holds more
    elements than the stack takes. *)
Inductive exn : Type :=
| CodecError (type : PunycodeErrorType)
| InvalidCodePoint (codePoint : Z)
| CallStackExceeded.

(** The message carried by the [RangeError] that [error type] throws. *)
Definition error_message (type : PunycodeErrorType) : string :=
  PUNYCODE_ERRORS type.

(** A call returns, throws, or (for the one loop of the embedding that is
    run on fuel) exhausts its fuel. *)
Inductive outcome (A : Type) : Type :=
| Ok (a : A)
| Throw (e : exn)
| OutOfFuel.

Arguments Ok {A} a.
Arguments Throw {A} e.
Arguments OutOfFuel {A}.

Definition bind {A B : Type} (m : outcome A) (f : A -> outcome B) : outcome B :=
  match m with
  | Ok a => f a
  | Throw e => Throw e
  | OutOfFuel => OutOfFuel
  end.

Notation "x <- m ;; k" := (bind m (fun x => k))
  (at level 61, m at next level, right associativity).

(** [error(type)]: throws. *)
Definition error {A : Type} (type : PunycodeErrorType) : outcome A :=
  Throw (CodecError type).

(** ** Bootstring parameters *)

Definition maxInt : Z := 2147483647.
Definition base : Z := 36.
Definition tMin : Z := 1.
Definition tMax : Z := 26.
Definition skew : Z := 38.
Definition damp : Z := 700.
Definition initialBias : Z := 72.
Definition initialN : Z := 128.
Definition delimiter : Z := 45.
Definition baseMinusTMin : Z := base - tMin.

(** ** Strings *)

(** A JavaScript string: each code unit is a 16-bit number. *)
Definition is_string (s : list Z) : Prop :=
  Forall (fun u => 0 <= u < 65536) s.

(** The code units of an ASCII literal. *)
Fixpoint units (s : string) : list Z :=
  match s with
  | EmptyString => []
  | String c r => Z.of_nat (nat_of_ascii c) :: units r
  end.

Definition len (s : list Z) : Z := Z.of_nat (List.length s).

(** [ToInt32], applied by the bitwise operators of JavaScript. *)
Definition toInt32 (x : Z) : Z := (x + 2147483648) mod 4294967296 - 2147483648.

(** ** [ucs2decode] *)

Fixpoint ucs2decode (s : list Z) : list Z :=
  match s with
  | [] => []
  | value :: rest =>
      match rest with
      | extra :: rest' =>
          if (value >=? 55296) && (value <=? 56319) then
            if Z.land extra 64512 =? 56320 then
              (Z.shiftl (Z.land value 1023) 10 + Z.land extra 1023 + 65536)
                :: ucs2decode rest'
            else value :: ucs2decode rest
          else value :: ucs2decode rest
      | [] => [value]
      end
  end.

(** ** [String.fromCodePoint]

    Runtime built-in (ECMAScript 22.1.2.2), on the list of its arguments:
    a number outside [0, 0x10FFFF] raises a [RangeError]; a code point
    above [0xFFFF] is written as a surrogate pair; any other one as a
    single code unit. *)
Fixpoint fromCodePoint (codePoints : list Z) : outcome (list Z) :=
  match codePoints with
  | [] => Ok []
  | cp :: rest =>
      if (cp <? 0) || (cp >? 1114111) then Throw (InvalidCodePoint cp)
      else
        r <- fromCodePoint rest ;;
        if cp <=? 65535 then Ok (cp :: r)
        else Ok ((cp - 65536) / 1024 + 55296 :: (cp - 65536) mod 1024 + 56320 :: r)
  end.

(** The number of elements that a spread [f(...array)] can pass.  The
    elements become arguments on the call stack, and the runtime throws a
    [RangeError] (maximum call stack size exceeded) when they do not fit.
    ECMAScript sets no bound: it is a property of the engine and of the
    stack that is left when the call is made.  The embedding takes the
    bound of a stack that holds 125078 arguments, about a megabyte of
    eight-byte values; the properties below name the bound, and use of
    its value only that it is not below the lengths they state. *)
Definition maxArguments : Z := 125078.

(** [String.fromCodePoint(...codePoints)], the body of [ucs2encode] and
    the last line of [decode]: the array is spread before the built-in
    is entered. *)
Definition fromCodePoint_spread (codePoints : list Z) : outcome (list Z) :=
  if len codePoints >? maxArguments then Throw CallStackExceeded
  else fromCodePoint codePoints.

Definition ucs2encode (codePoints : list Z) : outcome (list Z) :=
  fromCodePoint_spread codePoints.

(** ** Digits *)

Definition basicToDigit (codePoint : Z) : Z :=
  if (codePoint >=? 48) && (codePoint <? 58) then 26 + (codePoint - 48)
  else if (codePoint >=? 65) && (codePoint <? 91) then codePoint - 65
  else if (codePoint >=? 97) && (codePoint <? 123) then codePoint - 97
  else base.

Definition digitToBasic (digit flag : Z) : Z :=
  digit + 22 + 75 * (if digit <? 26 then 1 else 0)
  - Z.shiftl (if flag =? 0 then 0 else 1) 5.

(** ** [adapt] *)

(** The loop [for (; delta > baseMinusTMin * tMax >> 1; k += base)] of
    [adapt].  It runs on fuel; [adapt_loop_fuel] below is enough for every
    [delta] (lemma [adapt_loop_exit]). *)
Fixpoint adapt_loop (fuel : nat) (delta k : Z) : Z * Z :=
  match fuel with
  | O => (delta, k)
  | S fuel' =>
      if delta >? Z.shiftr (baseMinusTMin * tMax) 1
      then adapt_loop fuel' (delta / baseMinusTMin) (k + base)
      else (delta, k)
  end.

Definition adapt_loop_fuel (delta : Z) : nat := S (Z.to_nat (Z.log2 delta)).

Definition adapt (delta numPoints : Z) (firstTime : bool) : Z :=
  let delta := if firstTime then delta / damp else Z.shiftr (toInt32 delta) 1 in
  let delta := delta + delta / numPoints in
  let '(delta, k) := adapt_loop (adapt_loop_fuel delta) delta 0 in
  k + (baseMinusTMin + 1) * delta / (delta + skew).

(** The threshold [t] of a digit position:
    [k <= bias ? tMin : (k >= bias + tMax ? tMax : k - bias)]. *)
Definition threshold (k bias : Z) : Z :=
  if k <=? bias then tMin
  else if k >=? bias + tMax then tMax
  else k - bias.

(** ** [decode] *)

(** [input.lastIndexOf(c)]: the index of the last occurrence of [c], or
    [-1]. *)
Fixpoint lastIndexOf (input : list Z) (c : Z) : Z :=
  match input with
  | [] => -1
  | u :: rest =>
      let r := lastIndexOf rest c in
      if r >=? 0 then r + 1 else if u =? c then 0 else -1
  end.

(** The first loop of [decode]: the code points before the last delimiter
    are copied to the output; one that is not basic throws. *)
Fixpoint copy_basic (prefix output : list Z) : outcome (list Z) :=
  match prefix with
  | [] => Ok output
  | c :: rest =>
      if c >=? 128 then error not_basic
      else copy_basic rest (output ++ [c])
  end.

(** The variables of [decode] that live across iterations of its main
    loop. *)
Record dstate : Type := mkD {
  d_i : Z;
  d_n : Z;
  d_bias : Z;
  d_output : list Z
}.

(** Where the main loop stands: [Between] two variable-length integers (at
    the head of the outer [for]), or [Within] one, with the variables
    [oldi], [w] and [k] of the inner [for]. *)
Inductive cursor : Type :=
| Between
| Within (oldi w k : Z).

(** [output.splice(i, 0, n)]. *)
Definition splice (output : list Z) (i n : Z) : list Z :=
  firstn (Z.to_nat i) output ++ n :: skipn (Z.to_nat i) output.

(** The end of an iteration of the outer loop of [decode], from the
    [break] of the inner loop on: [i] is the value accumulated by the
    inner loop, [oldi] its value before.  The bias is adapted, [i] is
    folded into [n], and [n] is inserted into the output. *)
Definition close_integer (st : dstate) (oldi i : Z) : outcome dstate :=
  let out := len (d_output st) + 1 in
  let bias := adapt (i - oldi) out (oldi =? 0) in
  if i / out >? maxInt - d_n st then error overflow
  else
    let n := d_n st + i / out in
    let i := i mod out in
    Ok (mkD (i + 1) n bias (splice (d_output st) i n)).

(** The main loop of [decode], the outer and the inner [for] together, by
    recursion on the input that is left from [index] on.  Each step
    consumes the character [input.charCodeAt(index++)]; running out of
    input [Within] an integer is the [index >= inputLength] test of the
    inner loop. *)
Fixpoint decode_loop (input : list Z) (cur : cursor) (st : dstate)
  : outcome dstate :=
  match input with
  | [] =>
      match cur with
      | Between => Ok st
      | Within _ _ _ => error invalid_input
      end
  | c :: rest =>
      let '(oldi, w, k) :=
        match cur with
        | Between => (d_i st, 1, base)
        | Within oldi w k => (oldi, w, k)
        end in
      let digit := basicToDigit c in
      if digit >=? base then error invalid_input
      else if digit >? (maxInt - d_i st) / w then error overflow
      else
        let i := d_i st + digit * w in
        let t := threshold k (d_bias st) in
        if digit <? t then
          st' <- close_integer st oldi i ;;
          decode_loop rest Between st'
        else
          let baseMinusT := base - t in
          if w >? maxInt / baseMinusT then error overflow
          else
            decode_loop rest (Within oldi (w * baseMinusT) (k + base))
              (mkD i (d_n st) (d_bias st) (d_output st))
  end.

(** [decode] up to its last line: the array [output] of code points. *)
Definition decode_points (input : list Z) : outcome (list Z) :=
  let basic := lastIndexOf input delimiter in
  let basic := if basic <? 0 then 0 else basic in
  output <- copy_basic (firstn (Z.to_nat basic) input) [] ;;
  st <- decode_loop
          (skipn (Z.to_nat (if basic >? 0 then basic + 1 else 0)) input)
          Between (mkD 0 initialN initialBias output) ;;
  Ok (d_output st).

Definition decode (input : list Z) : outcome (list Z) :=
  output <- decode_points input ;;
  fromCodePoint_spread output.

(** ** [encode] *)

(** [String.fromCharCode] of one number: [ToUint16]. *)
Definition stringFromCharCode (x : Z) : Z := x mod 65536.

(** The digits of [q] as a generalized variable-length integer: the loop
    [for (let k = base; ; k += base)] of [encode] and the push of the last
    digit that follows it.  The loop runs on fuel; [emit_fuel] is enough
    for every [q] (lemma [emit_eq]). *)
Fixpoint emit_loop (fuel : nat) (q k bias : Z) : list Z :=
  match fuel with
  | O => []
  | S fuel' =>
      let t := threshold k bias in
      if q <? t then [stringFromCharCode (digitToBasic q 0)]
      else
        let qMinusT := q - t in
        let baseMinusT := base - t in
        stringFromCharCode (digitToBasic (t + qMinusT mod baseMinusT) 0)
          :: emit_loop fuel' (qMinusT / baseMinusT) (k + base) bias
  end.

Definition emit_fuel (q : Z) : nat := S (S (Z.to_nat (Z.log2 q))).

Definition emit (q bias : Z) : list Z := emit_loop (emit_fuel q) q base bias.

(** The search of the next larger code point:
    [for (const currentValue of inputArray)
       if (currentValue >= n && currentValue < m) m = currentValue]. *)
Fixpoint find_min (inputArray : list Z) (n m : Z) : Z :=
  match inputArray with
  | [] => m
  | currentValue :: rest =>
      find_min rest n
        (if (currentValue >=? n) && (currentValue <? m) then currentValue else m)
  end.

(** The variables of [encode] that change inside its main loop. *)
Record estate : Type := mkE {
  e_n : Z;
  e_delta : Z;
  e_bias : Z;
  e_handled : Z;
  e_output : list Z
}.

(** The second [for (const currentValue of inputArray)] of the main loop,
    by recursion on the part of the array still to visit.
    [handledCPCountPlusOne] is the constant computed before the loop: it is
    not updated when [handledCPCount] grows inside it. *)
Fixpoint encode_scan (rest : list Z) (basicLength handledCPCountPlusOne : Z)
    (st : estate) : outcome estate :=
  match rest with
  | [] => Ok st
  | currentValue :: rest' =>
      let n := e_n st in
      let delta := if currentValue <? n then e_delta st + 1 else e_delta st in
      if (currentValue <? n) && (delta >? maxInt) then error overflow
      else if currentValue =? n then
        encode_scan rest' basicLength handledCPCountPlusOne
          (mkE n 0
             (adapt delta handledCPCountPlusOne (e_handled st =? basicLength))
             (e_handled st + 1)
             (e_output st ++ emit delta (e_bias st)))
      else
        encode_scan rest' basicLength handledCPCountPlusOne
          (mkE n delta (e_bias st) (e_handled st) (e_output st))
  end.

(** The main loop [while (handledCPCount < inputLength)].  It runs on
    fuel: one unit per iteration. *)
Fixpoint encode_main (fuel : nat) (inputArray : list Z) (basicLength : Z)
    (st : estate) : outcome estate :=
  if e_handled st <? len inputArray then
    match fuel with
    | O => OutOfFuel
    | S fuel' =>
        let m := find_min inputArray (e_n st) maxInt in
        let handledCPCountPlusOne := e_handled st + 1 in
        if m - e_n st >? (maxInt - e_delta st) / handledCPCountPlusOne
        then error overflow
        else
          let delta := e_delta st + (m - e_n st) * handledCPCountPlusOne in
          st' <- encode_scan inputArray basicLength handledCPCountPlusOne
                   (mkE m delta (e_bias st) (e_handled st) (e_output st)) ;;
          encode_main fuel' inputArray basicLength
            (mkE (e_n st' + 1) (e_delta st' + 1) (e_bias st')
               (e_handled st') (e_output st'))
    end
  else Ok st.

(** The state of [encode] when the main loop is entered. *)
Definition encode_init (inputArray : list Z) : estate :=
  let output :=
    map stringFromCharCode (filter (fun c => c <? 128) inputArray) in
  let basicLength := len output in
  mkE initialN 0 initialBias basicLength
    (if basicLength =? 0 then output else output ++ [delimiter]).

(** [encode] after [ucs2decode]: from the array of code points.  Every
    iteration of the main loop handles a code point, so the length of the
    array is fuel enough (lemma [encode_main_fuel]). *)
Definition encode_run (inputArray : list Z) : outcome estate :=
  encode_main (List.length inputArray) inputArray
    (len (filter (fun c => c <? 128) inputArray)) (encode_init inputArray).

Definition encode_points (inputArray : list Z) : outcome (list Z) :=
  st <- encode_run inputArray ;;
  Ok (e_output st).

Definition encode (input : list Z) : outcome (list Z) :=
  encode_points (ucs2decode input).

(** ** [mapDomain], [toUnicode] and [toASCII] *)

(** [s.split(sep)] for a one-character separator. *)
Fixpoint split (sep : Z) (s : list Z) : list (list Z) :=
  match s with
  | [] => [[]]
  | u :: rest =>
      if u =? sep then [] :: split sep rest
      else
        match split sep rest with
        | part :: parts => (u :: part) :: parts
        | [] => [[u]]
        end
  end.

(** [parts.join(sep)]. *)
Fixpoint join (sep : Z) (parts : list (list Z)) : list Z :=
  match parts with
  | [] => []
  | [part] => part
  | part :: rest => part ++ sep :: join sep rest
  end.

(** [map(array, callback)]: the [while (length--)] loop calls the callback
    on the last item first, so the first exception raised is that of the
    last item that throws. *)
Fixpoint map_array {A B : Type} (array : list A) (callback : A -> outcome B)
  : outcome (list B) :=
  match array with
  | [] => Ok []
  | item :: rest =>
      result <- map_array rest callback ;;
      value <- callback item ;;
      Ok (value :: result)
  end.

(** [domain.replace(regexSeparators, '\x2E')]. *)
Definition is_separator (u : Z) : bool :=
  (u =? 46) || (u =? 12290) || (u =? 65294) || (u =? 65377).

Definition replace_separators (domain : list Z) : list Z :=
  map (fun u => if is_separator u then 46 else u) domain.

Definition mapDomain (domain : list Z) (callback : list Z -> outcome (list Z))
  : outcome (list Z) :=
  let parts := split 64 domain in
  let result :=
    if Z.of_nat (List.length parts) >? 1 then nth 0 parts [] ++ [64] else [] in
  let domain :=
    if Z.of_nat (List.length parts) >? 1 then nth 1 parts [] else domain in
  let domain := replace_separators domain in
  let labels := split 46 domain in
  encoded <- map_array labels callback ;;
  Ok (result ++ join 46 encoded).

(** [regexPunycode.test(string)], with [regexPunycode = /^xn--/]. *)
Definition regexPunycode_test (s : list Z) : bool :=
  match s with
  | a :: b :: c :: d :: _ => (a =? 120) && (b =? 110) && (c =? 45) && (d =? 45)
  | _ => false
  end.

(** [regexNonASCII.test(string)], with [regexNonASCII = /[^\0-\x7F]/]. *)
Definition regexNonASCII_test (s : list Z) : bool :=
  existsb (fun u => negb ((0 <=? u) && (u <=? 127))) s.

(** [string.slice(4)]. *)
Definition slice4 (s : list Z) : list Z := skipn 4 s.

(** The callback that [toASCII] gives to [mapDomain]. *)
Definition toASCII_label (s : list Z) : outcome (list Z) :=
  if regexNonASCII_test s then
    r <- encode s ;; Ok (units "xn--" ++ r)
  else Ok s.

Definition toASCII (input : list Z) : outcome (list Z) :=
  mapDomain input toASCII_label.

Section ToUnicode.

(** [String.prototype.toLowerCase] is a built-in of the runtime whose
    case tables are not part of the repository: [toUnicode] is
    parameterised by it. *)
Variable toLowerCase : list Z -> list Z.

(** The callback that [toUnicode] gives to [mapDomain]. *)
Definition toUnicode_label (s : list Z) : outcome (list Z) :=
  if regexPunycode_test s then decode (toLowerCase (slice4 s))
  else Ok s.

Definition toUnicode (input : list Z) : outcome (list Z) :=
  mapDomain input toUnicode_label.

End ToUnicode.

(** The action of [toLowerCase] on a code unit of the ASCII range. *)
Definition lower_unit (u : Z) : Z :=
  if (65 <=? u) && (u <=? 90) then u + 32 else u.

(** [toLowerCase] on strings of ASCII characters, and an instance of the
    parameter of [toUnicode] that agrees with the runtime on them. *)
Definition toLowerCaseASCII (s : list Z) : list Z := map lower_unit s.

(** * Definitions used by the statements and the proofs *)

(** A lowercase letter or a decimal digit: the characters that
    [digitToBasic] produces with the flag [0]. *)
Definition is_lower_digit (c : Z) : bool :=
  ((97 <=? c) && (c <=? 122)) || ((48 <=? c) && (c <=? 57)).

(** The digits of [q] from the position [k] on. *)
Definition gvli (q k bias : Z) : list Z := emit_loop (emit_fuel q) q k bias.

(** The fuel that [emit_loop] needs for [q]. *)
Definition emit_need (q : Z) : nat :=
  if q <=? 0 then 1%nat else S (S (Z.to_nat (Z.log2 q))).

(** Counting the code points below [n], and equal to [n]. *)
Definition count_lt (n : Z) (l : list Z) : Z :=
  len (filter (fun c => c <? n) l).

Definition count_eq (n : Z) (l : list Z) : Z :=
  len (filter (fun c => c =? n) l).

(** The last step of the main loop of [encode] on an array [A ++ x :: B]
    whose code point [x] is handled last, from the state [st] in which the
    main loop on [A ++ B] ends: one more integer is written. *)
Definition finish (A B : list Z) (x bl : Z) (st : estate) : outcome estate :=
  let q := e_delta st + (x - e_n st) * (e_handled st + 1) + len A in
  if q >? maxInt then error overflow
  else
    Ok (mkE (x + 1) (len B + 1)
          (adapt q (e_handled st + 1) (e_handled st =? bl))
          (e_handled st + 1)
          (e_output st ++ emit q (e_bias st))).

(** The basic code points of an array. *)
Definition basic_of (cps : list Z) : list Z := filter (fun c => c <? 128) cps.

(** The state of [decode] when its main loop is entered. *)
Definition decode_init (basic : list Z) : dstate :=
  mkD 0 initialN initialBias basic.

(** What holds of the state of [decode] between two integers: [n] is the
    last code point inserted, at the index [i - 1]; no code point of the
    output exceeds it, and those from the index [i] on are below it. *)
Record DInv (S : dstate) : Prop := mkDInv {
  dinv_n : 128 <= d_n S;
  dinv_i : 0 <= d_i S <= len (d_output S);
  dinv_le : Forall (fun c => c <= d_n S) (d_output S);
  dinv_after :
    Forall (fun c => c < d_n S) (skipn (Z.to_nat (d_i S)) (d_output S));
  dinv_last :
    (d_i S = 0 /\ d_n S = 128)
    \/ (1 <= d_i S /\ nth (Z.to_nat (d_i S - 1)) (d_output S) 0 = d_n S)
}.

(** The state [st] in which the main loop of [encode] ends on an array,
    and the state [S] of [decode] once it has rebuilt that array: [delta]
    is the distance from the decoder's [<n, i>] to [<e_n st, 0>]. *)
Definition Rel (bl : Z) (st : estate) (S : dstate) : Prop :=
  e_bias st = d_bias S
  /\ e_handled st = len (d_output S)
  /\ e_delta st = (e_n st - d_n S) * (len (d_output S) + 1) - d_i S
  /\ (d_i S =? 0) = (e_handled st =? bl)
  /\ bl <= e_handled st.

(** The integer that [encode] writes for the code point [x] handled last,
    from the state [st'] in which the main loop ends on the array without
    [x], where [A] is the part of the array before [x]. *)
Definition insert_q (A : list Z) (x : Z) (st' : estate) : Z :=
  e_delta st' + (x - e_n st') * (e_handled st' + 1) + len A.

(** The state of [decode] once it has read that integer from the state
    [S']. *)
Definition insert_state (A B : list Z) (x : Z) (st' : estate) (S' : dstate)
  : dstate :=
  mkD (len A + 1) x
    (adapt (insert_q A x st') (len (A ++ B) + 1) (d_i S' =? 0)) (A ++ x :: B).

(** Digits in the form in which [encode] writes them. *)
Definition lower_digits (digits : list Z) : Prop :=
  Forall (fun c => is_lower_digit c = true) digits.

(** The reading of the prefix test in which letter case is ignored: the
    first four characters are [x] or [X], [n] or [N], [-] and [-]. *)
Definition prefix_xn_any_case (s : list Z) : bool :=
  match s with
  | a :: b :: c :: d :: _ =>
      (lower_unit a =? 120) && (lower_unit b =? 110) && (c =? 45) && (d =? 45)
  | _ => false
  end.

(** The characters of the input of [decode] after its last delimiter (the
    whole input when it has none): the digits. *)
Definition after_last_delimiter (input : list Z) : list Z :=
  skipn (Z.to_nat (lastIndexOf input delimiter + 1)) input.

(** Whether a code unit is a high surrogate, a low surrogate. *)
Definition is_high_surrogate (u : Z) : bool := (55296 <=? u) && (u <=? 56319).

Definition is_low_surrogate (u : Z) : bool := (56320 <=? u) && (u <=? 57343).

(** A string without lone surrogates: every high surrogate is followed by
    a low surrogate, and every low surrogate follows a high one. *)
Fixpoint well_paired (s : list Z) : bool :=
  match s with
  | [] => true
  | u :: rest =>
      if is_high_surrogate u then
        match rest with
        | lo :: rest' => is_low_surrogate lo && well_paired rest'
        | [] => false
        end
      else negb (is_low_surrogate u) && well_paired rest
  end.

(** A string of ASCII characters. *)
Definition is_ascii (s : list Z) : Prop := Forall (fun u => 0 <= u <= 127) s.

(** The text that [mapDomain] keeps in front of its result, the text it
    splits into labels, and the labels. *)
Definition local_part (input : list Z) : list Z :=
  let parts := split 64 input in
  if Z.of_nat (List.length parts) >? 1 then nth 0 parts [] ++ [64] else [].

Definition domain_part (input : list Z) : list Z :=
  let parts := split 64 input in
  if Z.of_nat (List.length parts) >? 1 then nth 1 parts [] else input.

Definition domain_labels (input : list Z) : list (list Z) :=
  split 46 (replace_separators (domain_part input)).

(** A string without separators and without [@]. *)
Definition plain_label (s : list Z) : Prop :=
  forall u, In u s -> is_separator u = false /\ u <> 64.

(** The weight [w] at the position [k]: while the thresholds are [tMin],
    [w] is a power of [base - tMin]; once a threshold is 18 or more, every
    later one is. *)
Definition weight_ok (w k bias : Z) : Prop :=
  bias + 18 <= k
  \/ exists j : nat, k = 36 * (Z.of_nat j + 1) /\ w = 35 ^ Z.of_nat j.

(** ** Definitions used by the further properties *)

(** Whether no surrogate pair is spelled out by an array of code points:
    no high surrogate is followed by a low one. *)
Fixpoint no_split_pair (codePoints : list Z) : bool :=
  match codePoints with
  | [] => true
  | c :: rest =>
      match rest with
      | d :: _ => negb (is_high_surrogate c && is_low_surrogate d)
      | [] => true
      end && no_split_pair rest
  end.

(** An ASCII letter or decimal digit. *)
Definition is_alphanumeric (c : Z) : Prop :=
  48 <= c <= 57 \/ 65 <= c <= 90 \/ 97 <= c <= 122.

(** What [toASCII] makes of a label. *)
Definition ace_label (label : list Z) : list Z :=
  if regexNonASCII_test label then
    units "xn--" ++ match encode label with Ok p => p | _ => [] end
  else label.

(** Case analysis on the comparisons of a goal. *)
Ltac split_tests :=
  repeat (match goal with
          | |- context [?a >=? ?b] => destruct (Z.geb_spec a b)
          | |- context [?a <? ?b] => destruct (Z.ltb_spec a b)
          | |- context [?a <=? ?b] => destruct (Z.leb_spec a b)
          end; cbn [andb orb negb]; try (exfalso; lia)).

(** * Properties *)

(** ** Evaluation of [decode] on inputs named by the specification *)



(** ** Splitting and joining *)

Lemma split_not_nil : forall sep s, split sep s <> [].
Proof.
  intros sep s; destruct s as [|u r]; simpl; [discriminate|].
  destruct (u =? sep); [discriminate|].
  destruct (split sep r); discriminate.
Qed.

Lemma split_absent : forall sep s, ~ In sep s -> split sep s = [s].
Proof.
  intros sep s; induction s as [|u r IH]; simpl; intros H; [reflexivity|].
  destruct (Z.eqb_spec u sep) as [->|Hne]; [exfalso; apply H; now left|].
  rewrite IH; [reflexivity|]. intros Hin; apply H; now right.
Qed.

Lemma split_app : forall sep a r,
  ~ In sep a -> split sep (a ++ sep :: r) = a :: split sep r.
Proof.
  intros sep a r; induction a as [|u a IH]; simpl; intros H.
  - now rewrite Z.eqb_refl.
  - destruct (Z.eqb_spec u sep) as [->|Hne]; [exfalso; apply H; now left|].
    rewrite IH; [reflexivity|]. intros Hin; apply H; now right.
Qed.

Lemma split_parts_absent : forall sep s,
  Forall (fun part => ~ In sep part) (split sep s).
Proof.
  intros sep s; induction s as [|u r IH]; simpl.
  - constructor; [intros []|constructor].
  - destruct (Z.eqb_spec u sep) as [->|Hne].
    + constructor; [intros []|exact IH].
    + destruct (split sep r) as [|part parts] eqn:E.
      * constructor; [|constructor]. intros [H|[]]; congruence.
      * inversion IH as [|? ? Hp Hps]; subst. constructor; [|exact Hps].
        intros [H|H]; [congruence|now apply Hp].
Qed.

Lemma join_split : forall sep s, join sep (split sep s) = s.
Proof.
  intros sep s; induction s as [|u r IH]; simpl; [reflexivity|].
  destruct (Z.eqb_spec u sep) as [->|Hne].
  - pose proof (split_not_nil sep r) as Hn.
    destruct (split sep r) as [|p ps] eqn:E; [congruence|].
    simpl. simpl in IH. now rewrite IH.
  - destruct (split sep r) as [|p ps] eqn:E.
    + exfalso; eapply split_not_nil; eauto.
    + simpl in *. destruct ps; simpl in *; now rewrite <- IH.
Qed.

Lemma split_join : forall sep parts,
  parts <> [] -> Forall (fun part => ~ In sep part) parts ->
  split sep (join sep parts) = parts.
Proof.
  intros sep parts; induction parts as [|p ps IH]; intros Hn HF; [congruence|].
  inversion HF as [|? ? Hp Hps]; subst.
  destruct ps as [|p' ps'].
  - simpl. now apply split_absent.
  - change (join sep (p :: p' :: ps')) with (p ++ sep :: join sep (p' :: ps')).
    rewrite split_app by exact Hp. rewrite IH; [reflexivity|discriminate|exact Hps].
Qed.

Lemma join_absent : forall sep c parts,
  c <> sep -> Forall (fun part => ~ In c part) parts -> ~ In c (join sep parts).
Proof.
  intros sep c parts Hc; induction parts as [|p ps IH]; intros HF; [intros []|].
  inversion HF as [|? ? Hp Hps]; subst.
  destruct ps as [|p' ps']; [exact Hp|].
  change (join sep (p :: p' :: ps')) with (p ++ sep :: join sep (p' :: ps')).
  intros Hin. apply in_app_or in Hin. destruct Hin as [Hin|[Heq|Hin]].
  - now apply Hp.
  - congruence.
  - now apply IH.
Qed.

(** [map_array] with a callback that returns on every item. *)
Lemma map_array_ok : forall (A B : Type) (f : A -> outcome B) (g : A -> B) l,
  Forall (fun x => f x = Ok (g x)) l -> map_array l f = Ok (map g l).
Proof.
  intros A B f g l; induction l as [|x l IH]; intros HF; [reflexivity|].
  inversion HF as [|? ? Hx Hl]; subst. simpl. rewrite IH by exact Hl.
  simpl. rewrite Hx. reflexivity.
Qed.

Lemma map_array_id : forall (f : list Z -> outcome (list Z)) l,
  Forall (fun x => f x = Ok x) l -> map_array l f = Ok l.
Proof.
  intros f l HF. rewrite (map_array_ok _ _ f (fun x => x)) by exact HF.
  now rewrite map_id.
Qed.

(** [mapDomain] on an input with no [@], with one, and with two or more. *)
Lemma mapDomain_no_at : forall domain callback,
  ~ In 64 domain ->
  mapDomain domain callback =
  (encoded <- map_array (split 46 (replace_separators domain)) callback ;;
   Ok (join 46 encoded)).
Proof.
  intros domain callback H. unfold mapDomain. rewrite (split_absent 64 domain H).
  reflexivity.
Qed.

Lemma mapDomain_at : forall local rest callback,
  ~ In 64 local ->
  mapDomain (local ++ 64 :: rest) callback =
  (encoded <- map_array
                (split 46 (replace_separators (nth 0 (split 64 rest) [])))
                callback ;;
   Ok ((local ++ [64]) ++ join 46 encoded)).
Proof.
  intros local rest callback H. unfold mapDomain. rewrite (split_app 64 local rest H).
  pose proof (split_not_nil 64 rest) as Hn.
  destruct (split 64 rest) as [|p ps] eqn:E; [congruence|].
  replace (Z.of_nat (List.length (local :: p :: ps)) >? 1) with true.
  - reflexivity.
  - symmetry. apply Z.gtb_lt. simpl List.length. lia.
Qed.

(** ** Inputs with several [@] *)

Lemma mapDomain_second_at : forall local middle rest callback,
  ~ In 64 local -> ~ In 64 middle ->
  mapDomain (local ++ 64 :: middle ++ 64 :: rest) callback =
  (encoded <- map_array (split 46 (replace_separators middle)) callback ;;
   Ok (local ++ 64 :: join 46 encoded)).
Proof.
  intros local middle rest callback Hl Hm.
  rewrite mapDomain_at by exact Hl.
  rewrite (split_app 64 middle rest Hm). cbn [nth].
  destruct (map_array _ callback); cbn [bind]; try reflexivity.
  now rewrite <- app_assoc.
Qed.

(** C10: on an input with two or more [@], [mapDomain], and so [toASCII]
    and [toUnicode], keeps the text before the first [@] and the [@],
    processes the labels of the text between the first and the second [@]
    only, and drops the second [@] and all that follows it. *)
Theorem mapDomain_two_at : forall local middle rest,
  ~ In 64 local -> ~ In 64 middle ->
  (forall callback,
     mapDomain (local ++ 64 :: middle ++ 64 :: rest) callback =
     (encoded <- map_array (split 46 (replace_separators middle)) callback ;;
      Ok (local ++ 64 :: join 46 encoded)))
  /\ toASCII (local ++ 64 :: middle ++ 64 :: rest) =
     (encoded <- map_array (split 46 (replace_separators middle))
                   toASCII_label ;;
      Ok (local ++ 64 :: join 46 encoded))
  /\ (forall toLowerCase,
        toUnicode toLowerCase (local ++ 64 :: middle ++ 64 :: rest) =
        (encoded <- map_array (split 46 (replace_separators middle))
                      (toUnicode_label toLowerCase) ;;
         Ok (local ++ 64 :: join 46 encoded))).
Proof.
  intros local middle rest Hl Hm. split; [|split].
  - intros callback. now apply mapDomain_second_at.
  - unfold toASCII. now apply mapDomain_second_at.
  - intros toLowerCase. unfold toUnicode. now apply mapDomain_second_at.
Qed.

Lemma mapDomain_two_at_witness :
  ~ In 64 (units "a") /\ ~ In 64 (units "b.c") /\
  mapDomain (units "a@b.c@d@e") (fun s => Ok (s ++ units "!")) =
  Ok (units "a@b!.c!")
  /\ toASCII (units "a@b.c@d@e") = Ok (units "a@b.c").
Proof.
  assert (H1 : ~ In 64 (units "a")) by (simpl; intuition discriminate).
  assert (H2 : ~ In 64 (units "b.c")) by (simpl; intuition discriminate).
  split; [exact H1|split; [exact H2|split]].
  - exact (proj1 (mapDomain_two_at (units "a") (units "b.c") (units "d@e") H1 H2)
             (fun s => Ok (s ++ units "!"))).
  - exact (proj1 (proj2 (mapDomain_two_at (units "a") (units "b.c") (units "d@e")
                           H1 H2))).
Defined.

(** The same for the two clients of [mapDomain]. *)
Corollary toASCII_two_at : forall local middle rest,
  ~ In 64 local -> ~ In 64 middle ->
  toASCII (local ++ 64 :: middle ++ 64 :: rest) = toASCII (local ++ 64 :: middle).
Proof.
  intros local middle rest Hl Hm. unfold toASCII.
  rewrite !mapDomain_at by assumption.
  rewrite (split_app 64 middle rest Hm), (split_absent 64 middle Hm).
  reflexivity.
Qed.

(** C5: on ["a@b@c"] the text after the second [@] is lost: [toASCII]
    returns ["a@b"], where the processing of the entire remainder after
    the first [@] would return ["a@b@c"]. *)
Theorem toASCII_drops_after_second_at :
  toASCII (units "a@b@c") = Ok (units "a@b")
  /\ toUnicode toLowerCaseASCII (units "a@b@c") = Ok (units "a@b")
  /\ mapDomain (units "a@b@c") (fun s => Ok s) = Ok (units "a@b").
Proof. vm_compute. repeat split; reflexivity. Qed.

(** ** The prefix test of [toUnicode] *)

Lemma regexPunycode_test_true : forall s,
  regexPunycode_test s = true <-> exists r, s = units "xn--" ++ r.
Proof.
  intros s; split.
  - destruct s as [|a [|b [|c [|d r]]]]; simpl; try discriminate.
    intros H. apply andb_prop in H; destruct H as [H Hd].
    apply andb_prop in H; destruct H as [H Hc].
    apply andb_prop in H; destruct H as [Ha Hb].
    apply Z.eqb_eq in Ha, Hb, Hc, Hd. subst. exists r. reflexivity.
  - intros [r ->]. reflexivity.
Qed.

(** C3, as the code has it: the prefix test of [toUnicode] is sensitive to
    case.  A label that starts with the lowercase ["xn--"] is replaced by
    [decode] of its lowercased remainder; every other label, a label that
    starts with ["XN--"] or ["Xn--"] among them, is left unchanged. *)
Theorem toUnicode_label_prefix : forall toLowerCase input,
  toUnicode toLowerCase input = mapDomain input (toUnicode_label toLowerCase)
  /\ (forall r, toUnicode_label toLowerCase (units "xn--" ++ r)
                = decode (toLowerCase r))
  /\ (forall s, (forall r, s <> units "xn--" ++ r) ->
                toUnicode_label toLowerCase s = Ok s).
Proof.
  intros toLowerCase input. split; [reflexivity|split].
  - intros r. reflexivity.
  - intros s Hs. unfold toUnicode_label.
    destruct (regexPunycode_test s) eqn:E; [|reflexivity].
    apply regexPunycode_test_true in E. destruct E as [r Hr].
    exfalso. exact (Hs r Hr).
Qed.

(** The label ["XN--a"] has the prefix in upper case.  It is left
    unchanged, while [decode] of its lowercased remainder is the one
    character U+0080. *)
Lemma toUnicode_upper_prefix_unchanged :
  prefix_xn_any_case (units "XN--a") = true
  /\ toUnicode toLowerCaseASCII (units "XN--a") = Ok (units "XN--a")
  /\ decode (toLowerCaseASCII (slice4 (units "XN--a"))) = Ok [128]
  /\ toUnicode toLowerCaseASCII (units "XN--a")
     <> decode (toLowerCaseASCII (slice4 (units "XN--a"))).
Proof.
  vm_compute. repeat split; try reflexivity. discriminate.
Qed.

Lemma toUnicode_label_prefix_witness :
  (forall r, units "XN--a" <> units "xn--" ++ r)
  /\ toUnicode_label toLowerCaseASCII (units "XN--a") = Ok (units "XN--a").
Proof.
  assert (H : forall r, units "XN--a" <> units "xn--" ++ r)
    by (intros r; discriminate).
  split; [exact H|].
  exact (proj2 (proj2 (toUnicode_label_prefix toLowerCaseASCII []))
           (units "XN--a") H).
Defined.

(** ** Digits and thresholds *)

Lemma threshold_range : forall k bias, 1 <= threshold k bias <= 26.
Proof.
  intros k bias. unfold threshold, tMin, tMax.
  destruct (Z.leb_spec k bias); [lia|].
  destruct (Z.geb_spec k (bias + 26)); lia.
Qed.

Lemma digitToBasic_lower : forall d,
  digitToBasic d 0 = if d <? 26 then d + 97 else d + 22.
Proof.
  intros d. unfold digitToBasic. simpl Z.shiftl.
  destruct (d <? 26); lia.
Qed.

Lemma stringFromCharCode_id : forall x,
  0 <= x < 65536 -> stringFromCharCode x = x.
Proof. intros x H. unfold stringFromCharCode. now apply Z.mod_small. Qed.

Lemma digit_char : forall d, 0 <= d < 36 ->
  is_lower_digit (stringFromCharCode (digitToBasic d 0)) = true.
Proof.
  intros d H. rewrite digitToBasic_lower. unfold is_lower_digit.
  destruct (Z.ltb_spec d 26); rewrite stringFromCharCode_id by lia.
  - apply orb_true_iff; left. apply andb_true_iff; split; apply Z.leb_le; lia.
  - apply orb_true_iff; right. apply andb_true_iff; split; apply Z.leb_le; lia.
Qed.

Lemma is_lower_digit_cases : forall c,
  is_lower_digit c = true -> 97 <= c <= 122 \/ 48 <= c <= 57.
Proof.
  intros c H. unfold is_lower_digit in H.
  apply orb_true_iff in H. destruct H as [H|H];
    apply andb_true_iff in H; destruct H as [H1 H2];
    apply Z.leb_le in H1, H2; lia.
Qed.

Lemma basicToDigit_lower : forall c,
  is_lower_digit c = true ->
  basicToDigit c = (if c <? 58 then c - 22 else c - 97)
  /\ 0 <= basicToDigit c < 36.
Proof.
  intros c H. apply is_lower_digit_cases in H. unfold basicToDigit, base.
  destruct H as [H|H].
  - replace ((c >=? 48) && (c <? 58)) with false
      by (symmetry; apply andb_false_iff; right; apply Z.ltb_ge; lia).
    replace ((c >=? 65) && (c <? 91)) with false
      by (symmetry; apply andb_false_iff; right; apply Z.ltb_ge; lia).
    replace ((c >=? 97) && (c <? 123)) with true
      by (symmetry; apply andb_true_iff; split;
          [apply Z.geb_le|apply Z.ltb_lt]; lia).
    destruct (Z.ltb_spec c 58); lia.
  - replace ((c >=? 48) && (c <? 58)) with true
      by (symmetry; apply andb_true_iff; split;
          [apply Z.geb_le|apply Z.ltb_lt]; lia).
    destruct (Z.ltb_spec c 58); lia.
Qed.

Lemma digit_roundtrip : forall d, 0 <= d < 36 ->
  basicToDigit (stringFromCharCode (digitToBasic d 0)) = d.
Proof.
  intros d H. pose proof (digit_char d H) as Hc.
  destruct (basicToDigit_lower _ Hc) as [E _]. rewrite E. clear E Hc.
  rewrite digitToBasic_lower.
  destruct (Z.ltb_spec d 26); rewrite stringFromCharCode_id by lia;
    match goal with |- context [?a <? 58] => destruct (Z.ltb_spec a 58) end; lia.
Qed.

Lemma char_roundtrip : forall c, is_lower_digit c = true ->
  stringFromCharCode (digitToBasic (basicToDigit c) 0) = c.
Proof.
  intros c H. destruct (basicToDigit_lower c H) as [E _]. rewrite E.
  apply is_lower_digit_cases in H. rewrite digitToBasic_lower.
  destruct (Z.ltb_spec c 58);
    match goal with |- context [?a <? 26] => destruct (Z.ltb_spec a 26) end;
    rewrite stringFromCharCode_id; lia.
Qed.

Lemma is_lower_digit_not_delimiter : forall c,
  is_lower_digit c = true -> c <> delimiter.
Proof. intros c H. apply is_lower_digit_cases in H. unfold delimiter. lia. Qed.

(** ** The digits of a generalized variable-length integer *)

Lemma emit_need_fuel : forall q, (emit_need q <= emit_fuel q)%nat.
Proof.
  intros q. unfold emit_need, emit_fuel. destruct (q <=? 0); lia.
Qed.

Lemma quotient_halves : forall q t,
  1 <= t <= 26 -> t <= q -> 0 <= (q - t) / (base - t) /\ 2 * ((q - t) / (base - t)) <= q.
Proof.
  intros q t Ht Hq. unfold base.
  assert (H0 : 0 <= (q - t) / (36 - t)) by (apply Z.div_pos; lia).
  pose proof (Z.mul_div_le (q - t) (36 - t) ltac:(lia)). split; [exact H0|nia].
Qed.

Lemma emit_need_step : forall q t f,
  1 <= t <= 26 -> t <= q -> (emit_need q <= S f)%nat ->
  (emit_need ((q - t) / (base - t)) <= f)%nat.
Proof.
  intros q t f Ht Hq Hf. destruct (quotient_halves q t Ht Hq) as [H0 H2].
  unfold emit_need in *.
  destruct (Z.leb_spec q 0); [lia|].
  destruct (Z.leb_spec ((q - t) / (base - t)) 0); [lia|].
  set (q' := (q - t) / (base - t)) in *.
  assert (HL : Z.log2 (2 * q') <= Z.log2 q) by (apply Z.log2_le_mono; lia).
  rewrite Z.log2_double in HL by lia.
  pose proof (Z.log2_nonneg q'). lia.
Qed.

Lemma emit_loop_more : forall f q k bias,
  (emit_need q <= f)%nat -> emit_loop f q k bias = emit_loop (S f) q k bias.
Proof.
  induction f as [|f IH]; intros q k bias Hf.
  - unfold emit_need in Hf. destruct (q <=? 0); lia.
  - change (emit_loop (S (S f)) q k bias) with
      (let t := threshold k bias in
       if q <? t then [stringFromCharCode (digitToBasic q 0)]
       else stringFromCharCode (digitToBasic (t + (q - t) mod (base - t)) 0)
              :: emit_loop (S f) ((q - t) / (base - t)) (k + base) bias).
    change (emit_loop (S f) q k bias) with
      (let t := threshold k bias in
       if q <? t then [stringFromCharCode (digitToBasic q 0)]
       else stringFromCharCode (digitToBasic (t + (q - t) mod (base - t)) 0)
              :: emit_loop f ((q - t) / (base - t)) (k + base) bias).
    cbv zeta. pose proof (threshold_range k bias) as Ht.
    destruct (Z.ltb_spec q (threshold k bias)); [reflexivity|].
    f_equal. apply IH. now apply emit_need_step.
Qed.

Lemma emit_loop_enough : forall f q k bias,
  (emit_need q <= f)%nat -> emit_loop f q k bias = gvli q k bias.
Proof.
  intros f q k bias Hf. unfold gvli.
  pose proof (emit_need_fuel q) as Hq.
  assert (G : forall d g, (emit_need q <= g)%nat ->
              emit_loop (d + g) q k bias = emit_loop g q k bias).
  { induction d as [|d IHd]; intros g Hg; [reflexivity|].
    simpl Nat.add. rewrite <- emit_loop_more by lia. now apply IHd. }
  destruct (Nat.le_ge_cases f (emit_fuel q)) as [Hle|Hge].
  - replace (emit_fuel q) with ((emit_fuel q - f) + f)%nat by lia.
    symmetry. now apply G.
  - replace f with ((f - emit_fuel q) + emit_fuel q)%nat by lia.
    now apply G.
Qed.

(** The loop of [emit] does what the source loop does, whatever [q]: fuel
    never runs out. *)
Lemma emit_eq : forall q k bias,
  gvli q k bias =
  let t := threshold k bias in
  if q <? t then [stringFromCharCode (digitToBasic q 0)]
  else stringFromCharCode (digitToBasic (t + (q - t) mod (base - t)) 0)
         :: gvli ((q - t) / (base - t)) (k + base) bias.
Proof.
  intros q k bias. unfold gvli at 1. unfold emit_fuel.
  change (emit_loop (S (S (Z.to_nat (Z.log2 q)))) q k bias) with
    (let t := threshold k bias in
     if q <? t then [stringFromCharCode (digitToBasic q 0)]
     else stringFromCharCode (digitToBasic (t + (q - t) mod (base - t)) 0)
            :: emit_loop (S (Z.to_nat (Z.log2 q))) ((q - t) / (base - t))
                 (k + base) bias).
  cbv zeta. pose proof (threshold_range k bias) as Ht.
  destruct (Z.ltb_spec q (threshold k bias)); [reflexivity|].
  f_equal. apply emit_loop_enough.
  apply emit_need_step; [exact Ht|lia|]. unfold emit_need.
  destruct (q <=? 0); lia.
Qed.

Lemma emit_gvli : forall q bias, emit q bias = gvli q base bias.
Proof. reflexivity. Qed.

Lemma gvli_lower_digit : forall f q k bias,
  0 <= q -> (emit_need q <= f)%nat ->
  Forall (fun c => is_lower_digit c = true) (gvli q k bias).
Proof.
  induction f as [|f IH]; intros q k bias Hq Hf.
  - unfold emit_need in Hf. destruct (q <=? 0); lia.
  - rewrite emit_eq. cbv zeta. pose proof (threshold_range k bias) as Ht.
    destruct (Z.ltb_spec q (threshold k bias)).
    + constructor; [|constructor]. apply digit_char. lia.
    + constructor.
      * apply digit_char.
        pose proof (Z.mod_pos_bound (q - threshold k bias)
                      (base - threshold k bias)) as Hm. unfold base in *. lia.
      * apply IH.
        -- apply quotient_halves; lia.
        -- apply emit_need_step; [exact Ht|lia|exact Hf].
Qed.

Lemma gvli_digits : forall q k bias,
  0 <= q -> Forall (fun c => is_lower_digit c = true) (gvli q k bias).
Proof.
  intros q k bias Hq. apply (gvli_lower_digit (emit_need q)); [exact Hq|lia].
Qed.

Lemma gvli_not_nil : forall q k bias, gvli q k bias <> [].
Proof.
  intros q k bias. rewrite emit_eq. cbv zeta.
  destruct (q <? threshold k bias); discriminate.
Qed.

(** ** Reading a generalized variable-length integer *)

Lemma decode_loop_within : forall c rest oldi w k st,
  decode_loop (c :: rest) (Within oldi w k) st =
  let digit := basicToDigit c in
  if digit >=? base then error invalid_input
  else if digit >? (maxInt - d_i st) / w then error overflow
  else
    let i := d_i st + digit * w in
    let t := threshold k (d_bias st) in
    if digit <? t then
      st' <- close_integer st oldi i ;; decode_loop rest Between st'
    else if w >? maxInt / (base - t) then error overflow
    else decode_loop rest (Within oldi (w * (base - t)) (k + base))
           (mkD i (d_n st) (d_bias st) (d_output st)).
Proof. reflexivity. Qed.

Lemma decode_loop_between : forall c rest st,
  decode_loop (c :: rest) Between st =
  decode_loop (c :: rest) (Within (d_i st) 1 base) st.
Proof. reflexivity. Qed.

Lemma basicToDigit_range : forall c, 0 <= basicToDigit c <= 36.
Proof.
  intros c. unfold basicToDigit, base.
  destruct ((c >=? 48) && (c <? 58)) eqn:E1.
  - apply andb_prop in E1. destruct E1 as [A B].
    apply Z.geb_le in A. apply Z.ltb_lt in B. lia.
  - destruct ((c >=? 65) && (c <? 91)) eqn:E2.
    + apply andb_prop in E2. destruct E2 as [A B].
      apply Z.geb_le in A. apply Z.ltb_lt in B. lia.
    + destruct ((c >=? 97) && (c <? 123)) eqn:E3; [|lia].
      apply andb_prop in E3. destruct E3 as [A B].
      apply Z.geb_le in A. apply Z.ltb_lt in B. lia.
Qed.

Lemma close_integer_state : forall i n bias output oldi x st,
  d_n st = n -> d_output st = output ->
  close_integer (mkD i n bias output) oldi x = close_integer st oldi x.
Proof. intros i n bias output oldi x st <- <-. reflexivity. Qed.

(** The decoder reads back the digits of [q]: from the state [st], within
    an integer at the position [k] with the weight [w], it reaches the end
    of the integer with [i] grown by [q * w], unless it throws
    [overflow]. *)
Lemma read_gvli : forall f q k w oldi st rest,
  0 <= q -> 1 <= w -> (emit_need q <= f)%nat ->
  decode_loop (gvli q k (d_bias st) ++ rest) (Within oldi w k) st
  = Throw (CodecError overflow)
  \/ decode_loop (gvli q k (d_bias st) ++ rest) (Within oldi w k) st
     = (st' <- close_integer st oldi (d_i st + q * w) ;;
        decode_loop rest Between st').
Proof.
  induction f as [|f IH]; intros q k w oldi st rest Hq Hw Hf.
  - unfold emit_need in Hf. destruct (q <=? 0); lia.
  - rewrite emit_eq. cbv zeta.
    pose proof (threshold_range k (d_bias st)) as Ht.
    destruct (Z.ltb_spec q (threshold k (d_bias st))) as [Hlt|Hge].
    + cbn [app]. rewrite decode_loop_within. cbv zeta.
      rewrite digit_roundtrip by lia.
      replace (q >=? base) with false
        by (rewrite Z.geb_leb; symmetry; apply Z.leb_gt; unfold base; lia).
      destruct (q >? (maxInt - d_i st) / w); [now left|].
      replace (q <? threshold k (d_bias st)) with true
        by (symmetry; now apply Z.ltb_lt).
      now right.
    + set (t := threshold k (d_bias st)) in *.
      set (dg := t + (q - t) mod (base - t)).
      assert (Hm : 0 <= (q - t) mod (base - t) < base - t)
        by (apply Z.mod_pos_bound; unfold base; lia).
      assert (Hdg : t <= dg < 36) by (unfold dg, base in *; lia).
      cbn [app]. rewrite decode_loop_within. cbv zeta.
      rewrite digit_roundtrip by lia. fold t.
      replace (dg >=? base) with false
        by (rewrite Z.geb_leb; symmetry; apply Z.leb_gt; unfold base; lia).
      destruct (dg >? (maxInt - d_i st) / w); [now left|].
      replace (dg <? t) with false by (symmetry; apply Z.ltb_ge; lia).
      destruct (w >? maxInt / (base - t)); [now left|].
      set (st' := mkD (d_i st + dg * w) (d_n st) (d_bias st) (d_output st)).
      assert (Hq' := quotient_halves q t Ht Hge).
      destruct (IH ((q - t) / (base - t)) (k + base) (w * (base - t)) oldi st' rest)
        as [E|E].
      * lia.
      * unfold base; nia.
      * now apply emit_need_step.
      * left. exact E.
      * right. change (d_bias st') with (d_bias st) in E. rewrite E.
        unfold st' at 1. rewrite (close_integer_state _ _ _ _ _ _ st) by reflexivity.
        replace (d_i st' + (q - t) / (base - t) * (w * (base - t)))
          with (d_i st + q * w); [reflexivity|].
        unfold st'; simpl d_i. unfold dg.
        pose proof (Z.div_mod (q - t) (base - t) ltac:(unfold base; lia)) as Hdm.
        nia.
Qed.

(** The same from the head of the outer loop. *)
Lemma read_emit : forall q st rest,
  0 <= q ->
  decode_loop (emit q (d_bias st) ++ rest) Between st
  = Throw (CodecError overflow)
  \/ decode_loop (emit q (d_bias st) ++ rest) Between st
     = (st' <- close_integer st (d_i st) (d_i st + q) ;;
        decode_loop rest Between st').
Proof.
  intros q st rest Hq. rewrite emit_gvli.
  pose proof (gvli_not_nil q base (d_bias st)) as Hn.
  pose proof (read_gvli (emit_need q) q base 1 (d_i st) st rest Hq
                ltac:(lia) ltac:(lia)) as H.
  destruct (gvli q base (d_bias st)) as [|c r] eqn:E; [congruence|].
  cbn [app] in *. rewrite decode_loop_between.
  rewrite Z.mul_1_r in H. exact H.
Qed.

(** Conversely, a run of the decoder that returns has read a first
    integer [q], whose digits, when they are lowercase letters and decimal
    digits, are the digits that the encoder writes for [q]. *)
Lemma read_integer : forall input oldi w k st S,
  1 <= w -> 0 <= d_i st ->
  decode_loop input (Within oldi w k) st = Ok S ->
  exists q ds rest st1,
    input = ds ++ rest /\ (List.length rest < List.length input)%nat
    /\ 0 <= q /\ d_i st + q * w <= maxInt
    /\ close_integer st oldi (d_i st + q * w) = Ok st1
    /\ decode_loop rest Between st1 = Ok S
    /\ (Forall (fun c => is_lower_digit c = true) ds ->
        ds = gvli q k (d_bias st)).
Proof.
  induction input as [|c r IH]; intros oldi w k st S Hw Hi H.
  - discriminate.
  - rewrite decode_loop_within in H. cbv zeta in H.
    pose proof (basicToDigit_range c) as Hd.
    pose proof (threshold_range k (d_bias st)) as Ht.
    set (digit := basicToDigit c) in *. set (t := threshold k (d_bias st)) in *.
    destruct (digit >=? base) eqn:E1; [discriminate|].
    destruct (Z.gtb_spec digit ((maxInt - d_i st) / w)) as [|E2]; [discriminate|].
    assert (Hfit : d_i st + digit * w <= maxInt).
    { pose proof (Z.mul_div_le (maxInt - d_i st) w ltac:(lia)). nia. }
    assert (Hd36 : digit < 36).
    { destruct (Z.geb_spec digit base); [discriminate|unfold base in *; lia]. }
    destruct (Z.ltb_spec digit t) as [Hlt|Hge].
    + destruct (close_integer st oldi (d_i st + digit * w)) as [st1| |] eqn:Ec;
        try discriminate.
      exists digit, [c], r, st1. simpl in H. repeat split; try lia; try assumption.
      * simpl. lia.
      * intros HF. inversion HF as [|? ? Hc _]; subst.
        rewrite emit_eq. cbv zeta. fold t.
        replace (digit <? t) with true by (symmetry; now apply Z.ltb_lt).
        unfold digit. now rewrite char_roundtrip.
    + destruct (Z.gtb_spec w (maxInt / (base - t))) as [|E3]; [discriminate|].
      apply IH in H; [|unfold base; nia|simpl; nia].
      destruct H as (q' & ds & rest & st1 & Hin & Hlen & Hq' & Hfit' & Hc & Hr & Hcan).
      simpl d_i in *. simpl d_bias in *.
      exists (digit + (base - t) * q'), (c :: ds), rest, st1.
      assert (Hsum : d_i st + (digit + (base - t) * q') * w
                     = d_i st + digit * w + q' * (w * (base - t))) by ring.
      repeat split.
      * simpl. now rewrite Hin.
      * simpl. lia.
      * unfold base; nia.
      * rewrite Hsum. exact Hfit'.
      * rewrite Hsum. rewrite <- Hc. symmetry. now apply close_integer_state.
      * exact Hr.
      * intros HF. inversion HF as [|? ? Hc1 Hds]; subst.
        rewrite emit_eq. cbv zeta. fold t.
        assert (Hb : 0 < base - t) by (unfold base; lia).
        replace (digit + (base - t) * q' <? t) with false
          by (symmetry; apply Z.ltb_ge; nia).
        replace (digit + (base - t) * q' - t)
          with ((digit - t) + q' * (base - t)) by ring.
        rewrite Z.mod_add by lia. rewrite Z.div_add by lia.
        rewrite Z.mod_small by (unfold base in *; lia).
        rewrite Z.div_small by (unfold base in *; lia).
        replace (t + (digit - t)) with digit by ring.
        unfold digit at 1. rewrite char_roundtrip by exact Hc1.
        f_equal. simpl. now apply Hcan.
Qed.

Lemma decode_loop_app_ok : forall a b cur st S,
  decode_loop a cur st = Ok S ->
  decode_loop (a ++ b) cur st = decode_loop b Between S.
Proof.
  induction a as [|c r IH]; intros b cur st S H.
  - destruct cur; simpl in H; [|discriminate]. now inversion H.
  - cbn [app]. destruct cur as [|oldi w k].
    + rewrite decode_loop_between in *. revert H.
      rewrite !decode_loop_within. cbv zeta.
      repeat match goal with
             | |- context [if ?c then _ else _] => destruct c; try discriminate
             end.
      * destruct (close_integer _ _ _); simpl; try discriminate. apply IH.
      * apply IH.
    + revert H. rewrite !decode_loop_within. cbv zeta.
      repeat match goal with
             | |- context [if ?c then _ else _] => destruct c; try discriminate
             end.
      * destruct (close_integer _ _ _); simpl; try discriminate. apply IH.
      * apply IH.
Qed.

Lemma decode_loop_app_overflow : forall a b cur st,
  decode_loop a cur st = Throw (CodecError overflow) ->
  decode_loop (a ++ b) cur st = Throw (CodecError overflow).
Proof.
  induction a as [|c r IH]; intros b cur st H.
  - destruct cur; simpl in H; discriminate.
  - cbn [app]. destruct cur as [|oldi w k].
    + rewrite decode_loop_between in *. revert H.
      rewrite !decode_loop_within. cbv zeta.
      repeat match goal with
             | |- context [if ?c then _ else _] => destruct c; try discriminate
             end; try (intros _; reflexivity).
      * destruct (close_integer _ _ _); simpl; try discriminate;
          try (intros E; exact E). apply IH.
      * apply IH.
    + revert H. rewrite !decode_loop_within. cbv zeta.
      repeat match goal with
             | |- context [if ?c then _ else _] => destruct c; try discriminate
             end; try (intros _; reflexivity).
      * destruct (close_integer _ _ _); simpl; try discriminate;
          try (intros E; exact E). apply IH.
      * apply IH.
Qed.

(** ** Counting code points *)

Lemma len_nil : len [] = 0.
Proof. reflexivity. Qed.

Lemma len_cons : forall c l, len (c :: l) = len l + 1.
Proof. intros c l. unfold len. simpl List.length. lia. Qed.

Lemma len_app : forall a b, len (a ++ b) = len a + len b.
Proof. intros a b. unfold len. rewrite length_app. lia. Qed.

Lemma len_nonneg : forall l, 0 <= len l.
Proof. intros l. unfold len. lia. Qed.

Lemma count_lt_nil : forall n, count_lt n [] = 0.
Proof. reflexivity. Qed.

Lemma count_lt_cons : forall n c l,
  count_lt n (c :: l) = (if c <? n then 1 else 0) + count_lt n l.
Proof.
  intros n c l. unfold count_lt. simpl filter.
  destruct (c <? n); [rewrite len_cons|]; lia.
Qed.

Lemma count_lt_app : forall n a b,
  count_lt n (a ++ b) = count_lt n a + count_lt n b.
Proof. intros n a b. unfold count_lt. now rewrite filter_app, len_app. Qed.

Lemma count_eq_cons : forall n c l,
  count_eq n (c :: l) = (if c =? n then 1 else 0) + count_eq n l.
Proof.
  intros n c l. unfold count_eq. simpl filter.
  destruct (c =? n); [rewrite len_cons|]; lia.
Qed.

Lemma count_eq_app : forall n a b,
  count_eq n (a ++ b) = count_eq n a + count_eq n b.
Proof. intros n a b. unfold count_eq. now rewrite filter_app, len_app. Qed.

Lemma count_lt_bounds : forall n l, 0 <= count_lt n l <= len l.
Proof.
  intros n l. induction l as [|c l IH].
  - rewrite count_lt_nil, len_nil. lia.
  - rewrite count_lt_cons, len_cons. destruct (c <? n); lia.
Qed.

Lemma count_eq_nonneg : forall n l, 0 <= count_eq n l.
Proof. intros n l. unfold count_eq. apply len_nonneg. Qed.

Lemma count_eq_pos : forall n l, In n l -> 1 <= count_eq n l.
Proof.
  intros n l. induction l as [|c l IH]; intros H; [destruct H|].
  rewrite count_eq_cons. pose proof (count_eq_nonneg n l).
  destruct (Z.eqb_spec c n); [lia|].
  destruct H as [H|H]; [congruence|]. specialize (IH H). lia.
Qed.

Lemma count_lt_all : forall n l, Forall (fun c => c < n) l -> count_lt n l = len l.
Proof.
  intros n l H. induction H as [|c l Hc _ IH].
  - reflexivity.
  - rewrite count_lt_cons, len_cons, IH.
    destruct (Z.ltb_spec c n); lia.
Qed.

Lemma count_lt_full : forall n l, count_lt n l = len l -> Forall (fun c => c < n) l.
Proof.
  intros n l. induction l as [|c l IH]; intros H; [constructor|].
  rewrite count_lt_cons, len_cons in H. pose proof (count_lt_bounds n l).
  destruct (Z.ltb_spec c n); [|lia]. constructor; [assumption|]. apply IH. lia.
Qed.

Lemma count_lt_succ : forall n l,
  count_lt (n + 1) l = count_lt n l + count_eq n l.
Proof.
  intros n l. induction l as [|c l IH]; [reflexivity|].
  rewrite !count_lt_cons, count_eq_cons, IH.
  destruct (Z.ltb_spec c (n + 1)), (Z.ltb_spec c n), (Z.eqb_spec c n); lia.
Qed.

Lemma count_lt_gap : forall n m l,
  n <= m -> (forall c, In c l -> n <= c -> m <= c) ->
  count_lt m l = count_lt n l.
Proof.
  intros n m l Hnm. induction l as [|c l IH]; intros H; [reflexivity|].
  rewrite !count_lt_cons, IH by (intros; apply H; [now right|assumption]).
  specialize (H c (or_introl eq_refl)).
  destruct (Z.ltb_spec c m), (Z.ltb_spec c n); lia.
Qed.

Lemma count_lt_missing : forall n l,
  count_lt n l < len l -> exists c, In c l /\ n <= c.
Proof.
  intros n l. induction l as [|c l IH]; intros H.
  - rewrite count_lt_nil, len_nil in H. lia.
  - rewrite count_lt_cons, len_cons in H.
    destruct (Z.ltb_spec c n).
    + destruct IH as [c' [Hin Hc']]; [lia|]. exists c'. split; [now right|assumption].
    + exists c. split; [now left|assumption].
Qed.

(** ** The search of the next code point *)

Lemma find_min_spec : forall l n m0,
  find_min l n m0 <= m0
  /\ (forall c, In c l -> n <= c -> find_min l n m0 <= c)
  /\ (find_min l n m0 = m0
      \/ (In (find_min l n m0) l /\ n <= find_min l n m0 < m0)).
Proof.
  induction l as [|c l IH]; intros n m0; simpl.
  - split; [lia|]. split; [intros c []|now left].
  - destruct (Z.geb_spec c n) as [Hge|Hlt]; simpl.
    + destruct (Z.ltb_spec c m0) as [Hc|Hc].
      * destruct (IH n c) as (H1 & H2 & H3). split; [lia|]. split.
        -- intros c' [<-|Hin] Hn; [lia|now apply H2].
        -- right. destruct H3 as [->|[Hin Hr]]; [split; [now left|lia]|].
           split; [now right|lia].
      * destruct (IH n m0) as (H1 & H2 & H3). split; [lia|]. split.
        -- intros c' [<-|Hin] Hn; [lia|now apply H2].
        -- destruct H3 as [->|[Hin Hr]]; [now left|right]. split; [now right|lia].
    + destruct (IH n m0) as (H1 & H2 & H3). split; [lia|]. split.
      * intros c' [<-|Hin] Hn; [lia|now apply H2].
      * destruct H3 as [->|[Hin Hr]]; [now left|right]. split; [now right|lia].
Qed.

(** When a code point in [n, maxInt) is left, the search finds the least
    one. *)
Lemma find_min_found : forall l n e,
  In e l -> n <= e < maxInt ->
  In (find_min l n maxInt) l
  /\ n <= find_min l n maxInt <= e
  /\ (forall c, In c l -> n <= c -> find_min l n maxInt <= c).
Proof.
  intros l n e He Hr. destruct (find_min_spec l n maxInt) as (H1 & H2 & H3).
  specialize (H2 e He ltac:(lia)) as He'.
  destruct H3 as [E|[Hin Hb]]; [lia|]. repeat split; try assumption; lia.
Qed.

(** Inserting a code point that no other exceeds does not change the
    search while a smaller one is left. *)
Lemma find_min_insert : forall A B x n e,
  Forall (fun c => c <= x) A -> Forall (fun c => c < x) B ->
  x < maxInt -> In e (A ++ B) -> n <= e ->
  find_min (A ++ x :: B) n maxInt = find_min (A ++ B) n maxInt.
Proof.
  intros A B x n e HA HB Hx He Hn.
  assert (Hle : forall c, In c (A ++ B) -> c <= x).
  { intros c Hc. apply in_app_or in Hc. destruct Hc as [Hc|Hc].
    - now apply (proj1 (Forall_forall _ _) HA).
    - apply (proj1 (Forall_forall _ _) HB) in Hc. lia. }
  pose proof (Hle e He) as Hex.
  destruct (find_min_found (A ++ B) n e He ltac:(lia)) as (Hin' & Hr' & Hmin').
  assert (Hex' : In e (A ++ x :: B)).
  { apply in_app_or in He. apply in_or_app. destruct He; [now left|right; now right]. }
  destruct (find_min_found (A ++ x :: B) n e Hex' ltac:(lia)) as (Hin & Hr & Hmin).
  set (m' := find_min (A ++ B) n maxInt) in *.
  set (m := find_min (A ++ x :: B) n maxInt) in *.
  assert (Hm'F : In m' (A ++ x :: B)).
  { apply in_app_or in Hin'. apply in_or_app. destruct Hin'; [now left|right; now right]. }
  pose proof (Hmin m' Hm'F ltac:(lia)) as H1.
  apply in_app_or in Hin. destruct Hin as [Hin|[Hin|Hin]].
  - pose proof (Hmin' m (in_or_app _ _ _ (or_introl Hin)) ltac:(lia)). lia.
  - pose proof (Hle m' Hin'). lia.
  - pose proof (Hmin' m (in_or_app _ _ _ (or_intror Hin)) ltac:(lia)). lia.
Qed.

(** ** The scan of the main loop of [encode] *)

Lemma encode_scan_cons : forall c r bl hp st,
  encode_scan (c :: r) bl hp st =
  let n := e_n st in
  let delta := if c <? n then e_delta st + 1 else e_delta st in
  if (c <? n) && (delta >? maxInt) then error overflow
  else if c =? n then
    encode_scan r bl hp
      (mkE n 0 (adapt delta hp (e_handled st =? bl)) (e_handled st + 1)
         (e_output st ++ emit delta (e_bias st)))
  else encode_scan r bl hp (mkE n delta (e_bias st) (e_handled st) (e_output st)).
Proof. reflexivity. Qed.

Lemma encode_scan_app : forall a b bl hp st,
  encode_scan (a ++ b) bl hp st =
  (st' <- encode_scan a bl hp st ;; encode_scan b bl hp st').
Proof.
  induction a as [|c a IH]; intros b bl hp st; [reflexivity|].
  cbn [app]. rewrite !encode_scan_cons. cbv zeta.
  destruct ((c <? e_n st) && _); [reflexivity|].
  destruct (c =? e_n st); apply IH.
Qed.

Lemma encode_scan_above : forall l bl hp st,
  Forall (fun c => e_n st < c) l -> encode_scan l bl hp st = Ok st.
Proof.
  intros l bl hp st H. revert st H.
  induction l as [|c l IH]; intros st H; [reflexivity|].
  inversion H as [|? ? Hc Hl]; subst. rewrite encode_scan_cons. cbv zeta.
  replace (c <? e_n st) with false by (symmetry; apply Z.ltb_ge; lia).
  replace (c =? e_n st) with false by (symmetry; apply Z.eqb_neq; lia).
  cbn [andb]. destruct st as [n d b h o]. cbn [e_n e_delta e_bias e_handled e_output] in *.
  apply IH. exact Hl.
Qed.

Lemma encode_scan_below : forall l bl hp n d b h o,
  Forall (fun c => c < n) l -> d <= maxInt ->
  encode_scan l bl hp (mkE n d b h o) =
  if d + len l >? maxInt then error overflow
  else Ok (mkE n (d + len l) b h o).
Proof.
  induction l as [|c l IH]; intros bl hp n d b h o H Hd.
  - rewrite len_nil, Z.add_0_r.
    destruct (Z.gtb_spec d maxInt); [lia|reflexivity].
  - inversion H as [|? ? Hc Hl]; subst. rewrite encode_scan_cons. cbv zeta.
    cbn [e_n e_delta e_bias e_handled e_output].
    replace (c <? n) with true by (symmetry; apply Z.ltb_lt; lia).
    replace (c =? n) with false by (symmetry; apply Z.eqb_neq; lia).
    cbn [andb]. rewrite len_cons. pose proof (len_nonneg l).
    destruct (Z.gtb_spec (d + 1) maxInt).
    + destruct (Z.gtb_spec (d + (len l + 1)) maxInt); [reflexivity|lia].
    + rewrite IH by (assumption || lia).
      replace (d + 1 + len l) with (d + (len l + 1)) by ring. reflexivity.
Qed.

Lemma encode_scan_facts : forall l bl hp st st',
  encode_scan l bl hp st = Ok st' ->
  e_n st' = e_n st
  /\ e_handled st' = e_handled st + count_eq (e_n st) l
  /\ (0 <= e_delta st ->
      0 <= e_delta st' <= e_delta st + count_lt (e_n st) l)
  /\ (In (e_n st) l -> 0 <= e_delta st' <= count_lt (e_n st) l).
Proof.
  induction l as [|c l IH]; intros bl hp st st' H.
  - simpl in H. inversion H; subst. unfold count_eq, count_lt. simpl.
    rewrite len_nil. repeat split; try lia; try (intros []).
  - rewrite encode_scan_cons in H. cbv zeta in H.
    rewrite count_eq_cons, count_lt_cons.
    destruct ((c <? e_n st) && _) eqn:Eo; [discriminate|].
    destruct (Z.eqb_spec c (e_n st)) as [Heq|Hne].
    + apply IH in H. cbn [e_n e_delta e_bias e_handled e_output] in H.
      destruct H as (H1 & H2 & H3 & H5).
      pose proof (count_lt_bounds (e_n st) l).
      replace (c <? e_n st) with false by (symmetry; apply Z.ltb_ge; lia).
      repeat split; try lia.
    + apply IH in H. cbn [e_n e_delta e_bias e_handled e_output] in H.
      destruct H as (H1 & H2 & H3 & H5).
      pose proof (count_lt_bounds (e_n st) l).
      destruct (Z.ltb_spec c (e_n st));
        (split; [lia|split; [lia|split; [intros ?; lia|]]];
         intros [Hin|Hin]; [congruence|specialize (H5 Hin); lia]).
Qed.

(** The output of a scan extends the output it starts from. *)
Lemma encode_scan_throws : forall l bl hp st e,
  encode_scan l bl hp st = Throw e -> e = CodecError overflow.
Proof.
  induction l as [|c l IH]; intros bl hp st e H; [discriminate|].
  rewrite encode_scan_cons in H. cbv zeta in H.
  destruct ((c <? e_n st) && _); [now inversion H|].
  destruct (c =? e_n st); eapply IH; eauto.
Qed.

Lemma encode_scan_fuel : forall l bl hp st, encode_scan l bl hp st <> OutOfFuel.
Proof.
  induction l as [|c l IH]; intros bl hp st; [discriminate|].
  rewrite encode_scan_cons. cbv zeta.
  destruct ((c <? e_n st) && _); [discriminate|].
  destruct (c =? e_n st); apply IH.
Qed.

(** ** The bias adaptation on a small [delta] *)

Lemma toInt32_small : forall x, 0 <= x <= maxInt -> toInt32 x = x.
Proof.
  intros x H. unfold toInt32, maxInt in *. rewrite Z.mod_small; lia.
Qed.

(** [adapt] does not depend on [numPoints] when [delta] is below it: this
    is why the stale [handledCPCountPlusOne] of [encode] is harmless. *)
Lemma adapt_small : forall q np1 np2 ft,
  0 <= q <= maxInt -> q < np1 -> q < np2 ->
  adapt q np1 ft = adapt q np2 ft.
Proof.
  intros q np1 np2 ft Hq H1 H2. unfold adapt.
  set (d := if ft then q / damp else Z.shiftr (toInt32 q) 1).
  assert (Hd : 0 <= d <= q).
  { unfold d. destruct ft.
    - unfold damp. split; [apply Z.div_pos; lia|].
      apply Z.div_le_upper_bound; lia.
    - rewrite toInt32_small by exact Hq. rewrite Z.shiftr_div_pow2 by lia.
      change (2 ^ 1) with 2. split; [apply Z.div_pos; lia|].
      apply Z.div_le_upper_bound; lia. }
  rewrite (Z.div_small d np1), (Z.div_small d np2) by lia. reflexivity.
Qed.

(** ** The main loop of [encode] *)

Lemma encode_main_done : forall f l bl st,
  len l <= e_handled st -> encode_main f l bl st = Ok st.
Proof.
  intros f l bl st H. destruct f; cbn [encode_main];
    (destruct (Z.ltb_spec (e_handled st) (len l)); [lia|reflexivity]).
Qed.

Lemma encode_main_step : forall f l bl st,
  e_handled st < len l ->
  encode_main (S f) l bl st =
  let m := find_min l (e_n st) maxInt in
  let handledCPCountPlusOne := e_handled st + 1 in
  if m - e_n st >? (maxInt - e_delta st) / handledCPCountPlusOne
  then error overflow
  else
    let delta := e_delta st + (m - e_n st) * handledCPCountPlusOne in
    st' <- encode_scan l bl handledCPCountPlusOne
             (mkE m delta (e_bias st) (e_handled st) (e_output st)) ;;
    encode_main f l bl
      (mkE (e_n st' + 1) (e_delta st' + 1) (e_bias st')
         (e_handled st') (e_output st')).
Proof.
  intros f l bl st H. cbn [encode_main].
  destruct (Z.ltb_spec (e_handled st) (len l)); [reflexivity|lia].
Qed.

Lemma overflow_test : forall a b c, 0 < c -> (a >? b / c) = (a * c >? b).
Proof.
  intros a b c Hc.
  destruct (Z.gtb_spec a (b / c)), (Z.gtb_spec (a * c) b); try reflexivity.
  - exfalso. assert (b / c < a) by lia.
    assert (b < c * a); [|lia].
    destruct (Z.lt_ge_cases b (c * a)); [assumption|].
    assert (a <= b / c) by (apply Z.div_le_lower_bound; lia). lia.
  - exfalso. assert (b / c < a); [|lia].
    apply Z.div_lt_upper_bound; lia.
Qed.

(** ** Encoding an array with one more code point

    The array [A ++ x :: B] is [A ++ B] with [x] inserted, where no code
    point of [A] exceeds [x] and those of [B] are below it: in the order
    in which [encode] handles code points, [x] comes last.  The main loop
    on [A ++ x :: B] then runs as it does on [A ++ B] and writes one more
    integer; [finish] is that last step, from the state in which the main
    loop on [A ++ B] ends. *)

Lemma encode_scan_skip : forall A B x bl hp st,
  e_n st < x ->
  encode_scan (A ++ x :: B) bl hp st = encode_scan (A ++ B) bl hp st.
Proof.
  intros A B x bl hp st Hx. rewrite !encode_scan_app.
  destruct (encode_scan A bl hp st) as [sA| |] eqn:EA; try reflexivity.
  apply encode_scan_facts in EA. destruct EA as (Hn & _).
  cbn [bind]. rewrite encode_scan_cons. cbv zeta.
  replace (x <? e_n sA) with false by (symmetry; apply Z.ltb_ge; lia).
  replace (x =? e_n sA) with false by (symmetry; apply Z.eqb_neq; lia).
  cbn [andb]. destruct sA; reflexivity.
Qed.

Lemma count_eq_below : forall x l, Forall (fun c => c < x) l -> count_eq x l = 0.
Proof.
  intros x l H. induction H as [|c l Hc _ IH]; [reflexivity|].
  rewrite count_eq_cons, IH. destruct (Z.eqb_spec c x); lia.
Qed.

Section Insert.

Variables (A B : list Z) (x bl : Z).
Hypothesis HA : Forall (fun c => c <= x) A.
Hypothesis HB : Forall (fun c => c < x) B.
Hypothesis Hx : x < maxInt.
Hypothesis Hlen : len (A ++ B) < maxInt.

Lemma insert_le : forall c, In c (A ++ B) -> c <= x.
Proof.
  intros c Hc. apply in_app_or in Hc. destruct Hc as [Hc|Hc].
  - now apply (proj1 (Forall_forall _ _) HA).
  - apply (proj1 (Forall_forall _ _) HB) in Hc. lia.
Qed.

Lemma insert_len : len (A ++ x :: B) = len (A ++ B) + 1.
Proof. rewrite !len_app, len_cons. ring. Qed.

Lemma insert_count_eq : count_eq x (A ++ B) = count_eq x A.
Proof.
  rewrite count_eq_app, (count_eq_below x B HB). ring.
Qed.

Lemma insert_count_all : count_lt (x + 1) (A ++ B) = len (A ++ B).
Proof.
  apply count_lt_all. apply Forall_forall. intros c Hc.
  apply insert_le in Hc. lia.
Qed.

Lemma insert_in_A : In x (A ++ B) -> In x A.
Proof.
  intros H. apply in_app_or in H. destruct H as [H|H]; [assumption|].
  apply (proj1 (Forall_forall _ _) HB) in H. lia.
Qed.

Lemma main_insert_over : forall f st,
  e_n st <= x ->
  e_handled st = count_lt (e_n st) (A ++ B) ->
  len (A ++ B) <= e_handled st ->
  encode_main (S f) (A ++ x :: B) bl st = finish A B x bl st.
Proof.
  intros f [n d b h o]. cbn [e_n e_delta e_bias e_handled e_output].
  intros Hn Hh Hge.
  pose proof (count_lt_bounds n (A ++ B)) as Hcb.
  pose proof (len_nonneg A) as HlA. pose proof (len_nonneg B) as HlB.
  pose proof insert_len as HlF.
  assert (Hall : Forall (fun c => c < n) (A ++ B))
    by (apply count_lt_full; lia).
  assert (HallIn : forall c, In c (A ++ B) -> c < n)
    by (apply Forall_forall; exact Hall).
  assert (HallA : Forall (fun c => c < x) A).
  { apply Forall_forall. intros c Hc.
    pose proof (HallIn c (in_or_app _ _ _ (or_introl Hc))). lia. }
  assert (Hm : find_min (A ++ x :: B) n maxInt = x).
  { destruct (find_min_found (A ++ x :: B) n x) as (Hin & Hr & _).
    - apply in_or_app. right. now left.
    - lia.
    - apply in_app_or in Hin. destruct Hin as [Hin|[Hin|Hin]].
      + pose proof (HallIn _ (in_or_app _ _ _ (or_introl Hin))). lia.
      + now symmetry.
      + pose proof (HallIn _ (in_or_app _ _ _ (or_intror Hin))). lia. }
  rewrite encode_main_step by (cbn [e_handled]; lia).
  cbv zeta. cbn [e_n e_delta e_bias e_handled e_output]. rewrite Hm.
  rewrite overflow_test by lia.
  unfold finish. cbv zeta. cbn [e_n e_delta e_bias e_handled e_output].
  rewrite len_app in *.
  destruct (Z.gtb_spec ((x - n) * (h + 1)) (maxInt - d)) as [Ho|Ho].
  - destruct (Z.gtb_spec (d + (x - n) * (h + 1) + len A) maxInt); [reflexivity|lia].
  - rewrite encode_scan_app.
    rewrite encode_scan_below by (assumption || lia).
    destruct (Z.gtb_spec (d + (x - n) * (h + 1) + len A) maxInt); [reflexivity|].
    cbn [bind]. rewrite encode_scan_cons. cbv zeta.
    cbn [e_n e_delta e_bias e_handled e_output].
    rewrite Z.ltb_irrefl, Z.eqb_refl. cbn [andb].
    rewrite encode_scan_below by (assumption || unfold maxInt; lia).
    destruct (Z.gtb_spec (0 + len B) maxInt); [lia|].
    cbn [bind]. cbn [e_n e_delta e_bias e_handled e_output].
    rewrite encode_main_done by (cbn [e_handled]; rewrite len_app, len_cons; lia).
    rewrite Z.add_0_l. reflexivity.
Qed.

Lemma main_insert : forall f st,
  e_n st <= x ->
  e_handled st = count_lt (e_n st) (A ++ B) ->
  0 <= e_delta st ->
  len (A ++ B) - e_handled st <= Z.of_nat f ->
  encode_main (S f) (A ++ x :: B) bl st =
  (st_e <- encode_main f (A ++ B) bl st ;; finish A B x bl st_e).
Proof.
  induction f as [|f IH]; intros st Hn Hh Hd Hf;
    pose proof (count_lt_bounds (e_n st) (A ++ B)) as Hcb;
    (destruct (Z.lt_ge_cases (e_handled st) (len (A ++ B))) as [Hlt|Hge]).
  - simpl Z.of_nat in Hf. lia.
  - rewrite (encode_main_done 0) by lia. now apply main_insert_over.
  - (* both loops iterate *)
    destruct st as [n d b h o]. cbn [e_n e_delta e_bias e_handled e_output] in *.
    pose proof (len_nonneg A) as HlA. pose proof (len_nonneg B) as HlB.
    pose proof insert_len as HlF.
    destruct (count_lt_missing n (A ++ B)) as (e & He & Hne); [lia|].
    pose proof (insert_le e He) as Hex.
    destruct (find_min_found (A ++ B) n e He ltac:(lia)) as (Hin & Hr & Hmin).
    rewrite encode_main_step by (cbn [e_handled]; lia).
    rewrite (encode_main_step f) by (cbn [e_handled]; lia).
    cbv zeta. cbn [e_n e_delta e_bias e_handled e_output].
    rewrite (find_min_insert A B x n e) by (assumption || lia).
    set (m := find_min (A ++ B) n maxInt) in *. clearbody m.
    destruct (m - n >? (maxInt - d) / (h + 1)) eqn:Eo; [reflexivity|].
    rewrite overflow_test in Eo by lia. rewrite Z.gtb_ltb in Eo. apply Z.ltb_ge in Eo.
    pose proof (insert_le m Hin) as Hmx.
    assert (Hgap : count_lt m (A ++ B) = h)
      by (rewrite Hh; apply count_lt_gap; [lia|exact Hmin]).
    destruct (Z.eq_dec m x) as [Heq|Hneq].
    + (* the code point found is [x]: this is the last iteration *)
      subst m. pose proof (insert_in_A Hin) as HxA.
      rewrite !encode_scan_app.
      destruct (encode_scan A bl (h + 1) _) as [sA| |] eqn:EA; try reflexivity.
      pose proof (encode_scan_facts _ _ _ _ _ EA) as (F1 & F2 & F3 & F4).
      cbn [e_n e_delta e_bias e_handled e_output] in F1, F2, F3, F4.
      specialize (F4 HxA).
      destruct sA as [nA dA bA hA oA].
      cbn [e_n e_delta e_bias e_handled e_output] in *. subst nA.
      assert (HhA : hA = len A + len B).
      { rewrite <- len_app, <- insert_count_all, count_lt_succ, insert_count_eq. lia. }
      assert (HdA : dA <= h /\ dA <= len A).
      { pose proof (count_lt_bounds x A). pose proof (count_lt_bounds x B).
        rewrite count_lt_app in Hgap. lia. }
      rewrite len_app in *.
      cbn [bind].
      rewrite (encode_scan_below B) by (assumption || unfold maxInt in *; lia).
      destruct (Z.gtb_spec (dA + len B) maxInt); [lia|].
      cbn [bind]. cbn [e_n e_delta e_bias e_handled e_output].
      rewrite encode_main_done by (cbn [e_handled]; rewrite len_app; lia).
      cbn [bind]. unfold finish. cbv zeta.
      cbn [e_n e_delta e_bias e_handled e_output].
      replace (dA + len B + 1 + (x - (x + 1)) * (hA + 1) + len A) with dA
        by (rewrite HhA; ring).
      destruct (Z.gtb_spec dA maxInt); [lia|].
      rewrite encode_scan_cons. cbv zeta.
      cbn [e_n e_delta e_bias e_handled e_output].
      rewrite Z.ltb_irrefl, Z.eqb_refl. cbn [andb].
      rewrite encode_scan_below by (assumption || unfold maxInt; lia).
      destruct (Z.gtb_spec (0 + len B) maxInt); [lia|].
      cbn [bind]. cbn [e_n e_delta e_bias e_handled e_output].
      rewrite encode_main_done by (cbn [e_handled]; rewrite len_app, len_cons; lia).
      rewrite Z.add_0_l.
      rewrite (adapt_small dA (h + 1) (hA + 1)) by lia. reflexivity.
    + (* a smaller code point is found: both loops do the same *)
      rewrite encode_scan_skip by (cbn [e_n]; lia).
      destruct (encode_scan (A ++ B) bl (h + 1) _) as [s2| |] eqn:E2;
        try reflexivity.
      cbn [bind]. apply encode_scan_facts in E2.
      cbn [e_n e_delta e_bias e_handled e_output] in E2.
      destruct E2 as (F1 & F2 & F3 & _).
      pose proof (count_eq_pos m (A ++ B) Hin) as Hpos.
      apply IH; cbn [e_n e_delta e_bias e_handled e_output].
      * lia.
      * rewrite F1, count_lt_succ. lia.
      * assert (0 <= (m - n) * (h + 1)) by nia. lia.
      * lia.
  - rewrite (encode_main_done (S f)) by lia. now apply main_insert_over.
Qed.

End Insert.

(** ** The decoder state that matches an encoder state *)

Lemma firstn_len_app : forall (A B : list Z),
  firstn (Z.to_nat (len A)) (A ++ B) = A.
Proof.
  intros A B. unfold len. rewrite Nat2Z.id.
  rewrite firstn_app, Nat.sub_diag, firstn_all. simpl. apply app_nil_r.
Qed.

Lemma skipn_len_app : forall (A B : list Z),
  skipn (Z.to_nat (len A)) (A ++ B) = B.
Proof.
  intros A B. unfold len. rewrite Nat2Z.id.
  rewrite skipn_app, Nat.sub_diag, skipn_all. reflexivity.
Qed.

Lemma splice_app : forall A B x, splice (A ++ B) (len A) x = A ++ x :: B.
Proof.
  intros A B x. unfold splice. now rewrite firstn_len_app, skipn_len_app.
Qed.

Section InsertStep.

Variables (A B : list Z) (x bl : Z).
Hypothesis HA : Forall (fun c => c <= x) A.
Hypothesis HB : Forall (fun c => c < x) B.
Hypothesis Hx : 128 <= x < maxInt.

Variables (st' : estate) (S' : dstate).
Hypothesis Hout : d_output S' = A ++ B.
Hypothesis HD : DInv S'.
Hypothesis HR : Rel bl st' S'.

Lemma insert_n_le : d_n S' <= x.
Proof.
  destruct (dinv_last S' HD) as [[_ E]|[Hi E]]; [lia|].
  pose proof (dinv_i S' HD) as Hr. rewrite Hout in *.
  assert (Hin : In (d_n S') (A ++ B)).
  { rewrite <- E. apply nth_In. unfold len in Hr. lia. }
  apply (insert_le A B x HA HB) in Hin. exact Hin.
Qed.

Lemma insert_total :
  d_i S' + insert_q A x st' = (x - d_n S') * (len (A ++ B) + 1) + len A.
Proof.
  unfold insert_q. destruct HR as (_ & Hh & Hd & _). rewrite Hd, Hh, Hout. ring.
Qed.

Lemma insert_q_nonneg : 0 <= insert_q A x st'.
Proof.
  pose proof insert_total as Ht. pose proof insert_n_le as Hn.
  pose proof (dinv_i S' HD) as Hr. rewrite Hout in Hr.
  pose proof (len_nonneg A) as HlA. pose proof (len_nonneg B) as HlB.
  rewrite len_app in *.
  destruct (dinv_last S' HD) as [[E0 E]|[Hi E]]; [nia|].
  destruct (Z.eq_dec (d_n S') x) as [Heq|Hne]; [|nia].
  assert (d_i S' <= len A); [|nia].
  destruct (Z.le_gt_cases (d_i S') (len A)) as [|Hgt]; [assumption|exfalso].
  rewrite Hout in E. rewrite app_nth2 in E by (unfold len in *; lia).
  assert (Hin : In (d_n S') B).
  { rewrite <- E. apply nth_In. unfold len in *. lia. }
  apply (proj1 (Forall_forall _ _) HB) in Hin. lia.
Qed.

Lemma insert_close :
  close_integer S' (d_i S') (d_i S' + insert_q A x st')
  = Ok (insert_state A B x st' S').
Proof.
  unfold close_integer. cbv zeta. rewrite insert_total, Hout.
  pose proof (len_nonneg A) as HlA. pose proof (len_nonneg B) as HlB.
  assert (Hdiv : ((x - d_n S') * (len (A ++ B) + 1) + len A) / (len (A ++ B) + 1)
                 = x - d_n S').
  { rewrite Z.div_add_l by (rewrite len_app; lia).
    rewrite Z.div_small by (rewrite len_app; lia). ring. }
  assert (Hmod : ((x - d_n S') * (len (A ++ B) + 1) + len A) mod (len (A ++ B) + 1)
                 = len A).
  { rewrite Z.add_comm, Z.mod_add by (rewrite len_app; lia).
    apply Z.mod_small. rewrite len_app; lia. }
  rewrite Hdiv, Hmod.
  destruct (Z.gtb_spec (x - d_n S') (maxInt - d_n S')); [lia|].
  unfold insert_state. rewrite splice_app.
  replace (d_n S' + (x - d_n S')) with x by ring.
  rewrite <- insert_total.
  replace (d_i S' + insert_q A x st' - d_i S') with (insert_q A x st') by ring.
  reflexivity.
Qed.

Lemma insert_DInv : DInv (insert_state A B x st' S').
Proof.
  pose proof (len_nonneg A) as HlA. pose proof (len_nonneg B) as HlB.
  constructor; unfold insert_state; cbn [d_i d_n d_bias d_output].
  - lia.
  - rewrite len_app, len_cons. lia.
  - apply Forall_app. split; [exact HA|]. constructor; [lia|].
    eapply Forall_impl; [|exact HB]. cbv beta. intros; lia.
  - replace (A ++ x :: B) with ((A ++ [x]) ++ B) by (now rewrite <- app_assoc).
    replace (len A + 1) with (len (A ++ [x])) by (rewrite len_app; reflexivity).
    rewrite skipn_len_app. exact HB.
  - right. split; [lia|]. replace (len A + 1 - 1) with (len A) by ring.
    unfold len. rewrite Nat2Z.id. apply nth_middle.
Qed.

Lemma insert_Rel : forall st,
  finish A B x bl st' = Ok st -> Rel bl st (insert_state A B x st' S').
Proof.
  intros st Hf. unfold finish in Hf. cbv zeta in Hf.
  fold (insert_q A x st') in Hf.
  destruct (insert_q A x st' >? maxInt); [discriminate|].
  inversion Hf; subst st. clear Hf.
  destruct HR as (Hb & Hh & Hd & Hfl & Hbl).
  pose proof (len_nonneg A) as HlA. pose proof (len_nonneg B) as HlB.
  unfold Rel, insert_state.
  cbn [e_n e_delta e_bias e_handled e_output d_i d_n d_bias d_output].
  rewrite Hh, Hout in *. repeat split.
  - now rewrite Hfl.
  - rewrite !len_app, len_cons. ring.
  - rewrite !len_app, len_cons. ring.
  - destruct (Z.eqb_spec (len A + 1) 0); [lia|].
    destruct (Z.eqb_spec (len (A ++ B) + 1) bl); [lia|reflexivity].
  - lia.
Qed.

Lemma insert_finish :
  insert_q A x st' <= maxInt ->
  exists st, finish A B x bl st' = Ok st
    /\ e_output st = e_output st' ++ emit (insert_q A x st') (e_bias st').
Proof.
  intros Hq. unfold finish. cbv zeta. fold (insert_q A x st').
  destruct (Z.gtb_spec (insert_q A x st') maxInt); [lia|].
  eexists. split; reflexivity.
Qed.

End InsertStep.

(** ** The code point handled last *)

Lemma max_last_split : forall cps,
  Forall (fun c => c < 128) cps
  \/ exists A x B, cps = A ++ x :: B /\ 128 <= x
       /\ Forall (fun c => c <= x) A /\ Forall (fun c => c < x) B.
Proof.
  induction cps as [|c l IH]; [left; constructor|].
  destruct IH as [Hb|(A & x & B & -> & Hx & HA & HB)].
  - destruct (Z.lt_ge_cases c 128) as [Hc|Hc].
    + left. now constructor.
    + right. exists [], c, l. repeat split; try assumption; [constructor|].
      eapply Forall_impl; [|exact Hb]. cbv beta. intros; lia.
  - right. destruct (Z.le_gt_cases c x) as [Hc|Hc].
    + exists (c :: A), x, B. repeat split; try assumption. now constructor.
    + exists [], c, (A ++ x :: B). repeat split; [lia|constructor|].
      apply Forall_app. split.
      * eapply Forall_impl; [|exact HA]. cbv beta. intros; lia.
      * constructor; [lia|]. eapply Forall_impl; [|exact HB]. cbv beta. intros; lia.
Qed.

Lemma basic_of_insert : forall A B x,
  128 <= x -> basic_of (A ++ x :: B) = basic_of (A ++ B).
Proof.
  intros A B x Hx. unfold basic_of. rewrite !filter_app. cbn [filter].
  now replace (x <? 128) with false by (symmetry; apply Z.ltb_ge; lia).
Qed.

Lemma basic_of_all : forall cps,
  Forall (fun c => c < 128) cps -> basic_of cps = cps.
Proof.
  intros cps H. unfold basic_of. induction H as [|c l Hc _ IH]; [reflexivity|].
  cbn [filter]. replace (c <? 128) with true by (symmetry; now apply Z.ltb_lt).
  now rewrite IH.
Qed.

Lemma encode_init_basic : forall cps,
  encode_init cps =
  mkE initialN 0 initialBias (count_lt 128 cps)
    (if count_lt 128 cps =? 0 then map stringFromCharCode (basic_of cps)
     else map stringFromCharCode (basic_of cps) ++ [delimiter]).
Proof.
  intros cps. unfold encode_init, count_lt, basic_of, len.
  cbv zeta. now rewrite length_map.
Qed.

Lemma encode_run_eq : forall cps,
  encode_run cps =
  encode_main (List.length cps) cps (count_lt 128 cps) (encode_init cps).
Proof. reflexivity. Qed.

Lemma encode_init_insert : forall A B x,
  128 <= x -> encode_init (A ++ x :: B) = encode_init (A ++ B).
Proof.
  intros A B x Hx. rewrite !encode_init_basic.
  unfold count_lt. fold (basic_of (A ++ x :: B)). fold (basic_of (A ++ B)).
  now rewrite basic_of_insert.
Qed.

Lemma count_lt_insert : forall A B x,
  128 <= x -> count_lt 128 (A ++ x :: B) = count_lt 128 (A ++ B).
Proof.
  intros A B x Hx. unfold count_lt.
  fold (basic_of (A ++ x :: B)). fold (basic_of (A ++ B)).
  now rewrite basic_of_insert.
Qed.

(** The main loop on [A ++ x :: B], in terms of the main loop on
    [A ++ B]. *)
Lemma encode_run_insert : forall A B x,
  Forall (fun c => c <= x) A -> Forall (fun c => c < x) B ->
  128 <= x < maxInt -> len (A ++ B) < maxInt ->
  encode_run (A ++ x :: B) =
  (st <- encode_run (A ++ B) ;;
   finish A B x (count_lt 128 (A ++ B)) st).
Proof.
  intros A B x HA HB Hx Hlen. rewrite !encode_run_eq.
  rewrite encode_init_insert, count_lt_insert by lia.
  replace (List.length (A ++ x :: B)) with (S (List.length (A ++ B)))
    by (rewrite !length_app; simpl; lia).
  pose proof (count_lt_bounds 128 (A ++ B)) as Hc.
  apply main_insert; try assumption; try lia;
    rewrite encode_init_basic; cbn [e_n e_delta e_bias e_handled e_output].
  - unfold initialN. lia.
  - reflexivity.
  - lia.
  - unfold len. lia.
Qed.

Lemma decode_init_DInv : forall cps,
  Forall (fun c => c < 128) cps -> DInv (decode_init cps).
Proof.
  intros cps H. constructor; unfold decode_init, initialN;
    cbn [d_i d_n d_bias d_output].
  - lia.
  - pose proof (len_nonneg cps). lia.
  - eapply Forall_impl; [|exact H]. cbv beta. intros; lia.
  - exact H.
  - now left.
Qed.

(** ** [encode] then [decode], on arrays of code points *)

Lemma encode_decode_points : forall k cps,
  List.length cps = k ->
  Forall (fun c => c < maxInt) cps -> len cps <= maxInt ->
  forall st, encode_run cps = Ok st ->
  exists digits S,
    e_output st = e_output (encode_init cps) ++ digits
    /\ lower_digits digits
    /\ DInv S /\ d_output S = cps /\ Rel (count_lt 128 cps) st S
    /\ (decode_loop digits Between (decode_init (basic_of cps))
        = Throw (CodecError overflow)
        \/ decode_loop digits Between (decode_init (basic_of cps)) = Ok S).
Proof.
  induction k as [|k IH]; intros cps Hk Hmax Hlen st Hrun;
    (destruct (max_last_split cps) as [Hb|(A & x & B & E & Hx & HA & HB)]).
  1, 3: (* basic code points only *)
    rewrite encode_run_eq in Hrun;
    rewrite encode_main_done in Hrun
      by (rewrite encode_init_basic; cbn [e_handled];
          rewrite (count_lt_all 128 cps Hb); lia);
    inversion Hrun; subst st;
    exists [], (decode_init cps);
    rewrite (basic_of_all cps Hb), app_nil_r;
    (split; [reflexivity|]); (split; [constructor|]);
    (split; [now apply decode_init_DInv|]); (split; [reflexivity|]);
    (split; [|right; reflexivity]);
    rewrite encode_init_basic; unfold Rel, decode_init;
    cbn [e_n e_delta e_bias e_handled e_output d_i d_n d_bias d_output];
    rewrite (count_lt_all 128 cps Hb), Z.eqb_refl;
    repeat split; try reflexivity; try lia; unfold initialN; ring.
  - subst cps. rewrite length_app in Hk. simpl in Hk. lia.
  - subst cps.
    assert (HxM : x < maxInt).
    { apply (proj1 (Forall_forall _ _) Hmax). apply in_or_app. right. now left. }
    assert (Hlen' : len (A ++ B) < maxInt)
      by (rewrite len_app, len_cons in Hlen; rewrite len_app; lia).
    rewrite encode_run_insert in Hrun by (assumption || lia).
    destruct (encode_run (A ++ B)) as [st'| |] eqn:Erun; try discriminate.
    cbn [bind] in Hrun.
    destruct (IH (A ++ B)) with (st := st')
      as (digits & S' & Eout & Hlow & HD & HoutS & HR & Hdec).
    { rewrite length_app in *. simpl in Hk. lia. }
    { apply Forall_app in Hmax. destruct Hmax as [H1 H2].
      inversion H2; subst. apply Forall_app. now split. }
    { lia. }
    { exact Erun. }
    pose proof (insert_q_nonneg A B x _ HA HB (conj Hx HxM) st' S' HoutS HD HR) as Hq.
    pose proof (insert_close A B x _ (conj Hx HxM) st' S' HoutS HR) as Hclose.
    pose proof (insert_DInv A B x HA HB (conj Hx HxM) st' S') as HD1.
    pose proof (insert_Rel A B x _ st' S' HoutS HR st Hrun) as HR1.
    set (q := insert_q A x st') in *.
    set (S1 := insert_state A B x st' S') in *.
    assert (Est : e_output st = e_output st' ++ emit q (e_bias st')).
    { unfold finish in Hrun. cbv zeta in Hrun. fold (insert_q A x st') in Hrun.
      fold q in Hrun. destruct (q >? maxInt); [discriminate|].
      inversion Hrun. reflexivity. }
    exists (digits ++ emit q (e_bias st')), S1.
    rewrite encode_init_insert, basic_of_insert, count_lt_insert by lia.
    split; [rewrite Est, Eout; now rewrite app_assoc|].
    split; [apply Forall_app; split; [exact Hlow|now apply gvli_digits]|].
    split; [exact HD1|]. split; [reflexivity|]. split; [exact HR1|].
    destruct Hdec as [Hdec|Hdec].
    + left. now apply decode_loop_app_overflow.
    + rewrite (decode_loop_app_ok _ _ _ _ _ Hdec).
      destruct HR as (Hbias & _). rewrite Hbias.
      destruct (read_emit q S' [] Hq) as [Er|Er]; rewrite app_nil_r in Er.
      * now left.
      * right. rewrite Er. fold q in Hclose. rewrite Hclose. reflexivity.
Qed.

(** ** [decode] then [encode], on arrays of code points *)

Lemma Forall_skipn_of : forall (P : Z -> Prop) n l,
  Forall P l -> Forall P (skipn n l).
Proof.
  intros P n l H. rewrite <- (firstn_skipn n l) in H.
  apply Forall_app in H. tauto.
Qed.

Lemma Forall_firstn_of : forall (P : Z -> Prop) n l,
  Forall P l -> Forall P (firstn n l).
Proof.
  intros P n l H. rewrite <- (firstn_skipn n l) in H.
  apply Forall_app in H. tauto.
Qed.

(** What the end of an integer does to the state of [decode]: a code
    point [x], at least the last one inserted, is inserted at an index
    where it comes after its equals. *)
Lemma close_integer_split : forall S0 q S1,
  DInv S0 -> 0 <= q ->
  close_integer S0 (d_i S0) (d_i S0 + q) = Ok S1 ->
  exists A x B,
    d_output S0 = A ++ B
    /\ 128 <= x <= maxInt
    /\ Forall (fun c => c <= x) A /\ Forall (fun c => c < x) B
    /\ d_i S0 + q = (x - d_n S0) * (len (A ++ B) + 1) + len A
    /\ S1 = mkD (len A + 1) x
              (adapt q (len (A ++ B) + 1) (d_i S0 =? 0)) (A ++ x :: B).
Proof.
  intros S0 q S1 HD Hq H. unfold close_integer in H. cbv zeta in H.
  pose proof (dinv_n S0 HD) as Hn. pose proof (dinv_i S0 HD) as Hi.
  set (F := d_output S0) in *. set (out := len F + 1) in *.
  set (itot := d_i S0 + q) in *.
  assert (Hout : 0 < out) by (unfold out; pose proof (len_nonneg F); lia).
  assert (Hdiv : 0 <= itot / out) by (apply Z.div_pos; lia).
  pose proof (Z.mod_pos_bound itot out Hout) as Hmod.
  pose proof (Z.div_mod itot out ltac:(lia)) as Hdm.
  destruct (Z.gtb_spec (itot / out) (maxInt - d_n S0)) as [|Hfit]; [discriminate|].
  inversion H; subst S1; clear H.
  set (pos := itot mod out) in *.
  assert (HlenA : len (firstn (Z.to_nat pos) F) = pos).
  { unfold len. rewrite length_firstn. unfold out, len in *. lia. }
  exists (firstn (Z.to_nat pos) F), (d_n S0 + itot / out), (skipn (Z.to_nat pos) F).
  rewrite firstn_skipn. fold out. rewrite HlenA.
  split; [reflexivity|]. split; [lia|]. split; [|split; [|split]].
  - apply Forall_firstn_of. eapply Forall_impl; [|exact (dinv_le S0 HD)].
    cbv beta. intros; lia.
  - destruct (Z.eq_dec (itot / out) 0) as [E0|E0].
    + assert (Hpos : pos = itot) by lia.
      replace (Z.to_nat pos) with (Z.to_nat q + Z.to_nat (d_i S0))%nat
        by (rewrite Hpos; unfold itot; lia).
      rewrite <- skipn_skipn. apply Forall_skipn_of.
      eapply Forall_impl; [|exact (dinv_after S0 HD)]. cbv beta. intros; lia.
    + apply Forall_skipn_of. eapply Forall_impl; [|exact (dinv_le S0 HD)].
      cbv beta. intros; lia.
  - replace (d_n S0 + itot / out - d_n S0) with (itot / out) by ring. lia.
  - unfold splice. replace (itot - d_i S0) with q by (unfold itot; ring).
    reflexivity.
Qed.

Lemma close_integer_output : forall st oldi i st1,
  close_integer st oldi i = Ok st1 ->
  incl (d_output st) (d_output st1)
  /\ len (d_output st) <= len (d_output st1).
Proof.
  intros st oldi i st1 H. unfold close_integer in H. cbv zeta in H.
  destruct (_ >? _); [discriminate|]. inversion H; subst st1; clear H.
  cbn [d_output]. unfold splice.
  set (k := Z.to_nat _). split.
  - intros c Hc. rewrite <- (firstn_skipn k (d_output st)) in Hc.
    apply in_app_or in Hc. apply in_or_app. destruct Hc; [now left|right; now right].
  - rewrite <- (firstn_skipn k (d_output st)) at 1.
    rewrite !len_app, len_cons. lia.
Qed.

Lemma decode_loop_output : forall input cur st S,
  decode_loop input cur st = Ok S ->
  incl (d_output st) (d_output S)
  /\ len (d_output st) <= len (d_output S).
Proof.
  induction input as [|c r IH]; intros cur st S H.
  - destruct cur; [|discriminate]. inversion H; subst.
    split; [apply incl_refl|lia].
  - assert (G : forall oldi w k,
               decode_loop (c :: r) (Within oldi w k) st = Ok S ->
               incl (d_output st) (d_output S)
               /\ len (d_output st) <= len (d_output S)).
    { clear H. intros oldi w k H. rewrite decode_loop_within in H. cbv zeta in H.
      destruct (_ >=? _); [discriminate|].
      destruct (_ >? _); [discriminate|].
      destruct (_ <? _).
      - destruct (close_integer _ _ _) as [st1| |] eqn:Ec; try discriminate.
        cbn [bind] in H. apply IH in H. apply close_integer_output in Ec.
        destruct H as [H1 H2], Ec as [E1 E2]. split; [|lia].
        eapply incl_tran; eassumption.
      - destruct (_ >? _); [discriminate|]. apply IH in H. exact H. }
    destruct cur as [|oldi w k]; [rewrite decode_loop_between in H|]; eapply G; eassumption.
Qed.

Lemma decode_encode_points : forall k digits,
  (List.length digits <= k)%nat ->
  forall S0 st0 sofar S,
  DInv S0 -> encode_run (d_output S0) = Ok st0 ->
  Rel (count_lt 128 (d_output S0)) st0 S0 ->
  e_output st0 = e_output (encode_init (d_output S0)) ++ sofar ->
  decode_loop digits Between S0 = Ok S -> lower_digits digits ->
  Forall (fun c => c < maxInt) (d_output S) -> len (d_output S) <= maxInt ->
  exists st,
    encode_run (d_output S) = Ok st
    /\ e_output st = e_output (encode_init (d_output S)) ++ sofar ++ digits
    /\ basic_of (d_output S) = basic_of (d_output S0).
Proof.
  induction k as [|k IH]; intros digits Hk S0 st0 sofar S HD Hrun HR Eout Hdec Hlow Hmax Hlen.
  - destruct digits; [|simpl in Hk; lia]. simpl in Hdec. inversion Hdec; subst S.
    exists st0. rewrite app_nil_r. now repeat split.
  - destruct digits as [|c r].
    { simpl in Hdec. inversion Hdec; subst S.
      exists st0. rewrite app_nil_r. now repeat split. }
    rewrite decode_loop_between in Hdec.
    pose proof (dinv_i S0 HD) as Hi.
    apply read_integer in Hdec; [|lia|lia].
    destruct Hdec as (q & ds & rest & S1 & Edig & Hshort & Hq & Hfit & Hclose & Hrest & Hcan).
    rewrite Z.mul_1_r in Hclose, Hfit.
    rewrite Edig in Hlow. apply Forall_app in Hlow. destruct Hlow as [Hlds Hlrest].
    specialize (Hcan Hlds).
    destruct (close_integer_split S0 q S1 HD Hq Hclose)
      as (A & x & B & HoutS0 & Hx & HA & HB & Htot & ES1).
    destruct (decode_loop_output _ _ _ _ Hrest) as [Hincl Hlen1].
    assert (HxM : x < maxInt).
    { apply (proj1 (Forall_forall _ _) Hmax). apply Hincl. rewrite ES1.
      cbn [d_output]. apply in_or_app. right. now left. }
    assert (Hlen' : len (A ++ B) < maxInt).
    { rewrite ES1 in Hlen1. cbn [d_output] in Hlen1.
      rewrite len_app, len_cons in Hlen1. rewrite len_app. lia. }
    rewrite HoutS0 in *.
    assert (Hxx : 128 <= x < maxInt) by lia.
    pose proof (insert_total A B x _ st0 S0 HoutS0 HR) as Htot'.
    assert (Eq : insert_q A x st0 = q) by (rewrite <- Htot in Htot'; clear -Htot'; lia).
    destruct (insert_finish A B x (count_lt 128 (A ++ B)) st0) as (st1 & Hfin & Eout1).
    { rewrite Eq. lia. }
    pose proof (insert_DInv A B x HA HB Hxx st0 S0) as HD1.
    pose proof (insert_Rel A B x _ st0 S0 HoutS0 HR st1 Hfin) as HR1.
    assert (ES : insert_state A B x st0 S0 = S1).
    { rewrite ES1. unfold insert_state. now rewrite Eq. }
    rewrite ES in HD1, HR1.
    assert (Hrun1 : encode_run (d_output S1) = Ok st1).
    { rewrite ES1. cbn [d_output].
      rewrite encode_run_insert by (assumption || lia).
      rewrite Hrun. cbn [bind]. exact Hfin. }
    destruct (IH rest ltac:(simpl in Hk, Hshort; lia)
                S1 st1 (sofar ++ ds) S HD1 Hrun1) as (st & Hst & Eout' & Ebasic).
    + rewrite ES1. cbn [d_output]. rewrite count_lt_insert by lia.
      rewrite <- ES1. exact HR1.
    + rewrite ES1. cbn [d_output]. rewrite encode_init_insert by lia.
      rewrite Eout1, Eout, Eq, Hcan.
      destruct HR as (Hbias & _). rewrite Hbias, emit_gvli.
      now rewrite app_assoc.
    + exact Hrest.
    + exact Hlrest.
    + exact Hmax.
    + exact Hlen.
    + exists st. split; [exact Hst|]. split.
      * rewrite Eout', Edig. now rewrite <- app_assoc.
      * rewrite Ebasic, ES1. cbn [d_output]. apply basic_of_insert. lia.
Qed.

(** ** Code units and code points *)

Lemma land_low : forall v, Z.land v 1023 = v mod 1024.
Proof. intros v. change 1023 with (Z.ones 10). now rewrite Z.land_ones by lia. Qed.

Lemma land_high : forall e, 0 <= e < 65536 -> Z.land e 64512 = e / 1024 * 1024.
Proof.
  intros e He. change 64512 with (Z.land 65535 (Z.lnot (Z.ones 10))).
  rewrite Z.land_assoc. change 65535 with (Z.ones 16).
  rewrite Z.land_ones by lia. rewrite Z.mod_small by (change (2 ^ 16) with 65536; lia).
  rewrite <- Z.ldiff_land, Z.ldiff_ones_r by lia.
  rewrite Z.shiftr_div_pow2, Z.shiftl_mul_pow2 by lia. reflexivity.
Qed.

Lemma low_surrogate_test : forall e, 0 <= e < 65536 ->
  (Z.land e 64512 =? 56320) = ((56320 <=? e) && (e <=? 57343)).
Proof.
  intros e He. rewrite land_high by exact He.
  pose proof (Z.div_mod e 1024 ltac:(lia)) as Hd.
  pose proof (Z.mod_pos_bound e 1024 ltac:(lia)) as Hm.
  destruct (Z.eqb_spec (e / 1024 * 1024) 56320),
    (Z.leb_spec 56320 e), (Z.leb_spec e 57343); cbn [andb]; try reflexivity; lia.
Qed.

Lemma pair_value : forall hi lo,
  55296 <= hi <= 56319 -> 56320 <= lo <= 57343 ->
  Z.shiftl (Z.land hi 1023) 10 + Z.land lo 1023 + 65536
  = (hi - 55296) * 1024 + (lo - 56320) + 65536.
Proof.
  intros hi lo Hh Hl. rewrite !land_low, Z.shiftl_mul_pow2 by lia.
  change (2 ^ 10) with 1024.
  replace (hi mod 1024) with (hi - 55296).
  2:{ apply Z.mod_unique_pos with (q := 54); lia. }
  replace (lo mod 1024) with (lo - 56320).
  2:{ apply Z.mod_unique_pos with (q := 55); lia. }
  reflexivity.
Qed.

Lemma ucs2decode_cons2 : forall value extra rest,
  ucs2decode (value :: extra :: rest) =
  if (value >=? 55296) && (value <=? 56319) then
    if Z.land extra 64512 =? 56320 then
      (Z.shiftl (Z.land value 1023) 10 + Z.land extra 1023 + 65536)
        :: ucs2decode rest
    else value :: ucs2decode (extra :: rest)
  else value :: ucs2decode (extra :: rest).
Proof. reflexivity. Qed.

(** The two halves of a step of [ucs2decode], by strong induction on the
    length of the string. *)
Lemma ucs2decode_ind : forall (P : list Z -> Prop),
  P [] ->
  (forall value, P [value]) ->
  (forall value extra rest,
     P rest -> P (extra :: rest) -> P (value :: extra :: rest)) ->
  forall s, P s.
Proof.
  intros P H0 H1 H2 s.
  assert (G : P s /\ forall u, P (u :: s)); [|tauto].
  induction s as [|v r [IH1 IH2]].
  - split; [exact H0|exact H1].
  - split; [apply IH2|]. intros u. apply H2; [exact IH1|apply IH2].
Qed.

Lemma ucs2decode_range : forall s,
  is_string s -> Forall (fun c => 0 <= c <= 1114111) (ucs2decode s).
Proof.
  intros s. induction s as [|value|value extra rest IH1 IH2] using ucs2decode_ind;
    intros Hs.
  - constructor.
  - inversion Hs; subst. constructor; [lia|constructor].
  - inversion Hs as [|? ? Hv Hr]; subst. inversion Hr as [|? ? He Hr']; subst.
    rewrite ucs2decode_cons2.
    destruct ((value >=? 55296) && (value <=? 56319)) eqn:Eh.
    + rewrite low_surrogate_test by exact He.
      destruct ((56320 <=? extra) && (extra <=? 57343)) eqn:El.
      * apply andb_prop in Eh, El. destruct Eh as [E1 E2], El as [E3 E4].
        apply Z.geb_le in E1. apply Z.leb_le in E2, E3, E4.
        constructor; [rewrite pair_value by lia; lia|now apply IH1].
      * constructor; [lia|now apply IH2].
    + constructor; [lia|now apply IH2].
Qed.

Lemma ucs2decode_length : forall s, len (ucs2decode s) <= len s.
Proof.
  intros s. induction s as [|value|value extra rest IH1 IH2] using ucs2decode_ind.
  - reflexivity.
  - reflexivity.
  - rewrite ucs2decode_cons2. rewrite !len_cons in *.
    destruct (_ && _); [destruct (_ =? _)|]; rewrite len_cons; lia.
Qed.

(** The code points below [0x10000] of the decoded string are code units
    of the string. *)
Lemma ucs2decode_basic_in : forall s c,
  is_string s -> In c (ucs2decode s) -> c < 65536 -> In c s.
Proof.
  intros s c. induction s as [|value|value extra rest IH1 IH2] using ucs2decode_ind;
    intros Hs Hin Hc.
  - destruct Hin.
  - exact Hin.
  - inversion Hs as [|? ? Hv Hr]; subst. inversion Hr as [|? ? He Hr']; subst.
    rewrite ucs2decode_cons2 in Hin.
    destruct ((value >=? 55296) && (value <=? 56319)) eqn:Eh.
    + rewrite low_surrogate_test in Hin by exact He.
      destruct ((56320 <=? extra) && (extra <=? 57343)) eqn:El.
      * apply andb_prop in Eh, El. destruct Eh as [E1 E2], El as [E3 E4].
        apply Z.geb_le in E1. apply Z.leb_le in E2, E3, E4.
        destruct Hin as [Hin|Hin].
        -- rewrite pair_value in Hin by lia. lia.
        -- right. right. now apply IH1.
      * destruct Hin as [Hin|Hin]; [now left|right; now apply IH2].
    + destruct Hin as [Hin|Hin]; [now left|right; now apply IH2].
Qed.

(** [String.fromCodePoint] undoes [ucs2decode], lone surrogates or not. *)
Lemma fromCodePoint_ucs2decode : forall s,
  is_string s -> fromCodePoint (ucs2decode s) = Ok s.
Proof.
  intros s. induction s as [|value|value extra rest IH1 IH2] using ucs2decode_ind;
    intros Hs.
  - reflexivity.
  - inversion Hs as [|? ? Hv _]; subst. cbn [ucs2decode fromCodePoint].
    destruct (Z.ltb_spec value 0); [lia|]. destruct (Z.gtb_spec value 1114111); [lia|].
    cbn [orb bind]. destruct (Z.leb_spec value 65535); [reflexivity|lia].
  - inversion Hs as [|? ? Hv Hr]; subst. inversion Hr as [|? ? He Hr']; subst.
    rewrite ucs2decode_cons2.
    assert (Hsingle : fromCodePoint (value :: ucs2decode (extra :: rest))
                      = Ok (value :: extra :: rest)).
    { cbn [fromCodePoint]. rewrite IH2 by exact Hr.
      destruct (Z.ltb_spec value 0); [lia|].
      destruct (Z.gtb_spec value 1114111); [lia|].
      cbn [orb bind]. destruct (Z.leb_spec value 65535); [reflexivity|lia]. }
    destruct ((value >=? 55296) && (value <=? 56319)) eqn:Eh; [|exact Hsingle].
    rewrite low_surrogate_test by exact He.
    destruct ((56320 <=? extra) && (extra <=? 57343)) eqn:El; [|exact Hsingle].
    apply andb_prop in Eh, El. destruct Eh as [E1 E2], El as [E3 E4].
    apply Z.geb_le in E1. apply Z.leb_le in E2, E3, E4.
    rewrite pair_value by lia.
    set (cp := (value - 55296) * 1024 + (extra - 56320) + 65536).
    cbn [fromCodePoint]. rewrite IH1 by exact Hr'.
    destruct (Z.ltb_spec cp 0); [unfold cp in *; lia|].
    destruct (Z.gtb_spec cp 1114111); [unfold cp in *; lia|].
    cbn [orb bind]. destruct (Z.leb_spec cp 65535); [unfold cp in *; lia|].
    replace (cp - 65536) with ((extra - 56320) + (value - 55296) * 1024)
      by (unfold cp; ring).
    rewrite Z.div_add, Z.mod_add by lia.
    rewrite Z.div_small, Z.mod_small by lia.
    do 2 f_equal; [lia|f_equal; lia].
Qed.

Lemma fromCodePoint_range : forall cps u,
  fromCodePoint cps = Ok u -> Forall (fun c => 0 <= c <= 1114111) cps.
Proof.
  induction cps as [|cp r IH]; intros u H; [constructor|].
  cbn [fromCodePoint] in H.
  destruct (Z.ltb_spec cp 0); [discriminate|].
  destruct (Z.gtb_spec cp 1114111); [discriminate|]. cbn [orb] in H.
  destruct (fromCodePoint r) as [u'| |]; try discriminate.
  constructor; [lia|]. eapply IH. reflexivity.
Qed.

Lemma fromCodePoint_cons : forall cp r,
  0 <= cp <= 1114111 ->
  fromCodePoint (cp :: r) =
  (u <- fromCodePoint r ;;
   if cp <=? 65535 then Ok (cp :: u)
   else Ok ((cp - 65536) / 1024 + 55296 :: (cp - 65536) mod 1024 + 56320 :: u)).
Proof.
  intros cp r H. cbn [fromCodePoint].
  destruct (Z.ltb_spec cp 0); [lia|]. destruct (Z.gtb_spec cp 1114111); [lia|].
  reflexivity.
Qed.

(** The head of the string of a non-empty array is a low surrogate exactly
    when the head of the array is. *)
Lemma fromCodePoint_head : forall d r u,
  fromCodePoint (d :: r) = Ok u ->
  exists h t, u = h :: t /\ 0 <= h < 65536
              /\ is_low_surrogate h = is_low_surrogate d.
Proof.
  intros d r u H.
  pose proof (fromCodePoint_range _ _ H) as Hr. inversion Hr as [|? ? Hc Hr']; subst.
  rewrite fromCodePoint_cons in H by exact Hc.
  destruct (fromCodePoint r) as [u'| |]; try discriminate. cbn [bind] in H.
  destruct (Z.leb_spec d 65535); inversion H; subst u; clear H.
  - exists d, u'. repeat split; lia.
  - assert (Hq : 0 <= (d - 65536) / 1024 <= 1023).
    { split; [apply Z.div_pos; lia|].
      apply Z.lt_succ_r. apply Z.div_lt_upper_bound; lia. }
    eexists _, _. split; [reflexivity|]. split; [lia|].
    unfold is_low_surrogate.
    destruct (Z.leb_spec 56320 ((d - 65536) / 1024 + 55296)); [lia|].
    destruct (Z.leb_spec 56320 d); [|reflexivity].
    destruct (Z.leb_spec d 57343); [lia|reflexivity].
Qed.

Lemma high_test : forall v,
  ((v >=? 55296) && (v <=? 56319)) = is_high_surrogate v.
Proof. intros v. unfold is_high_surrogate. now rewrite Z.geb_leb. Qed.

(** One step of [ucs2decode] on the string of [c :: r]. *)
Lemma ucs2decode_step : forall c r u,
  fromCodePoint (c :: r) = Ok u ->
  exists u', fromCodePoint r = Ok u' /\
    ucs2decode u =
    match r with
    | d :: _ =>
        if is_high_surrogate c && is_low_surrogate d
        then (c - 55296) * 1024 + (d - 56320) + 65536 :: ucs2decode (tl u')
        else c :: ucs2decode u'
    | [] => c :: ucs2decode u'
    end.
Proof.
  intros c r u H.
  pose proof (fromCodePoint_range _ _ H) as Hr. inversion Hr as [|? ? Hc Hr']; subst.
  rewrite fromCodePoint_cons in H by exact Hc.
  destruct (fromCodePoint r) as [u'| |] eqn:Er; try discriminate. cbn [bind] in H.
  exists u'. split; [reflexivity|].
  destruct (Z.leb_spec c 65535); inversion H; subst u; clear H.
  - destruct r as [|d r'].
    + inversion Er; subst u'. reflexivity.
    + destruct (fromCodePoint_head _ _ _ Er) as (h & t & -> & Hh & Hlow).
      rewrite ucs2decode_cons2, high_test, low_surrogate_test by exact Hh.
      fold (is_low_surrogate h). rewrite Hlow.
      destruct (is_high_surrogate c) eqn:Ec; cbn [andb]; [|reflexivity].
      destruct (is_low_surrogate d) eqn:Ed; [|reflexivity].
      unfold is_high_surrogate in Ec. unfold is_low_surrogate in Ed.
      apply andb_prop in Ec, Ed. destruct Ec as [E1 E2], Ed as [E3 E4].
      apply Z.leb_le in E1, E2, E3, E4.
      assert (h = d).
      { rewrite fromCodePoint_cons in Er by (inversion Hr'; assumption).
        destruct (fromCodePoint r'); try discriminate. cbn [bind] in Er.
        destruct (Z.leb_spec d 65535); [|lia]. now inversion Er. }
      subst h. rewrite pair_value by lia. reflexivity.
  - pose proof (Z.div_mod (c - 65536) 1024 ltac:(lia)) as Hd.
    pose proof (Z.mod_pos_bound (c - 65536) 1024 ltac:(lia)) as Hm.
    assert (Hq : 0 <= (c - 65536) / 1024 <= 1023).
    { split; [apply Z.div_pos; lia|].
      apply Z.lt_succ_r. apply Z.div_lt_upper_bound; lia. }
    rewrite ucs2decode_cons2, high_test, low_surrogate_test by lia.
    replace (is_high_surrogate ((c - 65536) / 1024 + 55296)) with true
      by (symmetry; apply andb_true_iff; split; apply Z.leb_le; lia).
    replace ((56320 <=? (c - 65536) mod 1024 + 56320)
             && ((c - 65536) mod 1024 + 56320 <=? 57343)) with true
      by (symmetry; apply andb_true_iff; split; apply Z.leb_le; lia).
    rewrite pair_value by lia.
    replace (is_high_surrogate c) with false.
    2:{ symmetry. apply andb_false_iff. right. apply Z.leb_gt. lia. }
    cbn [andb]. replace (((c - 65536) / 1024 + 55296 - 55296) * 1024 +
      ((c - 65536) mod 1024 + 56320 - 56320) + 65536) with c by lia.
    now destruct r.
Qed.

(** [ucs2decode] undoes [String.fromCodePoint] exactly on the arrays in
    which no high surrogate is followed by a low one. *)
Lemma ucs2decode_spelled : forall codePoints u,
  fromCodePoint codePoints = Ok u ->
  (ucs2decode u = codePoints <-> no_split_pair codePoints = true).
Proof.
  induction codePoints as [|c r IH]; intros u H.
  - inversion H; subst. split; reflexivity.
  - destruct (ucs2decode_step _ _ _ H) as (u' & Hu' & E). rewrite E. clear E.
    specialize (IH u' Hu'). cbn [no_split_pair].
    destruct r as [|d r'].
    + cbn [andb]. split; [intros _; reflexivity|intros _].
      inversion Hu'; subst. reflexivity.
    + destruct (is_high_surrogate c && is_low_surrogate d) eqn:Ep; cbn [negb andb].
      * split; [|discriminate]. intros Hx. exfalso.
        apply andb_prop in Ep. destruct Ep as [Ec Ed].
        unfold is_high_surrogate in Ec. unfold is_low_surrogate in Ed.
        apply andb_prop in Ec, Ed. destruct Ec as [E1 E2], Ed as [E3 E4].
        apply Z.leb_le in E1, E2, E3, E4. inversion Hx. lia.
      * rewrite <- IH. split; [intros Hx; now inversion Hx|intros ->; reflexivity].
Qed.

(** The spread call is the built-in on the arrays that fit. *)
Lemma fromCodePoint_spread_ok : forall codePoints,
  len codePoints <= maxArguments ->
  fromCodePoint_spread codePoints = fromCodePoint codePoints.
Proof.
  intros cps H. unfold fromCodePoint_spread.
  destruct (Z.gtb_spec (len cps) maxArguments); [lia|reflexivity].
Qed.

Lemma fromCodePoint_spread_inv : forall codePoints u,
  fromCodePoint_spread codePoints = Ok u ->
  fromCodePoint codePoints = Ok u /\ len codePoints <= maxArguments.
Proof.
  intros cps u H. unfold fromCodePoint_spread in H.
  destruct (Z.gtb_spec (len cps) maxArguments); [discriminate|].
  split; [exact H|lia].
Qed.

Lemma fromCodePoint_spread_over : forall codePoints,
  maxArguments < len codePoints ->
  fromCodePoint_spread codePoints = Throw CallStackExceeded.
Proof.
  intros cps H. unfold fromCodePoint_spread.
  destruct (Z.gtb_spec (len cps) maxArguments); [reflexivity|lia].
Qed.

(** ** The basic prefix of the input of [decode] *)

Lemma lastIndexOf_absent : forall s c, ~ In c s -> lastIndexOf s c = -1.
Proof.
  induction s as [|u r IH]; intros c H; [reflexivity|].
  cbn [lastIndexOf]. rewrite IH by (intros Hin; apply H; now right).
  cbn. destruct (Z.eqb_spec u c); [|reflexivity].
  exfalso. apply H. now left.
Qed.

Lemma lastIndexOf_last : forall a c t,
  ~ In c t -> lastIndexOf (a ++ c :: t) c = len a.
Proof.
  induction a as [|u a IH]; intros c t H.
  - cbn [app lastIndexOf]. rewrite lastIndexOf_absent by exact H.
    cbn. now rewrite Z.eqb_refl.
  - cbn [app lastIndexOf]. rewrite IH by exact H. rewrite len_cons.
    pose proof (len_nonneg a).
    destruct (Z.geb_spec (len a) 0); [reflexivity|lia].
Qed.

Lemma lastIndexOf_cases : forall s c,
  (lastIndexOf s c = -1 /\ ~ In c s)
  \/ exists a t, s = a ++ c :: t /\ ~ In c t /\ lastIndexOf s c = len a.
Proof.
  induction s as [|u r IH]; intros c.
  - left. split; [reflexivity|intros []].
  - destruct (IH c) as [[E Hn]|(a & t & -> & Hn & E)].
    + destruct (Z.eq_dec u c) as [->|Hne].
      * right. exists [], r. split; [reflexivity|]. split; [exact Hn|].
        now apply (lastIndexOf_last []).
      * left. split.
        -- cbn [lastIndexOf]. rewrite E. cbn.
           destruct (Z.eqb_spec u c); [congruence|reflexivity].
        -- intros [H|H]; [congruence|now apply Hn].
    + right. exists (u :: a), t. split; [reflexivity|]. split; [exact Hn|].
      now apply (lastIndexOf_last (u :: a)).
Qed.

Lemma copy_basic_ok : forall prefix output,
  Forall (fun c => c < 128) prefix ->
  copy_basic prefix output = Ok (output ++ prefix).
Proof.
  induction prefix as [|c r IH]; intros output H.
  - now rewrite app_nil_r.
  - inversion H as [|? ? Hc Hr]; subst. cbn [copy_basic].
    destruct (Z.geb_spec c 128); [lia|]. rewrite IH by exact Hr.
    now rewrite <- app_assoc.
Qed.

Lemma copy_basic_inv : forall prefix output r,
  copy_basic prefix output = Ok r ->
  Forall (fun c => c < 128) prefix /\ r = output ++ prefix.
Proof.
  induction prefix as [|c l IH]; intros output r H.
  - inversion H. split; [constructor|now rewrite app_nil_r].
  - cbn [copy_basic] in H. destruct (Z.geb_spec c 128); [discriminate|].
    apply IH in H. destruct H as [H1 H2]. split; [now constructor|].
    rewrite H2. now rewrite <- app_assoc.
Qed.

Lemma lower_digits_no_delimiter : forall digits,
  lower_digits digits -> ~ In delimiter digits.
Proof.
  intros digits H Hin. apply (proj1 (Forall_forall _ _) H) in Hin.
  now apply is_lower_digit_not_delimiter in Hin.
Qed.

(** [decode_points] on a basic prefix, a delimiter and digits, and on
    digits alone. *)
Lemma decode_points_delimited : forall basic digits,
  basic <> [] -> Forall (fun c => c < 128) basic -> ~ In delimiter digits ->
  decode_points (basic ++ delimiter :: digits) =
  (st <- decode_loop digits Between (decode_init basic) ;; Ok (d_output st)).
Proof.
  intros basic digits Hne Hb Hd. unfold decode_points. cbv zeta.
  rewrite lastIndexOf_last by exact Hd.
  assert (Hl : 0 < len basic).
  { destruct basic; [congruence|]. rewrite len_cons. pose proof (len_nonneg basic). lia. }
  destruct (Z.ltb_spec (len basic) 0); [lia|].
  destruct (Z.gtb_spec (len basic) 0); [|lia].
  rewrite firstn_len_app. rewrite copy_basic_ok by exact Hb. cbn [bind app].
  replace (basic ++ delimiter :: digits) with ((basic ++ [delimiter]) ++ digits)
    by (now rewrite <- app_assoc).
  replace (len basic + 1) with (len (basic ++ [delimiter]))
    by (rewrite len_app; reflexivity).
  rewrite skipn_len_app. reflexivity.
Qed.

Lemma decode_points_digits : forall digits,
  ~ In delimiter digits ->
  decode_points digits =
  (st <- decode_loop digits Between (decode_init []) ;; Ok (d_output st)).
Proof.
  intros digits Hd. unfold decode_points. cbv zeta.
  rewrite lastIndexOf_absent by exact Hd. reflexivity.
Qed.

(** ** Arrays of basic code points *)

Lemma encode_run_basic : forall cps,
  Forall (fun c => c < 128) cps ->
  encode_run cps = Ok (encode_init cps)
  /\ Rel (count_lt 128 cps) (encode_init cps) (decode_init cps).
Proof.
  intros cps Hb. split.
  - rewrite encode_run_eq. apply encode_main_done.
    rewrite encode_init_basic. cbn [e_handled].
    rewrite (count_lt_all 128 cps Hb). lia.
  - rewrite encode_init_basic. unfold Rel, decode_init.
    cbn [e_n e_delta e_bias e_handled e_output d_i d_n d_bias d_output].
    rewrite (count_lt_all 128 cps Hb), Z.eqb_refl.
    repeat split; try reflexivity; try lia; unfold initialN; ring.
Qed.

Lemma map_stringFromCharCode : forall l,
  Forall (fun c => 0 <= c < 65536) l -> map stringFromCharCode l = l.
Proof.
  intros l H. induction H as [|c r Hc _ IH]; [reflexivity|].
  cbn [map]. now rewrite stringFromCharCode_id, IH.
Qed.

Lemma basic_of_below : forall cps, Forall (fun c => c < 128) (basic_of cps).
Proof.
  intros cps. apply Forall_forall. intros c Hc. unfold basic_of in Hc.
  apply filter_In in Hc. destruct Hc as [_ Hc]. now apply Z.ltb_lt.
Qed.

Lemma basic_of_in : forall cps c, In c (basic_of cps) -> In c cps.
Proof. intros cps c Hc. unfold basic_of in Hc. now apply filter_In in Hc. Qed.

(** The output of [encode] when the main loop is entered. *)
Lemma encode_init_output : forall cps,
  Forall (fun c => 0 <= c) cps ->
  e_output (encode_init cps) =
  if count_lt 128 cps =? 0 then [] else basic_of cps ++ [delimiter].
Proof.
  intros cps H. rewrite encode_init_basic. cbn [e_output].
  rewrite map_stringFromCharCode.
  - destruct (Z.eqb_spec (count_lt 128 cps) 0) as [E|E]; [|reflexivity].
    unfold count_lt in E. fold (basic_of cps) in E.
    destruct (basic_of cps); [reflexivity|]. rewrite len_cons in E.
    pose proof (len_nonneg l). lia.
  - apply Forall_forall. intros c Hc.
    pose proof (proj1 (Forall_forall _ _) (basic_of_below cps) c Hc) as Hb.
    apply basic_of_in in Hc. apply (proj1 (Forall_forall _ _) H) in Hc.
    cbv beta in Hb, Hc. lia.
Qed.

Lemma decode_points_prefix : forall basic digits,
  basic <> [] -> ~ In delimiter digits ->
  decode_points (basic ++ delimiter :: digits) =
  (output <- copy_basic basic [] ;;
   st <- decode_loop digits Between (decode_init output) ;; Ok (d_output st)).
Proof.
  intros basic digits Hne Hd. unfold decode_points. cbv zeta.
  rewrite lastIndexOf_last by exact Hd.
  assert (Hl : 0 < len basic).
  { destruct basic; [congruence|]. rewrite len_cons. pose proof (len_nonneg basic). lia. }
  destruct (Z.ltb_spec (len basic) 0); [lia|].
  destruct (Z.gtb_spec (len basic) 0); [|lia].
  rewrite firstn_len_app.
  replace (basic ++ delimiter :: digits) with ((basic ++ [delimiter]) ++ digits)
    by (now rewrite <- app_assoc).
  replace (len basic + 1) with (len (basic ++ [delimiter]))
    by (rewrite len_app; reflexivity).
  rewrite skipn_len_app. reflexivity.
Qed.

Lemma decode_points_leading_delimiter : forall digits,
  ~ In delimiter digits ->
  decode_points (delimiter :: digits) = Throw (CodecError invalid_input).
Proof.
  intros digits Hd. unfold decode_points. cbv zeta.
  change (delimiter :: digits) with ([] ++ delimiter :: digits).
  rewrite (lastIndexOf_last [] delimiter digits Hd). reflexivity.
Qed.

Lemma close_integer_length : forall st oldi i st1,
  close_integer st oldi i = Ok st1 ->
  len (d_output st1) = len (d_output st) + 1.
Proof.
  intros st oldi i st1 H. unfold close_integer in H. cbv zeta in H.
  destruct (_ >? _); [discriminate|]. inversion H; subst st1; clear H.
  cbn [d_output]. unfold splice. set (k := Z.to_nat _).
  assert (E : len (d_output st)
              = len (firstn k (d_output st)) + len (skipn k (d_output st)))
    by (now rewrite <- len_app, firstn_skipn).
  rewrite len_app, len_cons. lia.
Qed.

Lemma decode_loop_length : forall input cur st S,
  decode_loop input cur st = Ok S ->
  len (d_output S) <= len (d_output st) + len input.
Proof.
  induction input as [|c r IH]; intros cur st S H.
  - destruct cur; [|discriminate]. inversion H; subst. rewrite len_nil. lia.
  - assert (G : forall oldi w k,
               decode_loop (c :: r) (Within oldi w k) st = Ok S ->
               len (d_output S) <= len (d_output st) + len (c :: r)).
    { clear H. intros oldi w k H. rewrite decode_loop_within in H. cbv zeta in H.
      rewrite len_cons.
      destruct (_ >=? _); [discriminate|].
      destruct (_ >? _); [discriminate|].
      destruct (_ <? _).
      - destruct (close_integer _ _ _) as [st1| |] eqn:Ec; try discriminate.
        cbn [bind] in H. apply IH in H. apply close_integer_length in Ec. lia.
      - destruct (_ >? _); [discriminate|]. apply IH in H.
        cbn [d_output] in H. lia. }
    destruct cur as [|oldi w k]; [rewrite decode_loop_between in H|]; eapply G; eassumption.
Qed.

(** ** [decode] then [encode] *)

Lemma decode_encode_digits : forall basic digits S,
  Forall (fun c => c < 128) basic ->
  decode_loop digits Between (decode_init basic) = Ok S ->
  lower_digits digits ->
  Forall (fun c => 0 <= c <= 1114111) (d_output S) ->
  len basic + len digits <= maxInt ->
  encode_points (d_output S) =
  Ok ((if len basic =? 0 then [] else basic ++ [delimiter]) ++ digits).
Proof.
  intros basic digits S Hb Hdec Hlow Hr Hlen.
  destruct (encode_run_basic basic Hb) as [Hrun HR].
  pose proof (decode_loop_length _ _ _ _ Hdec) as HlenS.
  cbn [decode_init d_output] in HlenS.
  destruct (decode_encode_points (List.length digits) digits (le_n _)
              (decode_init basic) (encode_init basic) [] S)
    as (st & Hst & Eout & Ebasic).
  - now apply decode_init_DInv.
  - exact Hrun.
  - exact HR.
  - now rewrite app_nil_r.
  - exact Hdec.
  - exact Hlow.
  - eapply Forall_impl; [|exact Hr]. cbv beta. unfold maxInt. intros; lia.
  - lia.
  - unfold encode_points. rewrite Hst. cbn [bind]. f_equal.
    rewrite Eout. cbn [app]. f_equal.
    rewrite encode_init_output
      by (eapply Forall_impl; [|exact Hr]; cbv beta; intros; lia).
    cbn [decode_init d_output] in Ebasic.
    unfold count_lt. fold (basic_of (d_output S)).
    rewrite Ebasic, (basic_of_all basic Hb). reflexivity.
Qed.

Lemma decode_encode_strings : forall p cps u,
  len p <= maxInt ->
  decode_points p = Ok cps -> fromCodePoint cps = Ok u ->
  no_split_pair cps = true ->
  lower_digits (after_last_delimiter p) ->
  encode u = Ok p.
Proof.
  intros p cps u Hlen Hpoints Hu Hns Hlow.
  pose proof (fromCodePoint_range cps u Hu) as Hr.
  unfold encode. rewrite (proj2 (ucs2decode_spelled cps u Hu) Hns).
  unfold after_last_delimiter in Hlow.
  destruct (lastIndexOf_cases p delimiter) as [[E Hn]|(a & t & Ep & Hn & E)].
  - rewrite E in Hlow. cbn [Z.add Z.to_nat skipn] in Hlow.
    rewrite decode_points_digits in Hpoints by exact Hn.
    destruct (decode_loop p Between (decode_init [])) as [S| |] eqn:Hdec;
      try discriminate.
    cbn [bind] in Hpoints. inversion Hpoints; subst cps.
    rewrite (decode_encode_digits [] p S); try assumption.
    + reflexivity.
    + constructor.
  - subst p. rewrite E in Hlow.
    replace (a ++ delimiter :: t) with ((a ++ [delimiter]) ++ t) in Hlow
      by (now rewrite <- app_assoc).
    replace (len a + 1) with (len (a ++ [delimiter])) in Hlow
      by (rewrite len_app; reflexivity).
    rewrite skipn_len_app in Hlow.
    destruct a as [|c a'].
    + cbn [app] in Hpoints. rewrite decode_points_leading_delimiter in Hpoints
        by exact Hn. discriminate.
    + rewrite decode_points_prefix in Hpoints by (exact Hn || discriminate).
      destruct (copy_basic (c :: a') []) as [output| |] eqn:Ecopy; try discriminate.
      apply copy_basic_inv in Ecopy. destruct Ecopy as [Hb Eo].
      cbn [app] in Eo. subst output. cbn [bind] in Hpoints.
      destruct (decode_loop t Between (decode_init (c :: a'))) as [S| |] eqn:Hdec;
        try discriminate.
      cbn [bind] in Hpoints. inversion Hpoints; subst cps.
      rewrite (decode_encode_digits (c :: a') t S); try assumption.
      * rewrite len_cons. pose proof (len_nonneg a').
        destruct (Z.eqb_spec (len a' + 1) 0); [lia|].
        now rewrite <- app_assoc.
      * rewrite len_app, !len_cons in Hlen. rewrite len_cons. lia.
Qed.

(** C2, as the code has it.  For every input [p] of at most [2^31 - 1]
    characters that [decode] accepts, whose characters after the last
    delimiter are lowercase letters and decimal digits, and among whose
    decoded code points no high surrogate is followed by a low surrogate,
    [encode (decode p)] is [p]. *)
Theorem decode_encode_roundtrip : forall p cps u,
  len p <= maxInt ->
  lower_digits (after_last_delimiter p) ->
  decode_points p = Ok cps ->
  no_split_pair cps = true ->
  decode p = Ok u ->
  encode u = Ok p.
Proof.
  intros p cps u Hlen Hlow Hpoints Hns Hdec.
  unfold decode in Hdec. rewrite Hpoints in Hdec. cbn [bind] in Hdec.
  apply fromCodePoint_spread_inv in Hdec. destruct Hdec as [Hdec _].
  exact (decode_encode_strings p cps u Hlen Hpoints Hdec Hns Hlow).
Qed.

Lemma decode_encode_roundtrip_witness :
  len (units "ib9b") <= maxInt
  /\ lower_digits (after_last_delimiter (units "ib9b"))
  /\ decode_points (units "ib9b") = Ok [55296]
  /\ no_split_pair [55296] = true
  /\ decode (units "ib9b") = Ok [55296]
  /\ encode [55296] = Ok (units "ib9b").
Proof.
  assert (H1 : len (units "ib9b") <= maxInt) by (vm_compute; discriminate).
  assert (H2 : lower_digits (after_last_delimiter (units "ib9b")))
    by (vm_compute; repeat constructor).
  assert (H3 : decode_points (units "ib9b") = Ok [55296])
    by (vm_compute; reflexivity).
  assert (H4 : no_split_pair [55296] = true) by reflexivity.
  assert (H5 : decode (units "ib9b") = Ok [55296])
    by (vm_compute; reflexivity).
  repeat (split; [assumption|]).
  exact (decode_encode_roundtrip _ _ _ H1 H2 H3 H4 H5).
Defined.

(** The input ["ib9b66e"] is made of lowercase letters and digits, and
    [decode] accepts it: it decodes to the two code points U+D800 and
    U+DC00, which the string returned holds as one surrogate pair, so
    that [encode] reads U+10000 and returns ["2n7c"].  The input ["z"] is
    not accepted by [decode]. *)
Lemma decode_encode_differs :
  lower_digits (units "ib9b66e")
  /\ decode_points (units "ib9b66e") = Ok [55296; 56320]
  /\ decode (units "ib9b66e") = Ok [55296; 56320]
  /\ (u <- decode (units "ib9b66e") ;; encode u) = Ok (units "2n7c")
  /\ (u <- decode (units "ib9b66e") ;; encode u) <> Ok (units "ib9b66e")
  /\ (u <- decode (units "z") ;; encode u) = Throw (CodecError invalid_input).
Proof.
  split; [vm_compute; repeat constructor|].
  vm_compute. repeat split; try reflexivity. discriminate.
Qed.

(** ** The ways in which [encode] and [decode] end *)

Lemma encode_main_throws : forall f l bl st e,
  encode_main f l bl st = Throw e -> e = CodecError overflow.
Proof.
  induction f as [|f IH]; intros l bl st e H.
  - cbn [encode_main] in H. destruct (_ <? _); discriminate.
  - destruct (Z.lt_ge_cases (e_handled st) (len l)) as [Hlt|Hge].
    + rewrite encode_main_step in H by exact Hlt. cbv zeta in H.
      destruct (_ >? _); [now inversion H|].
      destruct (encode_scan _ _ _ _) as [st'| |] eqn:Es; cbn [bind] in H.
      * eapply IH; eassumption.
      * inversion H; subst. eapply encode_scan_throws; eassumption.
      * discriminate.
    + rewrite encode_main_done in H by exact Hge. discriminate.
Qed.

(** Every iteration of the main loop of [encode] handles a code point:
    the fuel given to it is enough. *)
Lemma encode_main_fuel : forall cps bl,
  Forall (fun c => c < maxInt) cps ->
  forall f st,
  e_handled st = count_lt (e_n st) cps ->
  len cps - e_handled st <= Z.of_nat f ->
  encode_main f cps bl st <> OutOfFuel.
Proof.
  intros cps bl Hmax. induction f as [|f IH]; intros st Hh Hf;
    (destruct (Z.lt_ge_cases (e_handled st) (len cps)) as [Hlt|Hge];
     [|rewrite encode_main_done by exact Hge; discriminate]).
  - simpl Z.of_nat in Hf. lia.
  - rewrite encode_main_step by exact Hlt. cbv zeta.
    destruct (_ >? _); [discriminate|].
    destruct (count_lt_missing (e_n st) cps) as (e & He & Hne); [lia|].
    pose proof (proj1 (Forall_forall _ _) Hmax e He) as HeM. cbv beta in HeM.
    destruct (find_min_found cps (e_n st) e He ltac:(lia)) as (Hin & Hr & Hmin).
    set (m := find_min cps (e_n st) maxInt) in *.
    destruct (encode_scan _ _ _ _) as [st'| |] eqn:Es; cbn [bind].
    + apply encode_scan_facts in Es.
      cbn [e_n e_delta e_bias e_handled e_output] in Es.
      destruct Es as (F1 & F2 & _).
      pose proof (count_eq_pos m cps Hin) as Hpos.
      apply IH; cbn [e_n e_delta e_bias e_handled e_output].
      * rewrite F1, count_lt_succ, F2, Hh.
        rewrite (count_lt_gap (e_n st) m cps) by (lia || exact Hmin). reflexivity.
      * lia.
    + discriminate.
    + exfalso. eapply encode_scan_fuel; eassumption.
Qed.

Lemma encode_run_outcome : forall cps,
  Forall (fun c => c < maxInt) cps ->
  (exists st, encode_run cps = Ok st)
  \/ encode_run cps = Throw (CodecError overflow).
Proof.
  intros cps Hmax. destruct (encode_run cps) as [st|e|] eqn:E.
  - left. now exists st.
  - right. rewrite encode_run_eq in E. apply encode_main_throws in E. now subst e.
  - exfalso. rewrite encode_run_eq in E. revert E. apply encode_main_fuel.
    + exact Hmax.
    + rewrite encode_init_basic. reflexivity.
    + rewrite encode_init_basic. cbn [e_handled].
      pose proof (count_lt_bounds 128 cps). unfold len. lia.
Qed.

Lemma encode_outcome : forall s,
  is_string s ->
  (exists p, encode s = Ok p) \/ encode s = Throw (CodecError overflow).
Proof.
  intros s Hs. unfold encode, encode_points.
  destruct (encode_run_outcome (ucs2decode s)) as [[st E]|E].
  - eapply Forall_impl; [|exact (ucs2decode_range s Hs)].
    cbv beta. unfold maxInt. intros; lia.
  - left. rewrite E. now eexists.
  - right. now rewrite E.
Qed.

(** The main loop of [decode] returns an array of non-negative numbers, or
    throws one of the errors of the codec. *)
Lemma decode_loop_outcome : forall input cur st,
  Forall (fun c => 0 <= c) (d_output st) -> 0 <= d_i st -> 0 <= d_n st ->
  match cur with Between => True | Within _ w _ => 1 <= w end ->
  (exists S, decode_loop input cur st = Ok S
             /\ Forall (fun c => 0 <= c) (d_output S))
  \/ decode_loop input cur st = Throw (CodecError invalid_input)
  \/ decode_loop input cur st = Throw (CodecError overflow).
Proof.
  induction input as [|c r IH]; intros cur st Ho Hi Hn Hw.
  - destruct cur; [left; now exists st|right; now left].
  - assert (G : forall oldi w k, 1 <= w ->
      (exists S, decode_loop (c :: r) (Within oldi w k) st = Ok S
                 /\ Forall (fun c => 0 <= c) (d_output S))
      \/ decode_loop (c :: r) (Within oldi w k) st = Throw (CodecError invalid_input)
      \/ decode_loop (c :: r) (Within oldi w k) st = Throw (CodecError overflow)).
    { intros oldi w k Hw1. rewrite decode_loop_within. cbv zeta.
      pose proof (basicToDigit_range c) as Hd.
      pose proof (threshold_range k (d_bias st)) as Ht.
      destruct (_ >=? _); [right; now left|].
      destruct (_ >? _); [right; now right|].
      destruct (_ <? _).
      - unfold close_integer. cbv zeta.
        set (i := d_i st + basicToDigit c * w).
        assert (Hi' : 0 <= i) by (unfold i; nia).
        set (out := len (d_output st) + 1).
        assert (Hout : 0 < out) by (unfold out; pose proof (len_nonneg (d_output st)); lia).
        destruct (_ >? _); [right; now right|]. cbn [bind].
        assert (Hq : 0 <= i / out) by (apply Z.div_pos; lia).
        pose proof (Z.mod_pos_bound i out Hout) as Hm.
        apply IH; cbn [d_i d_n d_bias d_output]; try lia; try exact I.
        unfold splice. apply Forall_app. split.
        + rewrite <- (firstn_skipn (Z.to_nat (i mod out)) (d_output st)) in Ho.
          apply Forall_app in Ho. tauto.
        + constructor; [lia|].
          rewrite <- (firstn_skipn (Z.to_nat (i mod out)) (d_output st)) in Ho.
          apply Forall_app in Ho. tauto.
      - destruct (_ >? _); [right; now right|].
        apply IH; cbn [d_i d_n d_bias d_output]; try assumption; unfold base; nia. }
    destruct cur as [|oldi w k]; [rewrite decode_loop_between|]; apply G; lia.
Qed.

Lemma copy_basic_outcome : forall prefix output,
  copy_basic prefix output = Ok (output ++ prefix)
  \/ copy_basic prefix output = Throw (CodecError not_basic).
Proof.
  induction prefix as [|c r IH]; intros output.
  - left. now rewrite app_nil_r.
  - cbn [copy_basic]. destruct (c >=? 128); [now right|].
    destruct (IH (output ++ [c])) as [E|E]; rewrite E; [left|now right].
    now rewrite <- app_assoc.
Qed.

Lemma decode_points_outcome : forall input,
  is_string input ->
  (exists cps, decode_points input = Ok cps /\ Forall (fun c => 0 <= c) cps)
  \/ exists type, decode_points input = Throw (CodecError type).
Proof.
  intros input Hs. unfold decode_points. cbv zeta.
  set (basic := if lastIndexOf input delimiter <? 0 then 0
                else lastIndexOf input delimiter).
  destruct (copy_basic_outcome (firstn (Z.to_nat basic) input) []) as [E|E];
    rewrite E; cbn [bind app]; [|right; now eexists].
  match goal with
  | |- context [decode_loop ?i ?c ?s] =>
      destruct (decode_loop_outcome i c s) as [(S & ES & HS)|[ES|ES]]
  end; cbn [d_i d_n d_bias d_output]; try (unfold initialN; lia); try exact I.
  - apply Forall_firstn_of. eapply Forall_impl; [|exact Hs]. cbv beta. intros; lia.
  - left. rewrite ES. cbn [bind]. now exists (d_output S).
  - right. rewrite ES. now eexists.
  - right. rewrite ES. now eexists.
Qed.

Lemma fromCodePoint_outcome : forall cps,
  (exists u, fromCodePoint cps = Ok u)
  \/ exists cp, fromCodePoint cps = Throw (InvalidCodePoint cp)
                /\ In cp cps /\ (cp < 0 \/ 1114111 < cp).
Proof.
  induction cps as [|cp r IH]; [left; now eexists|].
  cbn [fromCodePoint].
  destruct (Z.ltb_spec cp 0); cbn [orb].
  - right. exists cp. split; [reflexivity|]. split; [now left|lia].
  - destruct (Z.gtb_spec cp 1114111).
    + right. exists cp. split; [reflexivity|]. split; [now left|lia].
    + destruct IH as [[u E]|(cp' & E & Hin & Hcp)]; rewrite E; cbn [bind].
      * left. destruct (cp <=? 65535); now eexists.
      * right. exists cp'. split; [reflexivity|]. split; [now right|exact Hcp].
Qed.

(** [decode] builds at most one code point for each character of its
    input. *)
Lemma decode_points_length : forall input cps,
  decode_points input = Ok cps -> len cps <= len input.
Proof.
  intros input cps Ep.
  destruct (lastIndexOf_cases input delimiter)
    as [[E Hn]|(a & t & -> & Hn & E)].
  - rewrite decode_points_digits in Ep by exact Hn.
    destruct (decode_loop _ _ _) as [S| |] eqn:El; try discriminate.
    inversion Ep; subst cps.
    pose proof (decode_loop_length _ _ _ _ El) as HL.
    cbn [decode_init d_output] in HL. rewrite len_nil in HL. lia.
  - destruct a as [|a0 a].
    + cbn [app] in Ep. rewrite decode_points_leading_delimiter in Ep by exact Hn.
      discriminate.
    + rewrite decode_points_prefix in Ep; [|discriminate|exact Hn].
      destruct (copy_basic _ _) as [out| |] eqn:Ec; try discriminate.
      cbn [bind] in Ep. apply copy_basic_inv in Ec. destruct Ec as [_ ->].
      destruct (decode_loop _ _ _) as [S| |] eqn:El; try discriminate.
      inversion Ep; subst cps.
      pose proof (decode_loop_length _ _ _ _ El) as HL.
      cbn [decode_init d_output] in HL.
      change ([] ++ a0 :: a) with (a0 :: a) in HL.
      rewrite len_app, (len_cons delimiter). lia.
Qed.

(** C4, as the code has it.  [encode] returns or throws the [overflow]
    error.  [decode] returns, throws one of the three errors of the codec,
    or lets through a [RangeError] of the runtime: that of the spread
    call, when it has decoded more code points than the call stack takes,
    and otherwise that of [String.fromCodePoint], when a code point it
    has decoded is above U+10FFFF.  Neither runs out of fuel, and each of
    the three errors carries the message of [PUNYCODE_ERRORS]. *)
Theorem codec_outcomes : forall input,
  is_string input ->
  ((exists p, encode input = Ok p)
   \/ encode input = Throw (CodecError overflow))
  /\ ((exists u, decode input = Ok u)
      \/ (exists type, decode input = Throw (CodecError type))
      \/ (exists cps cp,
            decode_points input = Ok cps /\ len cps <= maxArguments
            /\ In cp cps /\ 1114111 < cp
            /\ decode input = Throw (InvalidCodePoint cp))
      \/ (exists cps,
            decode_points input = Ok cps
            /\ maxArguments < len cps <= len input
            /\ decode input = Throw CallStackExceeded))
  /\ error_message overflow = "Overflow: input needs wider integers to process"%string
  /\ error_message not_basic = "Illegal input >= 0x80 (not a basic code point)"%string
  /\ error_message invalid_input = "Invalid input"%string.
Proof.
  intros input Hs. split; [now apply encode_outcome|].
  split; [|repeat split].
  unfold decode.
  destruct (decode_points_outcome input Hs) as [(cps & E & Hpos)|[type E]];
    rewrite E; cbn [bind].
  - destruct (Z.le_gt_cases (len cps) maxArguments) as [Hfit|Hover].
    + rewrite fromCodePoint_spread_ok by exact Hfit.
      destruct (fromCodePoint_outcome cps) as [[u Eu]|(cp & Ecp & Hin & Hcp)].
      * left. now exists u.
      * right. right. left. exists cps, cp. repeat split; try assumption.
        pose proof (proj1 (Forall_forall _ _) Hpos cp Hin) as H0.
        cbv beta in H0. lia.
    + right. right. right. exists cps.
      pose proof (decode_points_length input cps E).
      repeat split; try assumption; try lia.
      now apply fromCodePoint_spread_over.
  - right. left. now exists type.
Qed.

Lemma codec_outcomes_witness :
  is_string (units "999999b")
  /\ decode (units "999999b") = Throw (InvalidCodePoint 59885513)
  /\ ((exists p, encode (units "999999b") = Ok p)
      \/ encode (units "999999b") = Throw (CodecError overflow)).
Proof.
  assert (H : is_string (units "999999b")) by (repeat constructor; lia).
  split; [exact H|]. split; [vm_compute; reflexivity|].
  exact (proj1 (codec_outcomes (units "999999b") H)).
Defined.

(** [decode("999999b")] fails in a fourth way: the digits decode to the
    number 59885513, which is not a code point, and
    [String.fromCodePoint] throws its own [RangeError]. *)
Lemma decode_invalid_code_point :
  is_string (units "999999b")
  /\ decode_points (units "999999b") = Ok [59885513]
  /\ decode (units "999999b") = Throw (InvalidCodePoint 59885513)
  /\ (forall type, decode (units "999999b") <> Throw (CodecError type)).
Proof.
  split; [repeat constructor; lia|].
  split; [vm_compute; reflexivity|].
  split; [vm_compute; reflexivity|].
  intros type. vm_compute. discriminate.
Qed.

(** ** [mapDomain] on ASCII inputs *)

Lemma mapDomain_eq : forall input callback,
  mapDomain input callback =
  (encoded <- map_array (domain_labels input) callback ;;
   Ok (local_part input ++ join 46 encoded)).
Proof. reflexivity. Qed.

Lemma split_incl : forall sep s part,
  In part (split sep s) -> incl part s.
Proof.
  intros sep s. induction s as [|u r IH]; intros part H.
  - destruct H as [<-|[]]. apply incl_refl.
  - cbn [split] in H. destruct (u =? sep).
    + destruct H as [<-|H]; [intros x []|]. apply incl_tl. now apply IH.
    + destruct (split sep r) as [|p ps] eqn:E.
      * destruct H as [<-|[]]. intros x [<-|[]]. now left.
      * destruct H as [<-|H].
        -- intros x [<-|Hx]; [now left|right]. apply (IH p); [now left|exact Hx].
        -- apply incl_tl. apply IH. now right.
Qed.

Lemma split_len : forall sep s part,
  In part (split sep s) -> len part <= len s.
Proof.
  intros sep s. induction s as [|u r IH]; intros part H.
  - destruct H as [<-|[]]. lia.
  - cbn [split] in H. rewrite len_cons. destruct (u =? sep).
    + destruct H as [<-|H]; [pose proof (len_nonneg r); rewrite len_nil; lia|].
      apply IH in H. lia.
    + destruct (split sep r) as [|p ps] eqn:E.
      * destruct H as [<-|[]]. rewrite len_cons, len_nil. pose proof (len_nonneg r). lia.
      * destruct H as [<-|H].
        -- rewrite len_cons. specialize (IH p (or_introl eq_refl)). lia.
        -- specialize (IH part (or_intror H)). lia.
Qed.

Lemma split_one : forall sep s p, split sep s = [p] -> p = s /\ ~ In sep s.
Proof.
  intros sep s p H. pose proof (join_split sep s) as J. rewrite H in J.
  cbn [join] in J. subst p. split; [reflexivity|].
  pose proof (split_parts_absent sep s) as HF. rewrite H in HF.
  now inversion HF.
Qed.

Lemma split_two : forall sep s p0 p1,
  split sep s = [p0; p1] ->
  s = p0 ++ sep :: p1 /\ ~ In sep p0 /\ ~ In sep p1.
Proof.
  intros sep s p0 p1 H. pose proof (join_split sep s) as J. rewrite H in J.
  cbn [join] in J. split; [now symmetry|].
  pose proof (split_parts_absent sep s) as HF. rewrite H in HF.
  inversion HF as [|? ? H0 HF']; subst. inversion HF'; subst. now split.
Qed.

Lemma local_domain_one_at : forall input,
  (List.length (split 64 input) <= 2)%nat ->
  local_part input ++ domain_part input = input.
Proof.
  intros input H. unfold local_part, domain_part. cbv zeta.
  pose proof (split_not_nil 64 input) as Hn.
  destruct (split 64 input) as [|p0 [|p1 [|p2 ps]]] eqn:E.
  - congruence.
  - reflexivity.
  - apply split_two in E. destruct E as (-> & _). cbn.
    now rewrite <- app_assoc.
  - simpl in H. lia.
Qed.

Lemma domain_part_incl : forall input, incl (domain_part input) input.
Proof.
  intros input. unfold domain_part. cbv zeta.
  destruct (split 64 input) as [|p0 [|p1 ps]] eqn:E; try apply incl_refl.
  replace (Z.of_nat (List.length (p0 :: p1 :: ps)) >? 1) with true
    by (symmetry; apply Z.gtb_lt; simpl List.length; lia).
  cbn [nth]. apply (split_incl 64). rewrite E. right. now left.
Qed.

Lemma domain_part_len : forall input, len (domain_part input) <= len input.
Proof.
  intros input. unfold domain_part. cbv zeta.
  destruct (split 64 input) as [|p0 [|p1 ps]] eqn:E; try apply Z.le_refl.
  replace (Z.of_nat (List.length (p0 :: p1 :: ps)) >? 1) with true
    by (symmetry; apply Z.gtb_lt; simpl List.length; lia).
  cbn [nth]. apply (split_len 64). rewrite E. right. now left.
Qed.

Lemma domain_part_no_at : forall input, ~ In 64 (domain_part input).
Proof.
  intros input. unfold domain_part. cbv zeta.
  pose proof (split_parts_absent 64 input) as HF.
  pose proof (split_not_nil 64 input) as Hn.
  destruct (split 64 input) as [|p0 [|p1 ps]] eqn:E.
  - congruence.
  - apply split_one in E. tauto.
  - replace (Z.of_nat (List.length (p0 :: p1 :: ps)) >? 1) with true
      by (symmetry; apply Z.gtb_lt; simpl List.length; lia).
    cbn [nth]. inversion HF as [|? ? _ HF']; subst. now inversion HF'.
Qed.

Lemma is_separator_ascii : forall u,
  0 <= u <= 127 -> (if is_separator u then 46 else u) = u.
Proof.
  intros u Hu. unfold is_separator.
  destruct (Z.eqb_spec u 46); [now subst|].
  destruct (Z.eqb_spec u 12290); [lia|].
  destruct (Z.eqb_spec u 65294); [lia|].
  destruct (Z.eqb_spec u 65377); [lia|reflexivity].
Qed.

Lemma replace_separators_ascii : forall s,
  is_ascii s -> replace_separators s = s.
Proof.
  intros s H. unfold replace_separators. induction H as [|u r Hu _ IH]; [reflexivity|].
  cbn [map]. now rewrite is_separator_ascii, IH.
Qed.

Lemma regexNonASCII_test_ascii : forall s,
  is_ascii s -> regexNonASCII_test s = false.
Proof.
  intros s H. unfold regexNonASCII_test. induction H as [|u r Hu _ IH]; [reflexivity|].
  cbn [existsb]. rewrite IH.
  destruct (Z.leb_spec 0 u); [|lia]. destruct (Z.leb_spec u 127); [reflexivity|lia].
Qed.

Lemma is_ascii_incl : forall s t, incl s t -> is_ascii t -> is_ascii s.
Proof.
  intros s t Hi Ht. apply Forall_forall. intros u Hu.
  exact (proj1 (Forall_forall _ _) Ht u (Hi u Hu)).
Qed.

Lemma is_ascii_check : forall s,
  forallb (fun u => (0 <=? u) && (u <=? 127)) s = true -> is_ascii s.
Proof.
  intros s H. apply Forall_forall. intros u Hu.
  rewrite forallb_forall in H. specialize (H u Hu).
  apply andb_prop in H. destruct H as [H1 H2].
  apply Z.leb_le in H1, H2. lia.
Qed.

(** [mapDomain] returns its input when it has at most one [@], no
    separator other than the dot, and labels that the callback returns as
    they are. *)
Lemma mapDomain_unchanged : forall input callback,
  (List.length (split 64 input) <= 2)%nat ->
  replace_separators (domain_part input) = domain_part input ->
  Forall (fun label => callback label = Ok label) (domain_labels input) ->
  mapDomain input callback = Ok input.
Proof.
  intros input callback Hat Hsep Hcb. rewrite mapDomain_eq.
  rewrite map_array_id by exact Hcb. cbn [bind].
  unfold domain_labels. rewrite Hsep, join_split.
  now rewrite local_domain_one_at.
Qed.

(** C6, as the code has it: an input made of ASCII characters, with at
    most one [@], is returned unchanged by [toASCII], and by [toUnicode]
    when none of its labels starts with ["xn--"]. *)
Theorem ascii_unchanged : forall input,
  is_ascii input -> (List.length (split 64 input) <= 2)%nat ->
  toASCII input = Ok input
  /\ (forall toLowerCase,
        Forall (fun label => regexPunycode_test label = false)
          (domain_labels input) ->
        toUnicode toLowerCase input = Ok input).
Proof.
  intros input Ha Hat.
  assert (Hdom : is_ascii (domain_part input))
    by (eapply is_ascii_incl; [apply domain_part_incl|exact Ha]).
  pose proof (replace_separators_ascii _ Hdom) as Hsep.
  split.
  - apply mapDomain_unchanged; try assumption.
    apply Forall_forall. intros label Hl. unfold toASCII_label.
    rewrite regexNonASCII_test_ascii; [reflexivity|].
    unfold domain_labels in Hl. rewrite Hsep in Hl.
    eapply is_ascii_incl; [eapply split_incl; exact Hl|exact Hdom].
  - intros toLowerCase Hxn. apply mapDomain_unchanged; try assumption.
    eapply Forall_impl; [|exact Hxn]. cbv beta. intros label Hl.
    unfold toUnicode_label. now rewrite Hl.
Qed.

Lemma ascii_unchanged_witness :
  is_ascii (units "user@example.com")
  /\ (List.length (split 64 (units "user@example.com")) <= 2)%nat
  /\ toASCII (units "user@example.com") = Ok (units "user@example.com").
Proof.
  assert (H1 : is_ascii (units "user@example.com"))
    by (apply is_ascii_check; vm_compute; reflexivity).
  assert (H2 : (List.length (split 64 (units "user@example.com")) <= 2)%nat)
    by (vm_compute; lia).
  split; [exact H1|split; [exact H2|]].
  exact (proj1 (ascii_unchanged (units "user@example.com") H1 H2)).
Defined.

(** The ASCII input ["xn--maana-pta.com"] is not returned unchanged by
    [toUnicode]: its first label is decoded. *)
Lemma toUnicode_decodes_ascii :
  is_ascii (units "xn--maana-pta.com")
  /\ toUnicode toLowerCaseASCII (units "xn--maana-pta.com")
     = Ok ([109; 97; 241; 97; 110; 97] ++ units ".com")
  /\ toUnicode toLowerCaseASCII (units "xn--maana-pta.com")
     <> Ok (units "xn--maana-pta.com").
Proof.
  split; [apply is_ascii_check; vm_compute; reflexivity|].
  vm_compute. split; [reflexivity|discriminate].
Qed.

(** ** Applying [mapDomain] to its own result *)

Lemma map_array_Forall2 : forall (A B : Type) (f : A -> outcome B) l r,
  map_array l f = Ok r -> Forall2 (fun a b => f a = Ok b) l r.
Proof.
  intros A B f l. induction l as [|a l IH]; intros r H.
  - inversion H. constructor.
  - cbn [map_array] in H. destruct (map_array l f) as [r'| |]; try discriminate.
    cbn [bind] in H. destruct (f a) as [b| |] eqn:Ea; try discriminate.
    inversion H; subst. constructor; [exact Ea|now apply IH].
Qed.

Lemma Forall2_transfer : forall (A B : Type) (R : A -> B -> Prop)
    (P : A -> Prop) (Q : B -> Prop) l r,
  Forall2 R l r -> Forall P l -> (forall a b, P a -> R a b -> Q b) ->
  Forall Q r.
Proof.
  intros A B R P Q l r H. induction H as [|a b l r Hab _ IH]; intros HP HQ.
  - constructor.
  - inversion HP; subst. constructor; [now apply (HQ a)|now apply IH].
Qed.

Lemma replace_separators_plain : forall s,
  (forall u, In u s -> is_separator u = false) -> replace_separators s = s.
Proof.
  intros s. unfold replace_separators. induction s as [|u r IH]; intros H; [reflexivity|].
  cbn [map]. rewrite (H u (or_introl eq_refl)).
  rewrite IH; [reflexivity|]. intros v Hv. apply H. now right.
Qed.

Lemma replace_separators_app : forall a b,
  replace_separators (a ++ b) = replace_separators a ++ replace_separators b.
Proof. intros a b. unfold replace_separators. apply map_app. Qed.

Lemma replace_separators_join : forall parts,
  Forall plain_label parts ->
  replace_separators (join 46 parts) = join 46 parts.
Proof.
  intros parts H. induction H as [|p ps Hp _ IH]; [reflexivity|].
  assert (Ep : replace_separators p = p)
    by (apply replace_separators_plain; intros u Hu; now apply Hp).
  destruct ps as [|p' ps']; [exact Ep|].
  change (join 46 (p :: p' :: ps')) with (p ++ 46 :: join 46 (p' :: ps')).
  rewrite replace_separators_app, Ep. f_equal.
  change (replace_separators (46 :: join 46 (p' :: ps')))
    with (46 :: replace_separators (join 46 (p' :: ps'))).
  now rewrite IH.
Qed.

Lemma plain_label_no_dot : forall s, plain_label s -> ~ In 46 s.
Proof. intros s H Hin. apply H in Hin. destruct Hin as [Hs _]. discriminate. Qed.

Lemma plain_label_no_at : forall s, plain_label s -> ~ In 64 s.
Proof. intros s H Hin. apply H in Hin. destruct Hin as [_ Hs]. congruence. Qed.

(** The text kept in front is empty, or ends with the first [@]. *)
Lemma local_part_cases : forall input,
  local_part input = []
  \/ exists p0, local_part input = p0 ++ [64] /\ ~ In 64 p0.
Proof.
  intros input. unfold local_part. cbv zeta.
  pose proof (split_parts_absent 64 input) as HF.
  destruct (split 64 input) as [|p0 [|p1 ps]] eqn:E.
  - now left.
  - now left.
  - right. exists p0.
    replace (Z.of_nat (List.length (p0 :: p1 :: ps)) >? 1) with true
      by (symmetry; apply Z.gtb_lt; simpl List.length; lia).
    cbn [nth]. inversion HF; subst. now split.
Qed.

(** The parts of the result of [mapDomain]. *)
Lemma result_parts : forall input J,
  ~ In 64 J ->
  local_part (local_part input ++ J) = local_part input
  /\ domain_part (local_part input ++ J) = J.
Proof.
  intros input J HJ.
  destruct (local_part_cases input) as [E|(p0 & E & H0)]; rewrite E.
  - cbn [app]. unfold local_part, domain_part. cbv zeta.
    rewrite (split_absent 64 J HJ). now split.
  - rewrite <- app_assoc. cbn [app]. unfold local_part, domain_part. cbv zeta.
    rewrite (split_app 64 p0 J H0), (split_absent 64 J HJ). now split.
Qed.

Lemma mapDomain_stable : forall input callback encoded,
  encoded <> [] ->
  Forall (fun e => plain_label e /\ callback e = Ok e) encoded ->
  mapDomain (local_part input ++ join 46 encoded) callback
  = Ok (local_part input ++ join 46 encoded).
Proof.
  intros input callback encoded Hne HF.
  assert (Hplain : Forall plain_label encoded)
    by (eapply Forall_impl; [|exact HF]; cbv beta; tauto).
  assert (Hcb : Forall (fun e => callback e = Ok e) encoded)
    by (eapply Forall_impl; [|exact HF]; cbv beta; tauto).
  assert (HJ : ~ In 64 (join 46 encoded)).
  { apply join_absent; [lia|]. eapply Forall_impl; [|exact Hplain].
    exact plain_label_no_at. }
  destruct (result_parts input (join 46 encoded) HJ) as [El Ed].
  rewrite mapDomain_eq. unfold domain_labels. rewrite El, Ed.
  rewrite replace_separators_join by exact Hplain.
  rewrite split_join; [|exact Hne|].
  - now rewrite map_array_id by exact Hcb.
  - eapply Forall_impl; [|exact Hplain]. exact plain_label_no_dot.
Qed.

(** The labels that [mapDomain] gives to its callback. *)
Lemma domain_labels_plain : forall input label,
  In label (domain_labels input) -> plain_label label.
Proof.
  intros input label H u Hu. unfold domain_labels in H.
  pose proof (split_parts_absent 46 (replace_separators (domain_part input))) as HF.
  pose proof (proj1 (Forall_forall _ _) HF label H) as Hdot. cbv beta in Hdot.
  apply (split_incl 46 _ _ H) in Hu as Hu'. unfold replace_separators in Hu'.
  apply in_map_iff in Hu'. destruct Hu' as (v & Ev & Hv).
  assert (Hv64 : v <> 64) by (intros ->; exact (domain_part_no_at input Hv)).
  destruct (is_separator v) eqn:Es.
  - subst u. contradiction.
  - subst u. now split.
Qed.

Lemma domain_labels_string : forall input label,
  is_string input -> In label (domain_labels input) ->
  is_string label /\ len label <= len input.
Proof.
  intros input label Hs H. unfold domain_labels in H. split.
  - apply Forall_forall. intros u Hu.
    apply (split_incl 46 _ _ H) in Hu. unfold replace_separators in Hu.
    apply in_map_iff in Hu. destruct Hu as (v & Ev & Hv).
    apply domain_part_incl in Hv.
    pose proof (proj1 (Forall_forall _ _) Hs v Hv) as Hr. cbv beta in Hr.
    destruct (is_separator v); lia.
  - apply split_len in H. pose proof (domain_part_len input) as Hd.
    unfold replace_separators, len in *. rewrite length_map in H. lia.
Qed.

Lemma domain_labels_not_nil : forall input, domain_labels input <> [].
Proof. intros input. apply split_not_nil. Qed.

(** The characters of the output of [encode]: ASCII characters of the
    input, delimiters, and lowercase letters and digits. *)
Lemma encode_output_chars : forall s r,
  is_string s -> len s <= maxInt -> encode s = Ok r ->
  Forall (fun u => 0 <= u <= 127
                   /\ (In u s \/ u = delimiter \/ is_lower_digit u = true)) r.
Proof.
  intros s r Hs Hlen Henc. unfold encode, encode_points in Henc.
  pose proof (ucs2decode_range s Hs) as Hr.
  pose proof (ucs2decode_length s) as Hl.
  set (cps := ucs2decode s) in *.
  destruct (encode_run cps) as [st| |] eqn:Erun; try discriminate.
  cbn [bind] in Henc. inversion Henc; subst r. clear Henc.
  destruct (encode_decode_points (List.length cps) cps eq_refl) with (st := st)
    as (digits & S & Eout & Hlow & _).
  { eapply Forall_impl; [|exact Hr]. cbv beta. unfold maxInt. intros; lia. }
  { lia. }
  { exact Erun. }
  rewrite Eout, encode_init_output
    by (eapply Forall_impl; [|exact Hr]; cbv beta; intros; lia).
  assert (Hbasic : Forall (fun u => 0 <= u <= 127
                     /\ (In u s \/ u = delimiter \/ is_lower_digit u = true))
                     (basic_of cps)).
  { apply Forall_forall. intros u Hu.
    pose proof (proj1 (Forall_forall _ _) (basic_of_below cps) u Hu) as Hb.
    apply basic_of_in in Hu.
    pose proof (proj1 (Forall_forall _ _) Hr u Hu) as H0. cbv beta in Hb, H0.
    split; [lia|]. left. apply ucs2decode_basic_in; [exact Hs|exact Hu|lia]. }
  apply Forall_app. split.
  - destruct (_ =? _); [constructor|]. apply Forall_app. split; [exact Hbasic|].
    constructor; [|constructor]. unfold delimiter. split; [lia|]. right. now left.
  - eapply Forall_impl; [|exact Hlow]. cbv beta. intros u Hu.
    pose proof (is_lower_digit_cases u Hu). split; [lia|]. right. now right.
Qed.

Lemma toASCII_label_stable : forall a b,
  plain_label a -> is_string a -> len a <= maxInt ->
  toASCII_label a = Ok b ->
  plain_label b /\ toASCII_label b = Ok b.
Proof.
  intros a b Hp Hs Hlen H. unfold toASCII_label in H.
  destruct (regexNonASCII_test a) eqn:Et.
  - destruct (encode a) as [r| |] eqn:Er; try discriminate.
    cbn [bind] in H. inversion H; subst b. clear H.
    pose proof (encode_output_chars a r Hs Hlen Er) as Hc.
    assert (Hall : Forall (fun u => 0 <= u <= 127
                     /\ is_separator u = false /\ u <> 64) (units "xn--" ++ r)).
    { apply Forall_app. split.
      - apply Forall_forall. intros u Hu. cbn in Hu.
        destruct Hu as [<-|[<-|[<-|[<-|[]]]]];
          (split; [lia|split; [reflexivity|lia]]).
      - eapply Forall_impl; [|exact Hc]. cbv beta. intros u [Hu Hor].
        split; [exact Hu|]. destruct Hor as [Hin|[->|Hl]].
        + now apply Hp.
        + split; [reflexivity|unfold delimiter; lia].
        + apply is_lower_digit_cases in Hl. unfold is_separator.
          split; [|lia].
          destruct (Z.eqb_spec u 46); [lia|]. destruct (Z.eqb_spec u 12290); [lia|].
          destruct (Z.eqb_spec u 65294); [lia|].
          destruct (Z.eqb_spec u 65377); [lia|reflexivity]. }
    split.
    + intros u Hu. pose proof (proj1 (Forall_forall _ _) Hall u Hu) as Hq.
      cbv beta in Hq. tauto.
    + unfold toASCII_label. rewrite regexNonASCII_test_ascii; [reflexivity|].
      eapply Forall_impl; [|exact Hall]. cbv beta. tauto.
  - inversion H; subst b. split; [exact Hp|].
    unfold toASCII_label. now rewrite Et.
Qed.

(** C7, as the code has it: [toASCII] is idempotent, and [toUnicode] is
    idempotent on the inputs for which the labels of its result, decoded
    or left as they are, do not start with ["xn--"] and hold no separator
    and no [@]. *)
Theorem idempotence : forall x,
  is_string x -> len x <= maxInt ->
  (y <- toASCII x ;; toASCII y) = toASCII x
  /\ (forall toLowerCase,
        (forall results,
           map_array (domain_labels x) (toUnicode_label toLowerCase)
           = Ok results ->
           Forall (fun label =>
                     plain_label label /\ regexPunycode_test label = false)
             results) ->
        (y <- toUnicode toLowerCase x ;; toUnicode toLowerCase y)
        = toUnicode toLowerCase x).
Proof.
  intros x Hs Hlen.
  assert (Hlabels : Forall (fun l => plain_label l /\ is_string l /\ len l <= maxInt)
                      (domain_labels x)).
  { apply Forall_forall. intros l Hl. split; [now apply (domain_labels_plain x)|].
    destruct (domain_labels_string x l Hs Hl). split; [assumption|lia]. }
  split.
  - destruct (toASCII x) as [y| |] eqn:E; try reflexivity. cbn [bind].
    unfold toASCII in *. rewrite mapDomain_eq in E.
    destruct (map_array (domain_labels x) toASCII_label) as [encoded| |] eqn:Em;
      try discriminate.
    cbn [bind] in E. inversion E; subst y. clear E.
    apply map_array_Forall2 in Em.
    apply mapDomain_stable.
    + intros ->. inversion Em as [Hnil|]. symmetry in Hnil.
      exact (domain_labels_not_nil x Hnil).
    + eapply Forall2_transfer; [exact Em|exact Hlabels|].
      cbv beta. intros a b (Hp & Ha & Hl) Hab.
      exact (toASCII_label_stable a b Hp Ha Hl Hab).
  - intros toLowerCase Hres.
    destruct (toUnicode toLowerCase x) as [y| |] eqn:E; try reflexivity. cbn [bind].
    unfold toUnicode in *. rewrite mapDomain_eq in E.
    destruct (map_array (domain_labels x) (toUnicode_label toLowerCase))
      as [results| |] eqn:Em; try discriminate.
    cbn [bind] in E. inversion E; subst y. clear E.
    specialize (Hres results eq_refl).
    apply mapDomain_stable.
    + intros ->. apply map_array_Forall2 in Em. inversion Em as [Hnil|].
      symmetry in Hnil. exact (domain_labels_not_nil x Hnil).
    + eapply Forall_impl; [|exact Hres]. cbv beta. intros l [Hp Ht].
      split; [exact Hp|]. unfold toUnicode_label. now rewrite Ht.
Qed.

Lemma idempotence_witness :
  is_string (units "u@xn--mnchen-3ya.de")
  /\ len (units "u@xn--mnchen-3ya.de") <= maxInt
  /\ toUnicode toLowerCaseASCII (units "u@xn--mnchen-3ya.de")
     = Ok [117; 64; 109; 252; 110; 99; 104; 101; 110; 46; 100; 101]
  /\ (y <- toASCII (units "u@xn--mnchen-3ya.de") ;; toASCII y)
     = toASCII (units "u@xn--mnchen-3ya.de")
  /\ (y <- toUnicode toLowerCaseASCII (units "u@xn--mnchen-3ya.de") ;;
      toUnicode toLowerCaseASCII y)
     = toUnicode toLowerCaseASCII (units "u@xn--mnchen-3ya.de").
Proof.
  assert (H1 : is_string (units "u@xn--mnchen-3ya.de"))
    by (apply Forall_forall; intros u Hu; simpl in Hu;
        repeat (destruct Hu as [<-|Hu]; [lia|]); destruct Hu).
  assert (H2 : len (units "u@xn--mnchen-3ya.de") <= maxInt)
    by (vm_compute; discriminate).
  split; [exact H1|split; [exact H2|split; [vm_compute; reflexivity|]]].
  split.
  - exact (proj1 (idempotence _ H1 H2)).
  - apply (proj2 (idempotence _ H1 H2) toLowerCaseASCII).
    intros results Hr. vm_compute in Hr. inversion Hr; subst results.
    constructor; [|constructor; [|constructor]];
      (split; [|reflexivity]); intros u Hu; simpl in Hu;
      repeat (destruct Hu as [<-|Hu]; [split; [reflexivity|lia]|]);
      destruct Hu.
Defined.

(** [toUnicode] is not idempotent: ["xn--xn--a-"] decodes to ["xn--a"],
    which decodes to the character U+0080. *)
Lemma toUnicode_twice :
  toUnicode toLowerCaseASCII (units "xn--xn--a-") = Ok (units "xn--a")
  /\ (y <- toUnicode toLowerCaseASCII (units "xn--xn--a-") ;;
      toUnicode toLowerCaseASCII y) = Ok [128]
  /\ (y <- toUnicode toLowerCaseASCII (units "xn--xn--a-") ;;
      toUnicode toLowerCaseASCII y)
     <> toUnicode toLowerCaseASCII (units "xn--xn--a-").
Proof.
  vm_compute. repeat split; try reflexivity. discriminate.
Qed.

(** ** The loop of [adapt] and the size of the bias *)

(** The loop of [adapt] ends by its test, not for want of fuel. *)
Lemma adapt_loop_exit : forall f delta k,
  (Z.to_nat (Z.log2 delta) < f)%nat ->
  fst (adapt_loop f delta k) <= Z.shiftr (baseMinusTMin * tMax) 1.
Proof.
  change (Z.shiftr (baseMinusTMin * tMax) 1) with 455.
  induction f as [|f IH]; intros delta k Hf; [lia|].
  cbn [adapt_loop]. change (Z.shiftr (baseMinusTMin * tMax) 1) with 455.
  destruct (Z.gtb_spec delta 455) as [Hgt|Hle]; [|exact Hle].
  apply IH. change baseMinusTMin with 35.
  assert (H1 : 1 <= delta / 35) by (apply Z.div_le_lower_bound; lia).
  assert (H2 : 2 * (delta / 35) <= delta).
  { pose proof (Z.mul_div_le delta 35 ltac:(lia)). lia. }
  assert (HL : Z.log2 (2 * (delta / 35)) <= Z.log2 delta)
    by (apply Z.log2_le_mono; lia).
  rewrite Z.log2_double in HL by lia.
  pose proof (Z.log2_nonneg (delta / 35)). lia.
Qed.

Lemma adapt_loop_nonneg : forall f delta k,
  0 <= delta -> 0 <= fst (adapt_loop f delta k).
Proof.
  induction f as [|f IH]; intros delta k H; [exact H|].
  cbn [adapt_loop]. destruct (_ >? _); [|exact H].
  apply IH. apply Z.div_pos; [exact H|reflexivity].
Qed.

(** The loop adds [base] to [k] once for each division of [delta]. *)
Lemma adapt_loop_count : forall f delta k (j : nat),
  delta <= 455 * 35 ^ Z.of_nat j ->
  snd (adapt_loop f delta k) <= k + 36 * Z.of_nat j.
Proof.
  induction f as [|f IH]; intros delta k j H; [cbn [adapt_loop snd]; lia|].
  cbn [adapt_loop]. change (Z.shiftr (baseMinusTMin * tMax) 1) with 455.
  destruct (Z.gtb_spec delta 455) as [Hgt|Hle]; [|cbn [snd]; lia].
  destruct j as [|j]; [simpl in H; lia|].
  specialize (IH (delta / baseMinusTMin) (k + base) j).
  rewrite Nat2Z.inj_succ. unfold base in *.
  assert (Hd : delta / baseMinusTMin <= 455 * 35 ^ Z.of_nat j).
  { change baseMinusTMin with 35. apply Z.div_le_upper_bound; [lia|].
    rewrite Nat2Z.inj_succ, Z.pow_succ_r in H by lia. lia. }
  specialize (IH Hd). lia.
Qed.

Lemma adapt_bound : forall delta numPoints ft,
  0 <= delta <= maxInt -> 1 <= numPoints ->
  adapt delta numPoints ft <= 215.
Proof.
  intros delta np ft Hd Hnp. unfold adapt.
  set (d0 := if ft then delta / damp else Z.shiftr (toInt32 delta) 1).
  assert (H0 : 0 <= d0 /\ 2 * d0 <= delta).
  { unfold d0. destruct ft.
    - unfold damp. pose proof (Z.mul_div_le delta 700 ltac:(lia)).
      split; [apply Z.div_pos; lia|lia].
    - rewrite toInt32_small by exact Hd. rewrite Z.shiftr_div_pow2 by lia.
      change (2 ^ 1) with 2. pose proof (Z.mul_div_le delta 2 ltac:(lia)).
      split; [apply Z.div_pos; lia|lia]. }
  set (d1 := d0 + d0 / np).
  assert (H1 : 0 <= d1 <= delta).
  { unfold d1. assert (0 <= d0 / np <= d0); [|lia].
    split; [apply Z.div_pos; lia|]. apply Z.div_le_upper_bound; nia. }
  pose proof (adapt_loop_count (adapt_loop_fuel d1) d1 0 5) as Hk.
  pose proof (adapt_loop_nonneg (adapt_loop_fuel d1) d1 0 ltac:(lia)) as Hn.
  destruct (adapt_loop (adapt_loop_fuel d1) d1 0) as [d k].
  cbn [fst snd] in *.
  assert (Hk' : k <= 180).
  { assert (d1 <= 455 * 35 ^ Z.of_nat 5)
      by (change (455 * 35 ^ Z.of_nat 5) with 23897453125; unfold maxInt in *; lia).
    specialize (Hk H). change (Z.of_nat 5) with 5 in Hk. lia. }
  assert (Hq : (baseMinusTMin + 1) * d / (d + skew) <= 35).
  { change (baseMinusTMin + 1) with 36. unfold skew.
    apply Z.lt_succ_r. apply Z.div_lt_upper_bound; lia. }
  lia.
Qed.

(** ** Reading an integer that fits *)

Lemma read_gvli_exact : forall f q k w oldi st rest,
  0 <= q -> 1 <= w -> 0 <= d_i st -> d_i st + q * w <= maxInt ->
  d_bias st <= 234 -> weight_ok w k (d_bias st) ->
  (emit_need q <= f)%nat ->
  decode_loop (gvli q k (d_bias st) ++ rest) (Within oldi w k) st
  = (st' <- close_integer st oldi (d_i st + q * w) ;;
     decode_loop rest Between st').
Proof.
  induction f as [|f IH]; intros q k w oldi st rest Hq Hw Hi Hfit Hb Hwk Hf.
  - unfold emit_need in Hf. destruct (q <=? 0); lia.
  - rewrite emit_eq. cbv zeta.
    pose proof (threshold_range k (d_bias st)) as Ht.
    destruct (Z.ltb_spec q (threshold k (d_bias st))) as [Hlt|Hge].
    + cbn [app]. rewrite decode_loop_within. cbv zeta.
      rewrite digit_roundtrip by lia.
      replace (q >=? base) with false
        by (rewrite Z.geb_leb; symmetry; apply Z.leb_gt; unfold base; lia).
      rewrite overflow_test by lia.
      destruct (Z.gtb_spec (q * w) (maxInt - d_i st)); [lia|].
      replace (q <? threshold k (d_bias st)) with true
        by (symmetry; now apply Z.ltb_lt).
      reflexivity.
    + set (t := threshold k (d_bias st)) in *.
      set (dg := t + (q - t) mod (base - t)).
      assert (Hm : 0 <= (q - t) mod (base - t) < base - t)
        by (apply Z.mod_pos_bound; unfold base; lia).
      assert (Hdg : t <= dg < 36) by (unfold dg, base in *; lia).
      assert (Hq' := quotient_halves q t Ht Hge).
      pose proof (Z.div_mod (q - t) (base - t) ltac:(unfold base; lia)) as Hdm.
      assert (Eq : q = dg + (base - t) * ((q - t) / (base - t)))
        by (unfold dg; lia).
      set (q' := (q - t) / (base - t)) in *.
      assert (Hprod : 0 <= (base - t) * q')
        by (apply Z.mul_nonneg_nonneg; [unfold base|unfold q']; lia).
      assert (Hdgq : dg * w <= q * w)
        by (apply Z.mul_le_mono_nonneg_r; lia).
      cbn [app]. rewrite decode_loop_within. cbv zeta.
      rewrite digit_roundtrip by lia. fold t.
      replace (dg >=? base) with false
        by (rewrite Z.geb_leb; symmetry; apply Z.leb_gt; unfold base; lia).
      rewrite overflow_test by lia.
      destruct (Z.gtb_spec (dg * w) (maxInt - d_i st)); [lia|].
      replace (dg <? t) with false by (symmetry; apply Z.ltb_ge; lia).
      rewrite overflow_test by (unfold base; lia).
      assert (Hwfit : w * (base - t) <= maxInt).
      { destruct Hwk as [Hk|(j & Ek & Ew)].
        - assert (18 <= t).
          { unfold t, threshold, tMin, tMax.
            destruct (Z.leb_spec k (d_bias st)); [lia|].
            destruct (Z.geb_spec k (d_bias st + 26)); lia. }
          unfold base in *. nia.
        - destruct (Z.le_gt_cases (d_bias st + 18) k) as [Hk|Hk].
          + assert (18 <= t).
            { unfold t, threshold, tMin, tMax.
              destruct (Z.leb_spec k (d_bias st)); [lia|].
              destruct (Z.geb_spec k (d_bias st + 26)); lia. }
            unfold base in *. nia.
          + assert (Hj : (j <= 5)%nat) by lia.
            assert (Hw35 : w <= 52521875).
            { subst w. destruct j as [|[|[|[|[|[|j]]]]]]; try lia;
                vm_compute; discriminate. }
            unfold base, maxInt in *. nia. }
      destruct (Z.gtb_spec (w * (base - t)) maxInt); [lia|].
      set (st' := mkD (d_i st + dg * w) (d_n st) (d_bias st) (d_output st)).
      assert (E : decode_loop (gvli q' (k + base) (d_bias st') ++ rest)
                    (Within oldi (w * (base - t)) (k + base)) st'
                  = (st'' <- close_integer st' oldi
                               (d_i st' + q' * (w * (base - t))) ;;
                     decode_loop rest Between st'')).
      { apply IH.
        - unfold q'. lia.
        - unfold base; nia.
        - unfold st'; cbn [d_i]. nia.
        - unfold st'; cbn [d_i].
          replace (d_i st + dg * w + q' * (w * (base - t)))
            with (d_i st + q * w); [exact Hfit|]. rewrite Eq at 1. ring.
        - exact Hb.
        - unfold st'; cbn [d_bias].
          destruct Hwk as [Hk|(j & Ek & Ew)]; [left; unfold base; lia|].
          destruct (Z.leb_spec k (d_bias st)) as [Hkb|Hkb].
          + right. exists (S j). rewrite Nat2Z.inj_succ.
            split; [unfold base; lia|].
            rewrite Z.pow_succ_r by lia. subst w.
            assert (t = 1).
            { unfold t, threshold, tMin.
              destruct (Z.leb_spec k (d_bias st)); lia. }
            unfold base. lia.
          + left. unfold base. lia.
        - unfold q'. now apply emit_need_step. }
      change (d_bias st') with (d_bias st) in E. rewrite E.
      unfold st' at 1.
      rewrite (close_integer_state _ _ _ _ _ _ st) by reflexivity.
      replace (d_i st' + q' * (w * (base - t))) with (d_i st + q * w);
        [reflexivity|].
      unfold st'; cbn [d_i]. rewrite Eq at 1. ring.
Qed.

Lemma read_emit_exact : forall q st rest,
  0 <= q -> 0 <= d_i st -> d_i st + q <= maxInt -> d_bias st <= 234 ->
  decode_loop (emit q (d_bias st) ++ rest) Between st
  = (st' <- close_integer st (d_i st) (d_i st + q) ;;
     decode_loop rest Between st').
Proof.
  intros q st rest Hq Hi Hfit Hb. rewrite emit_gvli.
  pose proof (gvli_not_nil q base (d_bias st)) as Hn.
  pose proof (read_gvli_exact (emit_need q) q base 1 (d_i st) st rest Hq
                ltac:(lia) Hi ltac:(lia) Hb) as H.
  destruct (gvli q base (d_bias st)) as [|c r] eqn:E; [congruence|].
  cbn [app] in *. rewrite decode_loop_between.
  rewrite Z.mul_1_r in H. apply H; [|lia].
  right. exists 0%nat. split; reflexivity.
Qed.

(** ** The round trip without overflow *)

(** On an array of at most 1927 code points, no test of [encode] or of
    [decode] for an overflow fires. *)
Lemma encode_decode_points_exact : forall k cps,
  List.length cps = k ->
  Forall (fun c => 0 <= c <= 1114111) cps ->
  len cps * 1114112 <= maxInt ->
  exists st digits S,
    encode_run cps = Ok st
    /\ e_output st = e_output (encode_init cps) ++ digits
    /\ DInv S /\ d_output S = cps /\ Rel (count_lt 128 cps) st S
    /\ d_bias S <= 234
    /\ decode_loop digits Between (decode_init (basic_of cps)) = Ok S.
Proof.
  induction k as [|k IH]; intros cps Hk Hr Hlen;
    (destruct (max_last_split cps) as [Hb|(A & x & B & E & Hx & HA & HB)]).
  1, 3: (* basic code points only *)
    destruct (encode_run_basic cps Hb) as [Hrun HR];
    exists (encode_init cps), [], (decode_init cps);
    rewrite (basic_of_all cps Hb), app_nil_r;
    (split; [exact Hrun|]); (split; [reflexivity|]);
    (split; [now apply decode_init_DInv|]); (split; [reflexivity|]);
    (split; [exact HR|]);
    (split; [unfold decode_init, initialBias; cbn [d_bias]; lia|reflexivity]).
  - subst cps. rewrite length_app in Hk. simpl in Hk. lia.
  - subst cps.
    assert (HxR : 0 <= x <= 1114111).
    { apply (proj1 (Forall_forall _ _) Hr). apply in_or_app. right. now left. }
    assert (Hxx : 128 <= x < maxInt) by (unfold maxInt; lia).
    pose proof (len_nonneg A) as HlA. pose proof (len_nonneg B) as HlB.
    assert (HlenF : len (A ++ x :: B) = len (A ++ B) + 1)
      by (rewrite !len_app, len_cons; ring).
    rewrite HlenF in Hlen.
    assert (Hlen' : len (A ++ B) < maxInt) by (rewrite len_app in *; lia).
    destruct (IH (A ++ B)) as (st' & digits & S' & Erun & Eout & HD & HoutS & HR & Hbias & Hdec).
    { rewrite length_app in *. simpl in Hk. lia. }
    { apply Forall_app in Hr. destruct Hr as [H1 H2].
      inversion H2; subst. apply Forall_app. now split. }
    { lia. }
    pose proof (insert_q_nonneg A B x _ HA HB Hxx st' S' HoutS HD HR) as Hq.
    pose proof (insert_total A B x _ st' S' HoutS HR) as Htot.
    pose proof (insert_close A B x _ Hxx st' S' HoutS HR) as Hclose.
    pose proof (insert_DInv A B x HA HB Hxx st' S') as HD1.
    pose proof (dinv_n S' HD) as Hn. pose proof (dinv_i S' HD) as Hi.
    set (q := insert_q A x st') in *.
    assert (Hfit : d_i S' + q <= maxInt).
    { rewrite Htot.
      assert ((x - d_n S') * (len (A ++ B) + 1) <= 1113983 * (len (A ++ B) + 1))
        by (apply Z.mul_le_mono_nonneg_r; try rewrite len_app; lia).
      rewrite len_app in *. lia. }
    destruct (insert_finish A B x (count_lt 128 (A ++ B)) st') as (st & Hfin & Eout1).
    { fold q. lia. }
    pose proof (insert_Rel A B x _ st' S' HoutS HR st Hfin) as HR1.
    exists st, (digits ++ emit q (e_bias st')), (insert_state A B x st' S').
    rewrite encode_init_insert, basic_of_insert, count_lt_insert by lia.
    split; [rewrite encode_run_insert by (assumption || lia);
            rewrite Erun; exact Hfin|].
    split; [rewrite Eout1, Eout; fold q; now rewrite app_assoc|].
    split; [exact HD1|]. split; [reflexivity|]. split; [exact HR1|]. split.
    + unfold insert_state. cbn [d_bias]. fold q.
      pose proof (adapt_bound q (len (A ++ B) + 1) (d_i S' =? 0)
                    ltac:(lia) ltac:(rewrite len_app; lia)). lia.
    + rewrite (decode_loop_app_ok _ _ _ _ _ Hdec).
      destruct HR as (Eb & _). rewrite Eb.
      pose proof (read_emit_exact q S' [] Hq ltac:(lia) Hfit Hbias) as Er.
      rewrite app_nil_r in Er. rewrite Er, Hclose. reflexivity.
Qed.

(** [decode] on the output of [encode]: the basic code points, the
    delimiter when there are some, and the digits. *)
Lemma decode_encoded : forall cps digits,
  Forall (fun c => 0 <= c) cps -> lower_digits digits ->
  decode (e_output (encode_init cps) ++ digits) =
  (st <- decode_loop digits Between (decode_init (basic_of cps)) ;;
   fromCodePoint_spread (d_output st)).
Proof.
  intros cps digits Hr Hlow.
  rewrite encode_init_output by exact Hr.
  pose proof (lower_digits_no_delimiter digits Hlow) as Hnd.
  unfold decode.
  destruct (Z.eqb_spec (count_lt 128 cps) 0) as [E|E].
  - cbn [app]. rewrite decode_points_digits by exact Hnd.
    unfold count_lt in E. fold (basic_of cps) in E.
    destruct (basic_of cps) as [|c l].
    + now destruct (decode_loop digits Between (decode_init [])).
    + rewrite len_cons in E. pose proof (len_nonneg l). lia.
  - rewrite <- app_assoc. cbn [app].
    rewrite decode_points_delimited; [|..|exact Hnd].
    + now destruct (decode_loop digits Between (decode_init (basic_of cps))).
    + intros E0. apply E. unfold count_lt. fold (basic_of cps). now rewrite E0.
    + apply basic_of_below.
Qed.

Lemma encode_decode_strings : forall s p,
  is_string s -> len s <= maxInt -> encode s = Ok p ->
  decode p = Ok s \/ decode p = Throw (CodecError overflow)
  \/ (maxArguments < len (ucs2decode s) /\ decode p = Throw CallStackExceeded).
Proof.
  intros s p Hs Hlen Henc. unfold encode, encode_points in Henc.
  pose proof (ucs2decode_range s Hs) as Hr.
  pose proof (ucs2decode_length s) as Hl.
  pose proof (fromCodePoint_ucs2decode s Hs) as Hback.
  set (cps := ucs2decode s) in *.
  destruct (encode_run cps) as [st| |] eqn:Erun; try discriminate.
  cbn [bind] in Henc. inversion Henc; subst p. clear Henc.
  destruct (encode_decode_points (List.length cps) cps eq_refl) with (st := st)
    as (digits & S & Eout & Hlow & HD & HS & HR & Hdec).
  { eapply Forall_impl; [|exact Hr]. cbv beta. unfold maxInt. intros; lia. }
  { lia. }
  { exact Erun. }
  rewrite Eout, decode_encoded
    by (exact Hlow || (eapply Forall_impl; [|exact Hr]; cbv beta; intros; lia)).
  destruct Hdec as [Hdec|Hdec]; rewrite Hdec; cbn [bind].
  - right. now left.
  - rewrite HS. destruct (Z.le_gt_cases (len cps) maxArguments) as [Hfit|Hover].
    + left. now rewrite fromCodePoint_spread_ok.
    + right. right. split; [lia|]. now apply fromCodePoint_spread_over.
Qed.

Lemma encode_decode_short : forall s,
  is_string s -> len (ucs2decode s) <= 1927 ->
  exists p, encode s = Ok p /\ decode p = Ok s.
Proof.
  intros s Hs Hlen.
  pose proof (ucs2decode_range s Hs) as Hr.
  destruct (encode_decode_points_exact _ (ucs2decode s) eq_refl Hr)
    as (st & digits & S & Erun & Eout & HD & HS & HR & _ & Hdec).
  { unfold maxInt. lia. }
  assert (Hlow : lower_digits digits).
  { destruct (encode_decode_points _ (ucs2decode s) eq_refl) with (st := st)
      as (digits' & S' & Eout' & Hlow' & _).
    - eapply Forall_impl; [|exact Hr]. cbv beta. unfold maxInt. intros; lia.
    - unfold maxInt. lia.
    - exact Erun.
    - rewrite Eout in Eout'. apply app_inv_head in Eout'. now subst digits'. }
  exists (e_output st). split.
  - unfold encode, encode_points. now rewrite Erun.
  - rewrite Eout, decode_encoded
      by (exact Hlow || (eapply Forall_impl; [|exact Hr]; cbv beta; intros; lia)).
    rewrite Hdec. cbn [bind]. rewrite HS.
    rewrite fromCodePoint_spread_ok by (unfold maxArguments; lia).
    now apply fromCodePoint_ucs2decode.
Qed.

(** C1, as the code has it.  On a string of at most 1927 code points,
    [encode] returns and [decode] of the result returns the string.  On a
    longer one [encode] may throw [overflow], and [decode] may throw on
    the output of [encode]: for every string [s] of at most [2^31 - 1]
    code units, with lone surrogates or without, on which [encode]
    returns, [decode] of the result returns [s], or throws [overflow],
    or, when [s] has more code points than the call stack takes, lets
    through the [RangeError] of the spread call. *)
Theorem encode_decode_roundtrip : forall s,
  is_string s -> len s <= maxInt ->
  (forall p, encode s = Ok p ->
     decode p = Ok s \/ decode p = Throw (CodecError overflow)
     \/ (maxArguments < len (ucs2decode s)
         /\ decode p = Throw CallStackExceeded))
  /\ (len (ucs2decode s) <= 1927 ->
      exists p, encode s = Ok p /\ decode p = Ok s).
Proof.
  intros s Hs Hlen. split.
  - intros p Hp. exact (encode_decode_strings s p Hs Hlen Hp).
  - intros Hshort. exact (encode_decode_short s Hs Hshort).
Qed.

Lemma encode_decode_roundtrip_witness :
  is_string [109; 252; 110; 99; 104; 101; 110]
  /\ len [109; 252; 110; 99; 104; 101; 110] <= maxInt
  /\ len (ucs2decode [109; 252; 110; 99; 104; 101; 110]) <= 1927
  /\ encode [109; 252; 110; 99; 104; 101; 110] = Ok (units "mnchen-3ya")
  /\ (decode (units "mnchen-3ya") = Ok [109; 252; 110; 99; 104; 101; 110]
      \/ decode (units "mnchen-3ya") = Throw (CodecError overflow)
      \/ (maxArguments < len (ucs2decode [109; 252; 110; 99; 104; 101; 110])
          /\ decode (units "mnchen-3ya") = Throw CallStackExceeded))
  /\ (exists p, encode [109; 252; 110; 99; 104; 101; 110] = Ok p
                /\ decode p = Ok [109; 252; 110; 99; 104; 101; 110]).
Proof.
  assert (H1 : is_string [109; 252; 110; 99; 104; 101; 110])
    by (repeat constructor; lia).
  assert (H2 : len [109; 252; 110; 99; 104; 101; 110] <= maxInt)
    by (vm_compute; discriminate).
  assert (H3 : len (ucs2decode [109; 252; 110; 99; 104; 101; 110]) <= 1927)
    by (vm_compute; discriminate).
  assert (H4 : encode [109; 252; 110; 99; 104; 101; 110] = Ok (units "mnchen-3ya"))
    by (vm_compute; reflexivity).
  split; [exact H1|split; [exact H2|split; [exact H3|split; [exact H4|]]]].
  split.
  - exact (proj1 (encode_decode_roundtrip _ H1 H2) _ H4).
  - exact (proj2 (encode_decode_roundtrip _ H1 H2) H3).
Defined.

(** Two strings without lone surrogates on which the round trip fails.
    On 1928 letters [a] followed by U+10FFFF, [encode] throws [overflow].
    On U+100080 followed by 2046 letters [a] and U+0080, [encode] returns
    and [decode] throws [overflow] on its result. *)
Lemma encode_decode_overflow :
  (well_paired (repeat 97 1928 ++ [56319; 57343]) = true
   /\ is_string (repeat 97 1928 ++ [56319; 57343])
   /\ encode (repeat 97 1928 ++ [56319; 57343]) = Throw (CodecError overflow))
  /\ (well_paired ([56256; 56448] ++ repeat 97 2046 ++ [128]) = true
      /\ is_string ([56256; 56448] ++ repeat 97 2046 ++ [128])
      /\ (p <- encode ([56256; 56448] ++ repeat 97 2046 ++ [128]) ;; decode p)
         = Throw (CodecError overflow)
      /\ encode ([56256; 56448] ++ repeat 97 2046 ++ [128])
         <> Throw (CodecError overflow)).
Proof.
  assert (Hrep : forall n, is_string (repeat 97 n)).
  { intros n. apply Forall_forall. intros u Hu.
    apply repeat_spec in Hu. subst u. lia. }
  split; [split; [|split]|split; [|split; [|split]]].
  - vm_compute. reflexivity.
  - apply Forall_app. split; [apply Hrep|repeat constructor; lia].
  - vm_compute. reflexivity.
  - vm_compute. reflexivity.
  - apply Forall_app. split; [repeat constructor; lia|].
    apply Forall_app. split; [apply Hrep|repeat constructor; lia].
  - vm_compute. reflexivity.
  - vm_compute. discriminate.
Qed.

(** * Further properties of the code *)

(** ** [ucs2decode] and [ucs2encode] *)

Lemma fromCodePoint_string : forall cps u,
  fromCodePoint cps = Ok u ->
  is_string u /\ len cps <= len u <= 2 * len cps.
Proof.
  induction cps as [|cp r IH]; intros u H.
  - inversion H; subst. split; [constructor|rewrite len_nil; lia].
  - pose proof (fromCodePoint_range _ _ H) as Hr. inversion Hr as [|? ? Hc Hr']; subst.
    rewrite fromCodePoint_cons in H by exact Hc.
    destruct (fromCodePoint r) as [u'| |]; try discriminate. cbn [bind] in H.
    destruct (IH u' eq_refl) as [Hs Hl].
    destruct (Z.leb_spec cp 65535); inversion H; subst u; clear H.
    + split; [constructor; [lia|exact Hs]|rewrite !len_cons; lia].
    + pose proof (Z.mod_pos_bound (cp - 65536) 1024 ltac:(lia)) as Hm.
      assert (Hq : 0 <= (cp - 65536) / 1024 <= 1023).
      { split; [apply Z.div_pos; lia|].
        apply Z.lt_succ_r. apply Z.div_lt_upper_bound; lia. }
      split; [constructor; [lia|constructor; [lia|exact Hs]]|rewrite !len_cons; lia].
Qed.

(** X1: [ucs2encode (ucs2decode s)] returns [s] for every string [s]
    whose code points are few enough to be spread into the arguments of
    a call, whether the surrogates of [s] are paired or not. *)
Theorem ucs2_encode_decode : forall s,
  is_string s -> len (ucs2decode s) <= maxArguments ->
  ucs2encode (ucs2decode s) = Ok s.
Proof.
  intros s Hs Hfit. unfold ucs2encode.
  rewrite fromCodePoint_spread_ok by exact Hfit.
  now apply fromCodePoint_ucs2decode.
Qed.

Lemma ucs2_encode_decode_witness :
  is_string [104; 55357; 56832; 56320; 55296]
  /\ len (ucs2decode [104; 55357; 56832; 56320; 55296]) <= maxArguments
  /\ ucs2encode (ucs2decode [104; 55357; 56832; 56320; 55296])
     = Ok [104; 55357; 56832; 56320; 55296].
Proof.
  assert (H : is_string [104; 55357; 56832; 56320; 55296])
    by (repeat constructor; lia).
  assert (L : len (ucs2decode [104; 55357; 56832; 56320; 55296]) <= maxArguments)
    by (vm_compute; discriminate).
  split; [exact H|]. split; [exact L|exact (ucs2_encode_decode _ H L)].
Defined.

(** X2: when [ucs2encode] returns on an array of code points,
    [ucs2decode] gives the array back exactly when no high surrogate is
    followed by a low surrogate in the array (such a pair is read back as
    one code point). *)
Theorem ucs2_decode_encode : forall codePoints u,
  ucs2encode codePoints = Ok u ->
  (ucs2decode u = codePoints <-> no_split_pair codePoints = true).
Proof.
  intros codePoints u H. unfold ucs2encode in H.
  apply fromCodePoint_spread_inv in H. destruct H as [H _].
  now apply ucs2decode_spelled.
Qed.

Lemma ucs2_decode_encode_witness :
  ucs2encode [55296; 128512; 56320] = Ok [55296; 55357; 56832; 56320]
  /\ ucs2decode [55296; 55357; 56832; 56320] = [55296; 128512; 56320].
Proof.
  assert (H : ucs2encode [55296; 128512; 56320] = Ok [55296; 55357; 56832; 56320])
    by reflexivity.
  split; [exact H|].
  exact (proj2 (ucs2_decode_encode _ _ H) eq_refl).
Defined.

(** X3: [ucs2decode] of a string yields code points of the range
    [0, 0x10FFFF], at most one for each code unit and at least one for
    every two code units. *)
Theorem ucs2decode_bounds : forall s,
  is_string s ->
  Forall (fun c => 0 <= c <= 1114111) (ucs2decode s)
  /\ len (ucs2decode s) <= len s <= 2 * len (ucs2decode s).
Proof.
  intros s Hs. split; [now apply ucs2decode_range|].
  exact (proj2 (fromCodePoint_string _ _ (fromCodePoint_ucs2decode s Hs))).
Qed.

Lemma ucs2decode_bounds_witness :
  is_string [104; 55357; 56832]
  /\ Forall (fun c => 0 <= c <= 1114111) (ucs2decode [104; 55357; 56832])
  /\ len (ucs2decode [104; 55357; 56832]) <= len [104; 55357; 56832]
     <= 2 * len (ucs2decode [104; 55357; 56832]).
Proof.
  assert (H : is_string [104; 55357; 56832]) by (repeat constructor; lia).
  split; [exact H|exact (ucs2decode_bounds _ H)].
Defined.

(** X5: the code points of [ucs2decode s] are free of surrogates
    exactly when the string [s] has no lone surrogate. *)
Theorem ucs2decode_scalar_values : forall s,
  is_string s ->
  (well_paired s = true <->
   Forall (fun c => ~ 55296 <= c <= 57343) (ucs2decode s)).
Proof.
  intros s. induction s as [|value|value extra rest IH1 IH2] using ucs2decode_ind;
    intros Hs.
  - split; [constructor|reflexivity].
  - cbn [well_paired ucs2decode]. unfold is_high_surrogate, is_low_surrogate.
    destruct (Z.leb_spec 55296 value), (Z.leb_spec value 56319),
      (Z.leb_spec 56320 value), (Z.leb_spec value 57343); cbn [andb negb];
      split; intros Hx; try reflexivity; try discriminate; try lia;
      try (constructor; [lia|constructor]);
      inversion Hx; subst; lia.
  - inversion Hs as [|? ? Hv Hr]; subst. inversion Hr as [|? ? He Hr']; subst.
    specialize (IH1 Hr'). specialize (IH2 Hr).
    rewrite ucs2decode_cons2, high_test, low_surrogate_test by exact He.
    fold (is_low_surrogate extra).
    change (well_paired (value :: extra :: rest)) with
      (if is_high_surrogate value
       then is_low_surrogate extra && well_paired rest
       else negb (is_low_surrogate value) && well_paired (extra :: rest)).
    destruct (is_high_surrogate value) eqn:Eh.
    + unfold is_high_surrogate in Eh. apply andb_prop in Eh.
      destruct Eh as [E1 E2]. apply Z.leb_le in E1, E2.
      destruct (is_low_surrogate extra) eqn:El; cbn [andb].
      * unfold is_low_surrogate in El. apply andb_prop in El.
        destruct El as [E3 E4]. apply Z.leb_le in E3, E4.
        rewrite IH1. rewrite pair_value by lia.
        split; [intros H; constructor; [lia|exact H]|intros H; now inversion H].
      * split; [discriminate|]. intros H. inversion H; subst. lia.
    + rewrite andb_true_iff, IH2, negb_true_iff.
      unfold is_high_surrogate in Eh. unfold is_low_surrogate.
      split.
      * intros [Hl H]. constructor; [|exact H].
        destruct (Z.leb_spec 55296 value), (Z.leb_spec value 56319),
          (Z.leb_spec 56320 value), (Z.leb_spec value 57343);
          cbn [andb] in *; try discriminate; lia.
      * intros H. inversion H as [|? ? Hn H']; subst. split; [|exact H'].
        destruct (Z.leb_spec 56320 value), (Z.leb_spec value 57343);
          cbn [andb]; try reflexivity; lia.
Qed.

Lemma ucs2decode_scalar_values_witness :
  is_string [104; 55357; 56832]
  /\ Forall (fun c => ~ 55296 <= c <= 57343) (ucs2decode [104; 55357; 56832]).
Proof.
  assert (H : is_string [104; 55357; 56832]) by (repeat constructor; lia).
  split; [exact H|].
  exact (proj1 (ucs2decode_scalar_values _ H) eq_refl).
Defined.

(** ** [basicToDigit] and [digitToBasic] *)

(** X6: [basicToDigit] undoes [digitToBasic] on every digit with the
    flag [0], and on the digits below 26 with a non-zero flag.  With the
    flag [0] the digits below 26 are written as the lowercase letters and
    the others as the decimal digits; with a non-zero flag a digit below
    26 is written as the uppercase letter, 32 below the lowercase one. *)
Theorem basicToDigit_digitToBasic : forall digit flag,
  0 <= digit < base -> (flag <> 0 -> digit < 26) ->
  basicToDigit (digitToBasic digit flag) = digit
  /\ digitToBasic digit 0 = (if digit <? 26 then 97 + digit else 22 + digit)
  /\ (flag <> 0 ->
      digitToBasic digit flag = digitToBasic digit 0 - 32
      /\ digitToBasic digit flag = 65 + digit)
  /\ lower_unit (digitToBasic digit flag) = digitToBasic digit 0.
Proof.
  intros d flag Hd Hf. unfold base in Hd. unfold digitToBasic.
  rewrite Z.eqb_refl. change (Z.shiftl 0 5) with 0.
  destruct (Z.eqb_spec flag 0) as [E|E].
  - change (Z.shiftl 0 5) with 0.
    unfold basicToDigit, lower_unit, base.
    destruct (Z.ltb_spec d 26);
      (split; [split_tests; lia|]); (split; [lia|]);
      (split; [intros Hflag; congruence|split_tests; lia]).
  - specialize (Hf E). change (Z.shiftl 1 5) with 32.
    destruct (Z.ltb_spec d 26); [|lia].
    unfold basicToDigit, lower_unit, base.
    split; [split_tests; lia|]. split; [lia|].
    split; [intros _; lia|split_tests; lia].
Qed.

Lemma basicToDigit_digitToBasic_witness :
  basicToDigit (digitToBasic 25 1) = 25
  /\ digitToBasic 25 0 = 122
  /\ digitToBasic 25 1 = digitToBasic 25 0 - 32
  /\ digitToBasic 25 1 = 90.
Proof.
  assert (H : 0 <= 25 < base) by (unfold base; lia).
  assert (F : 1 <> 0 -> 25 < 26) by lia.
  assert (N : 1 <> 0) by lia.
  destruct (basicToDigit_digitToBasic 25 1 H F) as (H1 & H2 & H3 & _).
  destruct (H3 N) as [H4 H5].
  split; [exact H1|]. split; [exact H2|]. split; [exact H4|exact H5].
Defined.

(** X7: [basicToDigit] returns a digit below [base] exactly on the
    ASCII letters and decimal digits and [base] on every other code point,
    and it gives an uppercase letter the digit of its lowercase form. *)
Theorem basicToDigit_cases : forall codePoint,
  0 <= basicToDigit codePoint <= base
  /\ (basicToDigit codePoint < base <-> is_alphanumeric codePoint)
  /\ basicToDigit (lower_unit codePoint) = basicToDigit codePoint.
Proof.
  intros c. unfold basicToDigit, lower_unit, is_alphanumeric, base.
  split; [split_tests; lia|]. split; [split_tests; lia|].
  destruct (Z.leb_spec 65 c), (Z.leb_spec c 90); cbn [andb];
    try reflexivity.
  split_tests; lia.
Qed.

Lemma basicToDigit_cases_witness :
  is_alphanumeric 90 /\ basicToDigit 90 < base.
Proof.
  assert (H : is_alphanumeric 90) by (unfold is_alphanumeric; lia).
  split; [exact H|].
  exact (proj2 (proj1 (proj2 (basicToDigit_cases 90))) H).
Defined.

(** ** The range of [adapt] *)

Lemma adapt_loop_k : forall f delta k, k <= snd (adapt_loop f delta k).
Proof.
  induction f as [|f IH]; intros delta k; [apply Z.le_refl|].
  cbn [adapt_loop]. destruct (_ >? _); [|apply Z.le_refl].
  specialize (IH (delta / baseMinusTMin) (k + base)). unfold base in *. lia.
Qed.

(** X8: for a [delta] of at most [maxInt] and at least one point, the
    bias that [adapt] returns lies between 0 and 215. *)
Theorem adapt_range : forall delta numPoints firstTime,
  0 <= delta <= maxInt -> 1 <= numPoints ->
  0 <= adapt delta numPoints firstTime <= 215.
Proof.
  intros delta np ft Hd Hnp. split; [|now apply adapt_bound].
  unfold adapt.
  set (d0 := if ft then delta / damp else Z.shiftr (toInt32 delta) 1).
  assert (H0 : 0 <= d0).
  { unfold d0. destruct ft.
    - apply Z.div_pos; [lia|reflexivity].
    - rewrite toInt32_small by exact Hd. apply Z.shiftr_nonneg. lia. }
  set (d1 := d0 + d0 / np).
  assert (H1 : 0 <= d1).
  { unfold d1. assert (0 <= d0 / np) by (apply Z.div_pos; lia). lia. }
  pose proof (adapt_loop_k (adapt_loop_fuel d1) d1 0) as Hk.
  pose proof (adapt_loop_nonneg (adapt_loop_fuel d1) d1 0 H1) as Hn.
  destruct (adapt_loop (adapt_loop_fuel d1) d1 0) as [d k]. cbn [fst snd] in *.
  assert (0 <= (baseMinusTMin + 1) * d / (d + skew)); [|lia].
  apply Z.div_pos; [|unfold skew; lia].
  change (baseMinusTMin + 1) with 36. lia.
Qed.

Lemma adapt_range_witness : 0 <= adapt maxInt 1 false <= 215.
Proof. apply adapt_range; unfold maxInt; lia. Defined.

(** ** The inputs and the results of [decode] *)

Lemma fromCodePoint_units : forall l,
  Forall (fun c => 0 <= c <= 65535) l -> fromCodePoint l = Ok l.
Proof.
  intros l H. induction H as [|c r Hc _ IH]; [reflexivity|].
  rewrite fromCodePoint_cons by lia. rewrite IH. cbn [bind].
  destruct (Z.leb_spec c 65535); [reflexivity|lia].
Qed.

Lemma copy_basic_throws : forall prefix output,
  Exists (fun c => 128 <= c) prefix ->
  copy_basic prefix output = Throw (CodecError not_basic).
Proof.
  induction prefix as [|c r IH]; intros output H; [inversion H|].
  cbn [copy_basic]. destruct (Z.geb_spec c 128); [reflexivity|].
  inversion H as [? ? Hc|? ? Hr]; subst; [lia|]. now apply IH.
Qed.

(** X9: on basic code points followed by one final delimiter,
    [decode] returns the basic code points (other delimiters among them
    included) when they are few enough to be spread into the arguments
    of a call, and lets through the [RangeError] of the spread call when
    they are not; on the delimiter alone it throws [invalid-input]. *)
Theorem decode_basic_only : forall basic,
  Forall (fun c => 0 <= c < 128) basic ->
  decode (basic ++ [delimiter]) =
  if len basic =? 0 then Throw (CodecError invalid_input)
  else if len basic >? maxArguments then Throw CallStackExceeded
  else Ok basic.
Proof.
  intros basic Hb. unfold decode. destruct basic as [|c r].
  - cbn [app]. rewrite decode_points_leading_delimiter by (intros []). reflexivity.
  - rewrite decode_points_delimited; [|discriminate| |intros []].
    + cbn [decode_loop bind decode_init d_output].
      replace (len (c :: r) =? 0) with false.
      2:{ symmetry. apply Z.eqb_neq. rewrite len_cons.
          pose proof (len_nonneg r). lia. }
      unfold fromCodePoint_spread.
      destruct (len (c :: r) >? maxArguments); [reflexivity|].
      apply fromCodePoint_units.
      eapply Forall_impl; [|exact Hb]. cbv beta. intros; lia.
    + eapply Forall_impl; [|exact Hb]. cbv beta. intros; lia.
Qed.

Lemma decode_basic_only_witness :
  decode (units "a-b" ++ [delimiter]) = Ok (units "a-b").
Proof.
  apply (decode_basic_only (units "a-b")).
  repeat constructor; lia.
Defined.

(** X10: [decode] throws [not-basic] as soon as a code unit of
    [0x80] or more stands before the last delimiter, whatever follows that
    delimiter. *)
Theorem decode_not_basic : forall basic digits,
  ~ In delimiter digits -> Exists (fun c => 128 <= c) basic ->
  decode (basic ++ delimiter :: digits) = Throw (CodecError not_basic).
Proof.
  intros basic digits Hd Hb. unfold decode.
  rewrite decode_points_prefix; [|intros ->; inversion Hb|exact Hd].
  now rewrite copy_basic_throws.
Qed.

Lemma decode_not_basic_witness :
  decode ([97; 252] ++ delimiter :: units "!!") = Throw (CodecError not_basic).
Proof.
  apply decode_not_basic.
  - simpl. unfold delimiter. intuition discriminate.
  - right. left. lia.
Defined.

(** What [decode_loop] accepts. *)
Lemma decode_loop_accepts : forall input cur st S,
  decode_loop input cur st = Ok S ->
  Forall is_alphanumeric input
  /\ (forall ds c, input = ds ++ [c] -> basicToDigit c < 26)
  /\ (input = [] -> cur = Between).
Proof.
  induction input as [|c r IH]; intros cur st S H.
  - destruct cur; [|discriminate]. split; [constructor|].
    split; [|reflexivity]. intros ds c0 E. now destruct ds.
  - assert (G : forall oldi w k,
               decode_loop (c :: r) (Within oldi w k) st = Ok S ->
               Forall is_alphanumeric (c :: r)
               /\ (forall ds c0, c :: r = ds ++ [c0] -> basicToDigit c0 < 26)).
    { clear H. intros oldi w k H. rewrite decode_loop_within in H. cbv zeta in H.
      destruct (Z.geb_spec (basicToDigit c) base) as [|Hdig]; [discriminate|].
      destruct (_ >? _); [discriminate|].
      assert (Hc : is_alphanumeric c).
      { revert Hdig. clear. unfold basicToDigit, is_alphanumeric, base.
        split_tests; lia. }
      pose proof (threshold_range k (d_bias st)) as Ht.
      destruct (Z.ltb_spec (basicToDigit c) (threshold k (d_bias st))).
      - destruct (close_integer _ _ _) as [st1| |] eqn:Ec; try discriminate.
        cbn [bind] in H. apply IH in H. destruct H as (H1 & H2 & _).
        split; [now constructor|]. intros ds c0 E.
        destruct ds as [|d ds]; inversion E; subst; [lia|]. eapply H2. reflexivity.
      - destruct (_ >? _); [discriminate|]. apply IH in H.
        destruct H as (H1 & H2 & H3).
        split; [now constructor|]. intros ds c0 E.
        destruct ds as [|d ds]; inversion E; subst.
        + specialize (H3 eq_refl). discriminate.
        + eapply H2. reflexivity. }
    destruct cur as [|oldi w k]; [rewrite decode_loop_between in H|];
      apply G in H; destruct H as [H1 H2]; (split; [exact H1|]);
      (split; [exact H2|discriminate]).
Qed.

Lemma letter_digit : forall c,
  basicToDigit c < 26 -> 65 <= c <= 90 \/ 97 <= c <= 122.
Proof. intros c. unfold basicToDigit, base. split_tests; lia. Qed.

(** X11: when [decode] returns, its input does not start with its
    only delimiter, the characters before the last delimiter are below
    [0x80], those after it are ASCII letters and decimal digits, and the
    last of them, if any, is a letter. *)
Theorem decode_accepts : forall input u,
  decode input = Ok u ->
  lastIndexOf input delimiter <> 0
  /\ Forall (fun c => c < 128)
       (firstn (Z.to_nat (lastIndexOf input delimiter)) input)
  /\ Forall is_alphanumeric (after_last_delimiter input)
  /\ (forall ds c, after_last_delimiter input = ds ++ [c] ->
        65 <= c <= 90 \/ 97 <= c <= 122).
Proof.
  intros input u H. unfold decode in H.
  destruct (decode_points input) as [cps| |] eqn:Ep; try discriminate. clear H.
  unfold after_last_delimiter.
  destruct (lastIndexOf_cases input delimiter)
    as [[E Hn]|(a & t & -> & Hn & E)]; rewrite E.
  - rewrite decode_points_digits in Ep by exact Hn.
    destruct (decode_loop _ _ _) as [S| |] eqn:El; try discriminate.
    apply decode_loop_accepts in El. destruct El as (H1 & H2 & _).
    cbn [Z.to_nat firstn skipn Z.add]. change (Z.to_nat (-1 + 1)) with 0%nat.
    cbn [skipn]. split; [lia|]. split; [constructor|]. split; [exact H1|].
    intros ds c Hc. apply letter_digit. eapply H2. exact Hc.
  - destruct a as [|a0 a].
    + cbn [app] in Ep. rewrite decode_points_leading_delimiter in Ep by exact Hn.
      discriminate.
    + rewrite decode_points_prefix in Ep; [|discriminate|exact Hn].
      destruct (copy_basic _ _) as [out| |] eqn:Ec; try discriminate.
      cbn [bind] in Ep. apply copy_basic_inv in Ec. destruct Ec as [Hb _].
      destruct (decode_loop _ _ _) as [S| |] eqn:El; try discriminate.
      apply decode_loop_accepts in El. destruct El as (H1 & H2 & _).
      rewrite firstn_len_app.
      replace ((a0 :: a) ++ delimiter :: t) with (((a0 :: a) ++ [delimiter]) ++ t)
        by (now rewrite <- app_assoc).
      replace (len (a0 :: a) + 1) with (len ((a0 :: a) ++ [delimiter]))
        by (rewrite len_app; reflexivity).
      rewrite skipn_len_app.
      split; [rewrite !len_cons; pose proof (len_nonneg a); lia|].
      split; [exact Hb|]. split; [exact H1|].
      intros ds c Hc. apply letter_digit. eapply H2. exact Hc.
Qed.

Lemma decode_accepts_witness :
  lastIndexOf (units "bcher-kva") delimiter <> 0
  /\ Forall (fun c => c < 128)
       (firstn (Z.to_nat (lastIndexOf (units "bcher-kva") delimiter))
          (units "bcher-kva"))
  /\ Forall is_alphanumeric (after_last_delimiter (units "bcher-kva"))
  /\ (forall ds c, after_last_delimiter (units "bcher-kva") = ds ++ [c] ->
        65 <= c <= 90 \/ 97 <= c <= 122).
Proof.
  apply (decode_accepts (units "bcher-kva") [98; 252; 99; 104; 101; 114]).
  vm_compute. reflexivity.
Defined.

Lemma basicToDigit_lower_unit : forall c,
  basicToDigit (lower_unit c) = basicToDigit c.
Proof.
  intros c. unfold basicToDigit, lower_unit, base.
  destruct (Z.leb_spec 65 c), (Z.leb_spec c 90); cbn [andb];
    try reflexivity.
  split_tests; lia.
Qed.

(** [decode_loop] looks at its input through [basicToDigit] only. *)
Lemma decode_loop_digits : forall input input' cur st,
  map basicToDigit input = map basicToDigit input' ->
  decode_loop input cur st = decode_loop input' cur st.
Proof.
  induction input as [|c r IH]; intros input' cur st E.
  - destruct input'; [reflexivity|discriminate].
  - destruct input' as [|c' r']; [discriminate|].
    cbn [map] in E. inversion E as [[Ec Er]].
    assert (G : forall oldi w k,
               decode_loop (c :: r) (Within oldi w k) st
               = decode_loop (c' :: r') (Within oldi w k) st).
    { intros oldi w k. rewrite !decode_loop_within. cbv zeta. rewrite Ec.
      destruct (_ >=? _); [reflexivity|].
      destruct (_ >? _); [reflexivity|].
      destruct (_ <? _).
      - destruct (close_integer _ _ _); try reflexivity. cbn [bind].
        now apply IH.
      - destruct (_ >? _); [reflexivity|]. now apply IH. }
    destruct cur; [rewrite !decode_loop_between|]; apply G.
Qed.

Lemma lastIndexOf_app : forall pre digits c,
  ~ In c digits -> lastIndexOf (pre ++ digits) c = lastIndexOf pre c.
Proof.
  intros pre digits c Hd.
  destruct (lastIndexOf_cases pre c) as [[E Hn]|(a & t & -> & Hn & E)]; rewrite E.
  - apply lastIndexOf_absent. intros Hin. apply in_app_or in Hin. tauto.
  - rewrite <- app_assoc. cbn [app]. apply lastIndexOf_last.
    intros Hin. apply in_app_or in Hin. tauto.
Qed.

Lemma lastIndexOf_bound : forall s c, -1 <= lastIndexOf s c < len s.
Proof.
  intros s c.
  destruct (lastIndexOf_cases s c) as [[E Hn]|(a & t & -> & Hn & E)]; rewrite E.
  - pose proof (len_nonneg s). lia.
  - rewrite len_app, len_cons. pose proof (len_nonneg a). pose proof (len_nonneg t). lia.
Qed.

Lemma firstn_app_le : forall (k : nat) (A B : list Z),
  (k <= List.length A)%nat -> firstn k (A ++ B) = firstn k A.
Proof.
  intros k A B H. rewrite firstn_app.
  replace (k - List.length A)%nat with 0%nat by lia. cbn [firstn]. apply app_nil_r.
Qed.

Lemma skipn_app_le : forall (k : nat) (A B : list Z),
  (k <= List.length A)%nat -> skipn k (A ++ B) = skipn k A ++ B.
Proof.
  intros k A B H. rewrite skipn_app.
  replace (k - List.length A)%nat with 0%nat by lia. reflexivity.
Qed.

(** [decode_points] on a text followed by characters that are not
    delimiters. *)
Lemma decode_points_app : forall pre digits,
  ~ In delimiter digits ->
  decode_points (pre ++ digits) =
  let basic := lastIndexOf pre delimiter in
  let basic := if basic <? 0 then 0 else basic in
  output <- copy_basic (firstn (Z.to_nat basic) pre) [] ;;
  st <- decode_loop
          (skipn (Z.to_nat (if basic >? 0 then basic + 1 else 0)) pre ++ digits)
          Between (mkD 0 initialN initialBias output) ;;
  Ok (d_output st).
Proof.
  intros pre digits Hd. unfold decode_points. cbv zeta.
  rewrite lastIndexOf_app by exact Hd.
  pose proof (lastIndexOf_bound pre delimiter) as Hb. unfold len in Hb.
  rewrite firstn_app_le, skipn_app_le; [reflexivity| |].
  - destruct (_ <? _); [cbn; lia|]. destruct (Z.gtb_spec (lastIndexOf pre delimiter) 0); lia.
  - destruct (_ <? _); lia.
Qed.

Lemma lower_unit_delimiter : forall digits,
  ~ In delimiter digits -> ~ In delimiter (map lower_unit digits).
Proof.
  intros digits H Hin. apply in_map_iff in Hin. destruct Hin as (c & Ec & Hc).
  apply H. replace delimiter with c; [exact Hc|].
  revert Ec. unfold lower_unit, delimiter.
  destruct (Z.leb_spec 65 c), (Z.leb_spec c 90); cbn [andb]; lia.
Qed.

(** X12: [decode] ignores the case of the letters after the last
    delimiter: lowercasing an end of the input that holds no delimiter
    does not change the outcome. *)
Theorem decode_case_insensitive : forall pre digits,
  ~ In delimiter digits ->
  decode (pre ++ map lower_unit digits) = decode (pre ++ digits).
Proof.
  intros pre digits Hd. unfold decode.
  rewrite !decode_points_app by (try apply lower_unit_delimiter; exact Hd).
  cbv zeta. destruct (copy_basic _ _); try reflexivity. cbn [bind].
  rewrite (decode_loop_digits
             (_ ++ map lower_unit digits)
             (skipn (Z.to_nat (if (if lastIndexOf pre delimiter <? 0 then 0
                                   else lastIndexOf pre delimiter) >? 0
                               then (if lastIndexOf pre delimiter <? 0 then 0
                                     else lastIndexOf pre delimiter) + 1
                               else 0)) pre ++ digits)); [reflexivity|].
  rewrite !map_app, map_map. f_equal. apply map_ext. apply basicToDigit_lower_unit.
Qed.

Lemma decode_case_insensitive_witness :
  decode (units "bcher-" ++ map lower_unit (units "KVA"))
  = decode (units "bcher-" ++ units "KVA").
Proof.
  apply decode_case_insensitive. simpl. unfold delimiter. intuition discriminate.
Defined.

Lemma basic_of_splice : forall output i n,
  128 <= n -> basic_of (splice output i n) = basic_of output.
Proof.
  intros output i n Hn. unfold splice.
  rewrite basic_of_insert by exact Hn. now rewrite firstn_skipn.
Qed.

Lemma close_integer_basic : forall st oldi i st1,
  128 <= d_n st -> 0 <= i ->
  close_integer st oldi i = Ok st1 ->
  basic_of (d_output st1) = basic_of (d_output st)
  /\ 128 <= d_n st1 /\ 0 <= d_i st1.
Proof.
  intros st oldi i st1 Hn Hi H. unfold close_integer in H. cbv zeta in H.
  destruct (_ >? _); [discriminate|]. inversion H; subst st1; clear H.
  cbn [d_output d_n d_i].
  pose proof (len_nonneg (d_output st)) as Hl.
  assert (0 <= i / (len (d_output st) + 1)) by (apply Z.div_pos; lia).
  pose proof (Z.mod_pos_bound i (len (d_output st) + 1) ltac:(lia)).
  split; [apply basic_of_splice; lia|lia].
Qed.

Lemma decode_loop_basic : forall input cur st S,
  128 <= d_n st -> 0 <= d_i st ->
  match cur with Between => True | Within _ w _ => 1 <= w end ->
  decode_loop input cur st = Ok S ->
  basic_of (d_output S) = basic_of (d_output st).
Proof.
  induction input as [|c r IH]; intros cur st S Hn Hi Hw H.
  - destruct cur; [|discriminate]. now inversion H.
  - assert (G : forall oldi w k, 1 <= w ->
               decode_loop (c :: r) (Within oldi w k) st = Ok S ->
               basic_of (d_output S) = basic_of (d_output st)).
    { clear H Hw. intros oldi w k Hw H. rewrite decode_loop_within in H.
      cbv zeta in H.
      pose proof (basicToDigit_range c) as Hc.
      pose proof (threshold_range k (d_bias st)) as Ht.
      destruct (_ >=? _); [discriminate|].
      destruct (_ >? _); [discriminate|].
      assert (Hi' : 0 <= d_i st + basicToDigit c * w) by nia.
      destruct (_ <? _).
      - destruct (close_integer _ _ _) as [st1| |] eqn:Ec; try discriminate.
        cbn [bind] in H. apply close_integer_basic in Ec; [|exact Hn|exact Hi'].
        destruct Ec as (E1 & E2 & E3). rewrite <- E1.
        now apply (IH Between st1 S).
      - destruct (_ >? _); [discriminate|].
        apply IH in H; cbn [d_n d_i d_output] in *; try assumption.
        unfold base. nia. }
    destruct cur as [|oldi w k]; [rewrite decode_loop_between in H|];
      eapply G; try eassumption. lia.
Qed.

Lemma fromCodePoint_basic : forall cps u,
  fromCodePoint cps = Ok u -> basic_of u = basic_of cps.
Proof.
  induction cps as [|cp r IH]; intros u H.
  - now inversion H.
  - pose proof (fromCodePoint_range _ _ H) as Hr. inversion Hr as [|? ? Hc Hr']; subst.
    rewrite fromCodePoint_cons in H by exact Hc.
    destruct (fromCodePoint r) as [u'| |]; try discriminate. cbn [bind] in H.
    specialize (IH u' eq_refl).
    destruct (Z.leb_spec cp 65535); inversion H; subst u; clear H.
    + unfold basic_of in *. cbn [filter]. now rewrite IH.
    + assert (Hq : 0 <= (cp - 65536) / 1024) by (apply Z.div_pos; lia).
      pose proof (Z.mod_pos_bound (cp - 65536) 1024 ltac:(lia)).
      unfold basic_of in *. cbn [filter].
      destruct (Z.ltb_spec ((cp - 65536) / 1024 + 55296) 128); [lia|].
      destruct (Z.ltb_spec ((cp - 65536) mod 1024 + 56320) 128); [lia|].
      destruct (Z.ltb_spec cp 128); [lia|]. exact IH.
Qed.

(** X13: when [decode] returns a string, its characters below
    [0x80] are the characters of the input before its last delimiter, in
    the same order (every code point that the main loop inserts is
    [0x80] or more), and it has at most twice as many code units as the
    input. *)
Theorem decode_basic_code_points : forall input u,
  decode input = Ok u ->
  is_string u
  /\ basic_of u = firstn (Z.to_nat (lastIndexOf input delimiter)) input
  /\ len u <= 2 * len input.
Proof.
  intros input u H. unfold decode in H.
  destruct (decode_points input) as [cps| |] eqn:Ep; try discriminate.
  cbn [bind] in H. apply fromCodePoint_spread_inv in H. destruct H as [H _].
  rewrite (fromCodePoint_basic _ _ H).
  assert (G : basic_of cps = firstn (Z.to_nat (lastIndexOf input delimiter)) input
              /\ len cps <= len input).
  { clear H u.
    destruct (lastIndexOf_cases input delimiter)
      as [[E Hn]|(a & t & -> & Hn & E)]; rewrite E.
    - rewrite decode_points_digits in Ep by exact Hn.
      destruct (decode_loop _ _ _) as [S| |] eqn:El; try discriminate.
      inversion Ep; subst cps.
      pose proof (decode_loop_length _ _ _ _ El) as HL.
      apply decode_loop_basic in El;
        [|cbn; unfold initialN; lia|cbn; lia|exact I].
      split; [exact El|]. cbn [decode_init d_output] in HL. rewrite len_nil in HL. lia.
    - destruct a as [|a0 a].
      + cbn [app] in Ep. rewrite decode_points_leading_delimiter in Ep by exact Hn.
        discriminate.
      + rewrite decode_points_prefix in Ep; [|discriminate|exact Hn].
        destruct (copy_basic _ _) as [out| |] eqn:Ec; try discriminate.
        cbn [bind] in Ep. apply copy_basic_inv in Ec. destruct Ec as [Hb ->].
        destruct (decode_loop _ _ _) as [S| |] eqn:El; try discriminate.
        inversion Ep; subst cps.
        pose proof (decode_loop_length _ _ _ _ El) as HL.
        apply decode_loop_basic in El;
          [|cbn; unfold initialN; lia|cbn; lia|exact I].
        rewrite firstn_len_app. cbn [decode_init d_output] in *.
        change ([] ++ a0 :: a) with (a0 :: a) in *.
        split; [rewrite El; now apply basic_of_all|].
        rewrite len_app, (len_cons delimiter). lia. }
  destruct G as [G1 G2].
  destruct (fromCodePoint_string _ _ H) as [Hu Hl].
  split; [exact Hu|]. split; [exact G1|lia].
Qed.

Lemma decode_basic_code_points_witness :
  is_string [98; 252; 99; 104; 101; 114]
  /\ basic_of [98; 252; 99; 104; 101; 114]
  = firstn (Z.to_nat (lastIndexOf (units "bcher-kva") delimiter))
      (units "bcher-kva")
  /\ len [98; 252; 99; 104; 101; 114] <= 2 * len (units "bcher-kva").
Proof.
  apply (decode_basic_code_points (units "bcher-kva")).
  vm_compute. reflexivity.
Defined.

(** ** The results of [encode] *)

Lemma ucs2decode_units : forall s,
  Forall (fun u => is_high_surrogate u = false) s -> ucs2decode s = s.
Proof.
  intros s. induction s as [|value|value extra rest IH1 IH2] using ucs2decode_ind;
    intros Hs; try reflexivity.
  inversion Hs as [|? ? Hv Hr]; subst.
  rewrite ucs2decode_cons2, high_test, Hv. now rewrite IH2.
Qed.

Lemma is_ascii_not_high : forall s,
  is_ascii s -> Forall (fun u => is_high_surrogate u = false) s.
Proof.
  intros s H. eapply Forall_impl; [|exact H]. cbv beta. intros u Hu.
  unfold is_high_surrogate. destruct (Z.leb_spec 55296 u); [lia|reflexivity].
Qed.

Lemma basic_of_ucs2decode : forall s,
  is_string s -> basic_of (ucs2decode s) = basic_of s.
Proof.
  intros s Hs. symmetry. apply fromCodePoint_basic.
  now apply fromCodePoint_ucs2decode.
Qed.

Lemma count_lt_basic_of : forall cps, count_lt 128 cps = len (basic_of cps).
Proof. reflexivity. Qed.

(** A string of at most 1927 code units has at most 1927 code points. *)
Lemma encode_decode_units : forall s,
  is_string s -> len s <= 1927 ->
  exists p, encode s = Ok p /\ decode p = Ok s.
Proof.
  intros s Hs Hlen. apply encode_decode_short; [exact Hs|].
  pose proof (ucs2decode_length s). lia.
Qed.

(** X14: [encode] of a string of ASCII characters is the string
    followed by one delimiter, and the empty string for the empty
    string. *)
Theorem encode_ascii : forall s,
  is_ascii s ->
  encode s = Ok (if len s =? 0 then [] else s ++ [delimiter]).
Proof.
  intros s Hs. unfold encode, encode_points.
  rewrite ucs2decode_units by now apply is_ascii_not_high.
  assert (Hb : Forall (fun c => c < 128) s)
    by (eapply Forall_impl; [|exact Hs]; cbv beta; intros; lia).
  rewrite (proj1 (encode_run_basic s Hb)). cbn [bind].
  rewrite encode_init_output
    by (eapply Forall_impl; [|exact Hs]; cbv beta; intros; lia).
  rewrite (count_lt_all 128 s Hb). now rewrite basic_of_all.
Qed.

Lemma encode_ascii_witness :
  encode (units "a-b.c") = Ok (units "a-b.c-").
Proof.
  apply (encode_ascii (units "a-b.c")). apply is_ascii_check. reflexivity.
Defined.

Lemma encode_scan_digits : forall l bl hp st st',
  encode_scan l bl hp st = Ok st' ->
  exists ds, e_output st' = e_output st ++ ds
             /\ e_handled st' - e_handled st <= len ds.
Proof.
  induction l as [|c r IH]; intros bl hp st st' H.
  - inversion H; subst. exists []. rewrite app_nil_r, len_nil. split; [reflexivity|lia].
  - rewrite encode_scan_cons in H. cbv zeta in H.
    destruct (_ && _); [discriminate|].
    destruct (c =? e_n st).
    + apply IH in H. destruct H as (ds & E & Hl).
      cbn [e_output e_handled] in E, Hl.
      exists (emit (e_delta st + (if c <? e_n st then 1 else 0)) (e_bias st) ++ ds).
      assert (Hd : (if c <? e_n st then e_delta st + 1 else e_delta st)
                   = e_delta st + (if c <? e_n st then 1 else 0))
        by (destruct (c <? e_n st); ring).
      rewrite Hd in E. split; [now rewrite E, <- app_assoc|].
      rewrite len_app.
      assert (1 <= len (emit (e_delta st + (if c <? e_n st then 1 else 0))
                          (e_bias st))); [|lia].
      rewrite emit_gvli.
      pose proof (gvli_not_nil (e_delta st + (if c <? e_n st then 1 else 0))
                    base (e_bias st)) as Hn.
      destruct (gvli _ _ _) as [|g gs]; [congruence|].
      rewrite len_cons. pose proof (len_nonneg gs). lia.
    + apply IH in H. exact H.
Qed.

Lemma encode_main_digits : forall f l bl st st',
  encode_main f l bl st = Ok st' ->
  exists ds, e_output st' = e_output st ++ ds
             /\ e_handled st' - e_handled st <= len ds
             /\ len l <= e_handled st'.
Proof.
  induction f as [|f IH]; intros l bl st st' H.
  - cbn [encode_main] in H.
    destruct (Z.ltb_spec (e_handled st) (len l)); [discriminate|].
    inversion H; subst. exists []. rewrite app_nil_r, len_nil.
    split; [reflexivity|lia].
  - destruct (Z.lt_ge_cases (e_handled st) (len l)) as [Hlt|Hge].
    + rewrite encode_main_step in H by exact Hlt. cbv zeta in H.
      destruct (_ >? _); [discriminate|].
      destruct (encode_scan _ _ _ _) as [st1| |] eqn:Es; try discriminate.
      cbn [bind] in H. apply encode_scan_digits in Es.
      destruct Es as (d1 & E1 & L1). cbn [e_output e_handled] in E1, L1.
      apply IH in H. destruct H as (d2 & E2 & L2 & L3).
      cbn [e_output e_handled] in E2, L2.
      exists (d1 ++ d2). split; [now rewrite E2, E1, <- app_assoc|].
      rewrite len_app. lia.
    + rewrite encode_main_done in H by exact Hge. inversion H; subst.
      exists []. rewrite app_nil_r, len_nil. split; [reflexivity|lia].
Qed.

(** X15: what [encode] returns is made of the characters of the
    input below [0x80], in order and followed by a delimiter if there are
    any, and then of lowercase letters and decimal digits only, at least
    one for each code point of [0x80] or more. *)
Theorem encode_shape : forall s p,
  is_string s -> len s <= maxInt -> encode s = Ok p ->
  exists digits,
    p = (if len (basic_of s) =? 0 then [] else basic_of s ++ [delimiter])
        ++ digits
    /\ lower_digits digits
    /\ len (ucs2decode s) - len (basic_of s) <= len digits.
Proof.
  intros s p Hs Hlen Henc. unfold encode, encode_points in Henc.
  pose proof (ucs2decode_range s Hs) as Hr.
  pose proof (ucs2decode_length s) as Hl.
  rewrite <- (basic_of_ucs2decode s Hs).
  set (cps := ucs2decode s) in *.
  destruct (encode_run cps) as [st| |] eqn:Erun; try discriminate.
  cbn [bind] in Henc. inversion Henc; subst p. clear Henc.
  destruct (encode_decode_points (List.length cps) cps eq_refl) with (st := st)
    as (digits & S & Eout & Hlow & _).
  { eapply Forall_impl; [|exact Hr]. cbv beta. unfold maxInt. intros; lia. }
  { lia. }
  { exact Erun. }
  exists digits. split; [|split; [exact Hlow|]].
  - rewrite Eout, encode_init_output
      by (eapply Forall_impl; [|exact Hr]; cbv beta; intros; lia).
    reflexivity.
  - rewrite encode_run_eq in Erun. apply encode_main_digits in Erun.
    destruct Erun as (ds & E & L1 & L2). rewrite Eout in E.
    apply app_inv_head in E. subst ds.
    rewrite encode_init_basic in L1. cbn [e_handled] in L1.
    rewrite count_lt_basic_of in L1. lia.
Qed.

Lemma encode_shape_witness :
  exists digits,
    units "bcher-kva"
    = (if len (basic_of [98; 252; 99; 104; 101; 114]) =? 0 then []
       else basic_of [98; 252; 99; 104; 101; 114] ++ [delimiter]) ++ digits
    /\ lower_digits digits
    /\ len (ucs2decode [98; 252; 99; 104; 101; 114])
       - len (basic_of [98; 252; 99; 104; 101; 114]) <= len digits.
Proof.
  apply (encode_shape [98; 252; 99; 104; 101; 114] (units "bcher-kva")).
  - repeat constructor; lia.
  - vm_compute. discriminate.
  - vm_compute. reflexivity.
Defined.

(** X16: [encode] does not map two strings to the same result:
    it separates a string of at most 1927 code units from every other
    string. *)
Theorem encode_injective : forall s1 s2,
  is_string s1 -> len s1 <= 1927 -> is_string s2 -> len s2 <= maxInt ->
  s1 <> s2 -> encode s1 <> encode s2.
Proof.
  intros s1 s2 H1 L1 H2 L2 Hne E.
  destruct (encode_decode_units s1 H1 L1) as (p & Ep & Dp).
  rewrite Ep in E. symmetry in E.
  destruct (encode_decode_strings s2 p H2 L2 E) as [D|[D|[_ D]]]; congruence.
Qed.

Lemma encode_injective_witness : encode [252; 98] <> encode [98; 252].
Proof.
  apply (encode_injective [252; 98] [98; 252]).
  - repeat constructor; lia.
  - vm_compute. discriminate.
  - repeat constructor; lia.
  - vm_compute. discriminate.
  - discriminate.
Defined.

(** ** [map], [mapDomain] and [toASCII] *)

(** X17: [map] calls the callback on the last item first: the
    exception of an item after which every item is accepted is the one
    thrown, whatever the callback does on the items before it. *)
Theorem map_array_throws : forall (A B : Type) (callback : A -> outcome B)
    before item after e,
  callback item = Throw e ->
  Forall (fun a => exists b, callback a = Ok b) after ->
  map_array (before ++ item :: after) callback = Throw e.
Proof.
  intros A B callback before item after e He Hafter.
  assert (Ha : exists r, map_array after callback = Ok r).
  { induction Hafter as [|a l [b Hb] _ [r IH]]; [now exists []|].
    cbn [map_array]. rewrite IH. cbn [bind]. rewrite Hb. now eexists. }
  destruct Ha as [r Hr].
  induction before as [|a l IH].
  - cbn [app map_array]. rewrite Hr. cbn [bind]. now rewrite He.
  - cbn [app map_array]. now rewrite IH.
Qed.

Lemma map_array_throws_witness :
  map_array [units "xn--a"; units "xn--!"; units "b"]
    (toUnicode_label toLowerCaseASCII)
  = Throw (CodecError invalid_input).
Proof.
  apply (map_array_throws _ _ (toUnicode_label toLowerCaseASCII)
           [units "xn--a"] (units "xn--!") [units "b"]).
  - reflexivity.
  - constructor; [|constructor]. eexists. reflexivity.
Defined.

(** X18: with a callback that returns its label, [mapDomain] only
    replaces the separators [U+3002], [U+FF0E] and [U+FF61] of the domain
    part by full stops. *)
Theorem mapDomain_identity : forall input,
  mapDomain input (fun label => Ok label)
  = Ok (local_part input ++ replace_separators (domain_part input)).
Proof.
  intros input. rewrite mapDomain_eq.
  rewrite map_array_id by (apply Forall_forall; reflexivity).
  cbn [bind]. unfold domain_labels. now rewrite join_split.
Qed.

(** X19: on an address with exactly one [@], [mapDomain] returns
    the local part and the [@] unchanged, followed by what it returns on
    the whole text after the [@]. *)
Theorem mapDomain_one_at : forall local domain callback,
  ~ In 64 local -> ~ In 64 domain ->
  mapDomain (local ++ 64 :: domain) callback
  = (result <- mapDomain domain callback ;; Ok (local ++ 64 :: result)).
Proof.
  intros local domain callback Hl Hd.
  rewrite mapDomain_at by exact Hl. rewrite (split_absent 64 domain Hd).
  cbn [nth]. rewrite mapDomain_no_at by exact Hd.
  destruct (map_array _ callback); cbn [bind]; try reflexivity.
  now rewrite <- app_assoc.
Qed.

Lemma mapDomain_one_at_witness :
  toASCII ([252] ++ 64 :: [252; 46; 97])
  = (result <- toASCII [252; 46; 97] ;; Ok ([252] ++ 64 :: result)).
Proof.
  apply (mapDomain_one_at [252] [252; 46; 97] toASCII_label);
    simpl; intuition discriminate.
Defined.

Lemma regexNonASCII_test_false : forall s,
  regexNonASCII_test s = false -> is_ascii s.
Proof.
  unfold regexNonASCII_test. induction s as [|u r IH]; intros H; [constructor|].
  cbn [existsb] in H. apply orb_false_iff in H. destruct H as [Hu Hr].
  apply negb_false_iff, andb_prop in Hu. destruct Hu as [H0 H1].
  apply Z.leb_le in H0, H1. constructor; [lia|now apply IH].
Qed.

Lemma join_ascii : forall parts,
  Forall is_ascii parts -> is_ascii (join 46 parts).
Proof.
  intros parts H. induction H as [|p ps Hp Hps IH]; [constructor|].
  destruct ps as [|p' ps']; [exact Hp|].
  change (join 46 (p :: p' :: ps')) with (p ++ 46 :: join 46 (p' :: ps')).
  apply Forall_app. split; [exact Hp|]. constructor; [lia|exact IH].
Qed.

Lemma toASCII_label_ascii : forall a b,
  is_string a -> len a <= maxInt -> toASCII_label a = Ok b -> is_ascii b.
Proof.
  intros a b Hs Hlen H. unfold toASCII_label in H.
  destruct (regexNonASCII_test a) eqn:Et.
  - destruct (encode a) as [r| |] eqn:Er; try discriminate.
    cbn [bind] in H. inversion H; subst b. clear H.
    pose proof (encode_output_chars a r Hs Hlen Er) as Hc.
    unfold is_ascii. do 4 (constructor; [lia|]).
    eapply Forall_impl; [|exact Hc]. cbv beta. tauto.
  - inversion H; subst b. now apply regexNonASCII_test_false.
Qed.

(** X20: what [toASCII] returns is the text it keeps in front (the
    local part and the [@], if any) followed by ASCII characters only; on
    an input without [@] the whole result is ASCII. *)
Theorem toASCII_result : forall input result,
  is_string input -> len input <= maxInt -> toASCII input = Ok result ->
  exists domain,
    result = local_part input ++ domain /\ is_ascii domain
    /\ (~ In 64 input -> is_ascii result).
Proof.
  intros input result Hs Hlen H. unfold toASCII in H. rewrite mapDomain_eq in H.
  destruct (map_array _ _) as [encoded| |] eqn:Em; try discriminate.
  cbn [bind] in H. inversion H; subst result. clear H.
  assert (Ha : is_ascii (join 46 encoded)).
  { apply join_ascii. apply map_array_Forall2 in Em.
    apply (Forall2_transfer _ _ _
             (fun a => is_string a /\ len a <= maxInt) is_ascii _ _ Em).
    - apply Forall_forall. intros label Hl.
      destruct (domain_labels_string input label Hs Hl). split; [assumption|lia].
    - intros a b [Ha1 Ha2] Hb. eapply toASCII_label_ascii; eassumption. }
  exists (join 46 encoded). split; [reflexivity|]. split; [exact Ha|].
  intros Hn. unfold local_part. cbv zeta. rewrite (split_absent 64 input Hn).
  exact Ha.
Qed.

Lemma toASCII_result_witness :
  exists domain,
    [252; 64; 97; 46; 120; 110; 45; 45; 116; 100; 97]
    = local_part [252; 64; 97; 12290; 252] ++ domain /\ is_ascii domain
    /\ (~ In 64 [252; 64; 97; 12290; 252] ->
        is_ascii [252; 64; 97; 46; 120; 110; 45; 45; 116; 100; 97]).
Proof.
  apply (toASCII_result [252; 64; 97; 12290; 252]).
  - repeat constructor; lia.
  - vm_compute. discriminate.
  - vm_compute. reflexivity.
Defined.

Lemma map_array_outcome : forall (A B : Type) (f : A -> outcome B)
    (P : exn -> Prop) l,
  Forall (fun a => (exists b, f a = Ok b) \/ exists e, f a = Throw e /\ P e) l ->
  (exists r, map_array l f = Ok r) \/ exists e, map_array l f = Throw e /\ P e.
Proof.
  intros A B f P l H. induction H as [|a l Ha _ IH]; [left; now exists []|].
  cbn [map_array]. destruct IH as [[r ->]|(e & -> & He)]; cbn [bind].
  - destruct Ha as [[b ->]|(e & -> & He)]; cbn [bind]; [left|right]; eauto.
  - right. eauto.
Qed.

(** X21: on a string, [toASCII] returns or throws [overflow], and
    nothing else; on a string of at most 1927 code units it returns. *)
Theorem toASCII_outcome : forall input,
  is_string input ->
  ((exists result, toASCII input = Ok result)
   \/ toASCII input = Throw (CodecError overflow))
  /\ (len input <= 1927 -> exists result, toASCII input = Ok result).
Proof.
  intros input Hs. unfold toASCII. rewrite mapDomain_eq. split.
  - destruct (map_array_outcome _ _ toASCII_label
                (fun e => e = CodecError overflow) (domain_labels input))
      as [[r ->]|(e & -> & ->)]; cbn [bind]; [|left; eauto|now right].
    apply Forall_forall. intros label Hl.
    destruct (domain_labels_string input label Hs Hl) as [Hls _].
    unfold toASCII_label. destruct (regexNonASCII_test label); [|left; eauto].
    destruct (encode_outcome label Hls) as [[p ->]| ->]; cbn [bind]; eauto.
  - intros Hlen.
    destruct (map_array_outcome _ _ toASCII_label
                (fun _ => False) (domain_labels input))
      as [[r ->]|(e & _ & Hf)]; [|cbn [bind]; eauto|destruct Hf].
    apply Forall_forall. intros label Hl. left.
    destruct (domain_labels_string input label Hs Hl) as [Hls Hll].
    unfold toASCII_label. destruct (regexNonASCII_test label); [|eauto].
    destruct (encode_decode_units label Hls ltac:(lia)) as (p & -> & _).
    cbn [bind]. eauto.
Qed.

Lemma toASCII_outcome_witness :
  ((exists result, toASCII [252; 46; 97] = Ok result)
   \/ toASCII [252; 46; 97] = Throw (CodecError overflow))
  /\ (len [252; 46; 97] <= 1927 -> exists result, toASCII [252; 46; 97] = Ok result).
Proof.
  apply (toASCII_outcome [252; 46; 97]). repeat constructor; lia.
Defined.

(** ** [toASCII] then [toUnicode] *)

Lemma map_array_map : forall (A B : Type) (f : B -> outcome A) (g : A -> B) l,
  Forall (fun a => f (g a) = Ok a) l -> map_array (map g l) f = Ok l.
Proof.
  intros A B f g l H. induction H as [|a l Ha _ IH]; [reflexivity|].
  cbn [map map_array]. rewrite IH. cbn [bind]. now rewrite Ha.
Qed.

Lemma lower_unit_fixed : forall p,
  Forall (fun u => ~ 65 <= u <= 90) p -> toLowerCaseASCII p = p.
Proof.
  intros p H. unfold toLowerCaseASCII. induction H as [|u r Hu _ IH]; [reflexivity|].
  cbn [map]. rewrite IH. f_equal. unfold lower_unit.
  destruct (Z.leb_spec 65 u), (Z.leb_spec u 90); cbn [andb]; try reflexivity. lia.
Qed.

Section RoundTrip.

Variable toLowerCase : list Z -> list Z.
Hypothesis toLowerCase_ascii :
  forall s, is_ascii s -> toLowerCase s = toLowerCaseASCII s.

Lemma toASCII_label_ace : forall label,
  is_string label -> len label <= 1927 ->
  toASCII_label label = Ok (ace_label label).
Proof.
  intros label Hs Hlen. unfold toASCII_label, ace_label.
  destruct (regexNonASCII_test label); [|reflexivity].
  destruct (encode_decode_units label Hs Hlen) as (p & -> & _). reflexivity.
Qed.

Lemma toUnicode_label_ace : forall label,
  is_string label -> len label <= 1927 ->
  (if regexNonASCII_test label
   then Forall (fun u => ~ 65 <= u <= 90) label
   else regexPunycode_test label = false) ->
  toUnicode_label toLowerCase (ace_label label) = Ok label.
Proof.
  intros label Hs Hlen H. unfold ace_label.
  destruct (regexNonASCII_test label).
  - destruct (encode_decode_units label Hs Hlen) as (p & Ep & Dp). rewrite Ep.
    unfold toUnicode_label.
    replace (regexPunycode_test (units "xn--" ++ p)) with true
      by (symmetry; apply regexPunycode_test_true; now exists p).
    change (slice4 (units "xn--" ++ p)) with p.
    pose proof (encode_output_chars label p Hs ltac:(unfold maxInt; lia) Ep) as Hc.
    rewrite toLowerCase_ascii
      by (eapply Forall_impl; [|exact Hc]; cbv beta; tauto).
    rewrite lower_unit_fixed; [exact Dp|].
    apply Forall_forall. intros u Hu.
    pose proof (proj1 (Forall_forall _ _) Hc u Hu) as [_ [Hin|[->|Hl]]].
    + exact (proj1 (Forall_forall _ _) H u Hin).
    + unfold delimiter. lia.
    + apply is_lower_digit_cases in Hl. lia.
  - unfold toUnicode_label. now rewrite H.
Qed.

End RoundTrip.

(** X22: [toUnicode] undoes [toASCII] on an input of at most 1927
    code units with at most one [@], whose domain part has no separator
    other than the full stop, whose labels with a character of [0x80] or
    more have no uppercase ASCII letter, and whose other labels do not
    start with the prefix [xn--]; [toLowerCase] is any function that
    lowercases ASCII strings as the runtime does. *)
Theorem toUnicode_toASCII : forall toLowerCase input,
  (forall s, is_ascii s -> toLowerCase s = toLowerCaseASCII s) ->
  is_string input -> len input <= 1927 ->
  (List.length (split 64 input) <= 2)%nat ->
  replace_separators (domain_part input) = domain_part input ->
  Forall (fun label =>
            if regexNonASCII_test label
            then Forall (fun u => ~ 65 <= u <= 90) label
            else regexPunycode_test label = false) (domain_labels input) ->
  exists ascii,
    toASCII input = Ok ascii /\ toUnicode toLowerCase ascii = Ok input.
Proof.
  intros toLowerCase input Hlow Hs Hlen Hat Hsep Hlabels.
  set (labels := domain_labels input).
  assert (Hstr : Forall (fun l => is_string l /\ len l <= 1927) labels).
  { apply Forall_forall. intros l Hl.
    destruct (domain_labels_string input l Hs Hl). split; [assumption|lia]. }
  assert (Hplain : Forall plain_label labels)
    by (apply Forall_forall; intros l Hl; eapply domain_labels_plain; exact Hl).
  assert (Hto : map_array labels toASCII_label = Ok (map ace_label labels)).
  { apply map_array_ok. eapply Forall_impl; [|exact Hstr]. cbv beta.
    intros l [H1 H2]. now apply toASCII_label_ace. }
  exists (local_part input ++ join 46 (map ace_label labels)). split.
  - unfold toASCII. rewrite mapDomain_eq. fold labels. now rewrite Hto.
  - assert (Hace : Forall plain_label (map ace_label labels)).
    { apply Forall_forall. intros b Hb. apply in_map_iff in Hb.
      destruct Hb as (a & <- & Ha).
      destruct (proj1 (Forall_forall _ _) Hstr a Ha) as [H1 H2].
      apply (toASCII_label_stable a (ace_label a)).
      - exact (proj1 (Forall_forall _ _) Hplain a Ha).
      - exact H1.
      - unfold maxInt; lia.
      - now apply toASCII_label_ace. }
    assert (HJ : ~ In 64 (join 46 (map ace_label labels))).
    { apply join_absent; [lia|]. eapply Forall_impl; [|exact Hace].
      exact plain_label_no_at. }
    destruct (result_parts input _ HJ) as [El Ed].
    unfold toUnicode. rewrite mapDomain_eq. unfold domain_labels at 1.
    rewrite El, Ed. rewrite replace_separators_join by exact Hace.
    rewrite split_join.
    + rewrite map_array_map.
      * cbn [bind]. unfold labels, domain_labels. rewrite join_split, Hsep.
        now rewrite local_domain_one_at.
      * apply Forall_forall. intros a Ha.
        destruct (proj1 (Forall_forall _ _) Hstr a Ha) as [H1 H2].
        apply toUnicode_label_ace; try assumption.
        exact (proj1 (Forall_forall _ _) Hlabels a Ha).
    + pose proof (domain_labels_not_nil input) as Hn. fold labels in Hn.
      destruct labels; [congruence|discriminate].
    + eapply Forall_impl; [|exact Hace]. exact plain_label_no_dot.
Qed.

Lemma toUnicode_toASCII_witness :
  exists ascii,
    toASCII [74; 252; 64; 98; 252; 99; 104; 101; 114; 46; 68; 69] = Ok ascii
    /\ toUnicode toLowerCaseASCII ascii
       = Ok [74; 252; 64; 98; 252; 99; 104; 101; 114; 46; 68; 69].
Proof.
  apply (toUnicode_toASCII toLowerCaseASCII
           [74; 252; 64; 98; 252; 99; 104; 101; 114; 46; 68; 69]).
  - reflexivity.
  - repeat constructor; lia.
  - vm_compute. discriminate.
  - vm_compute. lia.
  - reflexivity.
  - replace (domain_labels [74; 252; 64; 98; 252; 99; 104; 101; 114; 46; 68; 69])
      with [[98; 252; 99; 104; 101; 114]; [68; 69]] by reflexivity.
    constructor; [|constructor; [|constructor]].
    + replace (regexNonASCII_test [98; 252; 99; 104; 101; 114]) with true
        by reflexivity.
      repeat constructor; lia.
    + reflexivity.
Defined.

(** ** The inner loops of [encode] *)

(** X23: the search of the main loop of [encode] returns the least
    code point of the array that is at least [n], and [maxInt] when there
    is none below [maxInt]. *)
Theorem find_min_least : forall inputArray n,
  n <= maxInt ->
  n <= find_min inputArray n maxInt <= maxInt
  /\ (forall c, In c inputArray -> n <= c -> find_min inputArray n maxInt <= c)
  /\ (find_min inputArray n maxInt < maxInt ->
      In (find_min inputArray n maxInt) inputArray).
Proof.
  intros l n Hn. destruct (find_min_spec l n maxInt) as (H1 & H2 & H3).
  split; [|split; [exact H2|]].
  - destruct H3 as [E|[_ Hb]]; lia.
  - intros Hlt. destruct H3 as [E|[Hin _]]; [lia|exact Hin].
Qed.

Lemma find_min_least_witness :
  128 <= find_min [252; 97; 228; 8364] 128 maxInt <= maxInt
  /\ (forall c, In c [252; 97; 228; 8364] -> 128 <= c ->
        find_min [252; 97; 228; 8364] 128 maxInt <= c)
  /\ (find_min [252; 97; 228; 8364] 128 maxInt < maxInt ->
      In (find_min [252; 97; 228; 8364] 128 maxInt) [252; 97; 228; 8364]).
Proof. apply (find_min_least [252; 97; 228; 8364] 128). unfold maxInt. lia. Defined.

(** X24: the digits that [encode] writes for a [delta] are lowercase
    letters and decimal digits, there is at least one, and the main loop
    of [decode] reads them back as [delta] when the bias is at most 234
    and [i + delta] does not exceed [maxInt]. *)
Theorem emit_read_back : forall q st rest,
  0 <= q -> 0 <= d_i st -> d_i st + q <= maxInt -> d_bias st <= 234 ->
  lower_digits (emit q (d_bias st))
  /\ emit q (d_bias st) <> []
  /\ decode_loop (emit q (d_bias st) ++ rest) Between st
     = (st' <- close_integer st (d_i st) (d_i st + q) ;;
        decode_loop rest Between st').
Proof.
  intros q st rest Hq Hi Hm Hb. rewrite emit_gvli. split; [|split].
  - now apply gvli_digits.
  - apply gvli_not_nil.
  - rewrite <- emit_gvli. now apply read_emit_exact.
Qed.

Lemma emit_read_back_witness :
  lower_digits (emit 745 initialBias)
  /\ emit 745 initialBias <> []
  /\ decode_loop (emit 745 initialBias ++ units "a") Between (decode_init (units "bcher"))
     = (st' <- close_integer (decode_init (units "bcher")) 0 (0 + 745) ;;
        decode_loop (units "a") Between st').
Proof.
  apply (emit_read_back 745 (decode_init (units "bcher")) (units "a"));
    cbn [decode_init d_i d_bias]; unfold maxInt, initialBias; lia.
Defined.

(** ** Labels, and the results of [toUnicode] *)

Lemma split_app_sep : forall sep a b,
  split sep (a ++ sep :: b) = split sep a ++ split sep b.
Proof.
  intros sep a b. induction a as [|u a IH].
  - cbn [app split]. now rewrite Z.eqb_refl.
  - cbn [app split]. rewrite IH. destruct (u =? sep); [reflexivity|].
    pose proof (split_not_nil sep a) as Hn.
    destruct (split sep a) as [|part parts]; [congruence|reflexivity].
Qed.

Lemma map_array_app : forall (A B : Type) (f : A -> outcome B) l1 l2,
  map_array (l1 ++ l2) f =
  (r2 <- map_array l2 f ;; r1 <- map_array l1 f ;; Ok (r1 ++ r2)).
Proof.
  intros A B f l1 l2. induction l1 as [|a l1 IH].
  - cbn [app map_array bind]. now destruct (map_array l2 f).
  - cbn [app map_array]. rewrite IH.
    destruct (map_array l2 f); cbn [bind]; try reflexivity.
    destruct (map_array l1 f); cbn [bind]; try reflexivity.
    now destruct (f a).
Qed.

Lemma map_array_not_nil : forall (A B : Type) (f : A -> outcome B) l r,
  l <> [] -> map_array l f = Ok r -> r <> [].
Proof.
  intros A B f l r Hl H. destruct l as [|a l]; [congruence|].
  cbn [map_array] in H. destruct (map_array l f); try discriminate.
  cbn [bind] in H. destruct (f a); try discriminate. now inversion H.
Qed.

Lemma join_app : forall sep l1 l2,
  l1 <> [] -> l2 <> [] ->
  join sep (l1 ++ l2) = join sep l1 ++ sep :: join sep l2.
Proof.
  intros sep l1 l2 H1 H2. induction l1 as [|p l1 IH]; [congruence|].
  destruct l1 as [|p' l1'].
  - cbn [app]. destruct l2; [congruence|reflexivity].
  - change (join sep ((p :: p' :: l1') ++ l2))
      with (p ++ sep :: join sep ((p' :: l1') ++ l2)).
    rewrite IH by discriminate.
    change (join sep (p :: p' :: l1')) with (p ++ sep :: join sep (p' :: l1')).
    now rewrite <- app_assoc.
Qed.

(** X25: [mapDomain] handles the labels one by one: on a text without
    [@], the result for [a], a separator and [b] is the result for [a], a
    full stop and the result for [b]; [b] is handled first, so that an
    exception raised on [b] is the one thrown. *)
Theorem mapDomain_labels : forall a sep b callback,
  ~ In 64 a -> ~ In 64 b -> is_separator sep = true ->
  mapDomain (a ++ sep :: b) callback
  = (rb <- mapDomain b callback ;;
     ra <- mapDomain a callback ;;
     Ok (ra ++ 46 :: rb)).
Proof.
  intros a sep b callback Ha Hb Hsep.
  assert (Hab : ~ In 64 (a ++ sep :: b)).
  { intros Hin. apply in_app_or in Hin. destruct Hin as [Hin|[Hin|Hin]]; try tauto.
    subst sep. discriminate. }
  rewrite !mapDomain_no_at by assumption.
  unfold replace_separators. rewrite map_app. cbn [map]. rewrite Hsep.
  fold (replace_separators a). fold (replace_separators b).
  rewrite split_app_sep, map_array_app.
  destruct (map_array (split 46 (replace_separators b)) callback) as [rb| |] eqn:Eb;
    cbn [bind]; try reflexivity.
  destruct (map_array (split 46 (replace_separators a)) callback) as [ra| |] eqn:Ea;
    cbn [bind]; try reflexivity.
  rewrite join_app; [reflexivity| |].
  - eapply map_array_not_nil; [apply split_not_nil|exact Ea].
  - eapply map_array_not_nil; [apply split_not_nil|exact Eb].
Qed.

Lemma mapDomain_labels_witness :
  toASCII ([252; 46; 97] ++ 12290 :: [228])
  = (rb <- toASCII [228] ;; ra <- toASCII [252; 46; 97] ;; Ok (ra ++ 46 :: rb)).
Proof.
  apply (mapDomain_labels [252; 46; 97] 12290 [228] toASCII_label).
  - simpl. intuition discriminate.
  - simpl. intuition discriminate.
  - reflexivity.
Defined.

(** X26: on an input none of whose labels starts with the lowercase
    prefix [xn--], [toUnicode] returns the text that [mapDomain] keeps in
    front (the local part and the first [@], if any) followed by the text
    that it splits into labels, with the separators replaced by full
    stops, whatever the other characters are.  When the input has at most
    one [@] and no separator other than the full stop in that text, this
    is the input itself. *)
Theorem toUnicode_plain : forall toLowerCase input,
  Forall (fun label => regexPunycode_test label = false) (domain_labels input) ->
  toUnicode toLowerCase input
  = Ok (local_part input ++ replace_separators (domain_part input))
  /\ ((List.length (split 64 input) <= 2)%nat ->
      replace_separators (domain_part input) = domain_part input ->
      toUnicode toLowerCase input = Ok input).
Proof.
  intros toLowerCase input H.
  assert (E : toUnicode toLowerCase input
              = Ok (local_part input ++ replace_separators (domain_part input))).
  { unfold toUnicode. rewrite mapDomain_eq. rewrite map_array_id.
    - cbn [bind]. unfold domain_labels. now rewrite join_split.
    - eapply Forall_impl; [|exact H]. cbv beta. intros label Hl.
      unfold toUnicode_label. now rewrite Hl. }
  split; [exact E|]. intros Hat Hsep.
  now rewrite E, Hsep, local_domain_one_at.
Qed.

Lemma toUnicode_plain_witness :
  toUnicode toLowerCaseASCII [252; 64; 98; 252; 65294; 88; 78; 45; 45; 97]
  = Ok (local_part [252; 64; 98; 252; 65294; 88; 78; 45; 45; 97]
        ++ replace_separators
             (domain_part [252; 64; 98; 252; 65294; 88; 78; 45; 45; 97]))
  /\ toUnicode toLowerCaseASCII [252; 64; 98; 252; 46; 88; 78; 45; 45; 97]
     = Ok [252; 64; 98; 252; 46; 88; 78; 45; 45; 97].
Proof.
  split.
  - apply toUnicode_plain.
    replace (domain_labels [252; 64; 98; 252; 65294; 88; 78; 45; 45; 97])
      with [[98; 252]; [88; 78; 45; 45; 97]] by reflexivity.
    constructor; [reflexivity|]. constructor; [reflexivity|constructor].
  - apply toUnicode_plain.
    + replace (domain_labels [252; 64; 98; 252; 46; 88; 78; 45; 45; 97])
        with [[98; 252]; [88; 78; 45; 45; 97]] by reflexivity.
      constructor; [reflexivity|]. constructor; [reflexivity|constructor].
    + vm_compute. lia.
    + reflexivity.
Defined.





